(** * Style token rewriter: [update-styles.py] and [update-styles-v2.py]

    A shallow embedding of the two batch rewriters of [apps/mobile] and of
    the part of Python's [re] module they rely on, followed by the
    properties of the specification that concern them.

    Texts are lists of characters; a character is a code point below 256
    (Rocq's [ascii]), classified the way Python classifies the code points of
    a [str] pattern ([\d], [\s], [\w], [\b]). *)

From Stdlib Require Import Ascii String DecimalString.
From Stdlib Require Import Bool Arith Lia List.
Import ListNotations.

(* ================================================================= *)
(** ** Texts *)

Definition text := list ascii.

Definition txt (s : string) : text := list_ascii_of_string s.

(** The line feed, which Rocq string literals cannot escape. *)
Definition nl : text := ["010"%char].

Definition code (c : ascii) : nat := nat_of_ascii c.

Definition between (lo hi : nat) (c : ascii) : bool :=
  (lo <=? code c) && (code c <=? hi).

(** [\d]: the decimal digits (category Nd) below 256 are 0-9. *)
Definition is_digit (c : ascii) : bool := between 48 57 c.

(** [\s]: Unicode white space below 256. *)
Definition is_space (c : ascii) : bool :=
  between 9 13 c || between 28 32 c || (code c =? 133) || (code c =? 160).

(** [\w]: alphanumeric code points below 256, and the underscore. *)
Definition is_word (c : ascii) : bool :=
  between 48 57 c || between 65 90 c || (code c =? 95) || between 97 122 c
  || (code c =? 170) || between 178 179 c || (code c =? 181)
  || between 185 186 c || between 188 190 c
  || between 192 214 c || between 216 246 c || between 248 255 c.

Definition ascii_eqb (a b : ascii) : bool := Ascii.eqb a b.

Arguments ascii_eqb : simpl never.

Fixpoint text_eqb (a b : text) : bool :=
  match a, b with
  | [], [] => true
  | x :: a', y :: b' => ascii_eqb x y && text_eqb a' b'
  | _, _ => false
  end.

(** [s.startswith(p)] *)
Fixpoint starts_with (p s : text) : bool :=
  match p, s with
  | [], _ => true
  | x :: p', y :: s' => ascii_eqb x y && starts_with p' s'
  | _ :: _, [] => false
  end.

(** [p in s] *)
Fixpoint contains (p s : text) : bool :=
  starts_with p s ||
  match s with
  | [] => false
  | _ :: s' => contains p s'
  end.

(** [s.endswith(p)] *)
Definition ends_with (p s : text) : bool :=
  starts_with (rev p) (rev s).

(** [s.count(p)] for a non-empty [p]: occurrences are counted from the left
    and do not overlap; [skip] characters of the last occurrence are still to
    be passed over. *)
Fixpoint count_from (p : text) (skip : nat) (s : text) : nat :=
  match s with
  | [] => 0
  | _ :: s' =>
      match skip with
      | S j => count_from p j s'
      | 0 => if starts_with p s
             then S (count_from p (length p - 1) s')
             else count_from p 0 s'
      end
  end.

Definition count (p s : text) : nat := count_from p 0 s.

(** [str(n)] for a non-negative [int]. *)
Definition str_of_nat (n : nat) : text :=
  txt (NilEmpty.string_of_uint (Nat.to_uint n)).

(* ================================================================= *)
(** ** Exceptions *)

Inductive exn : Type :=
| IndexError          (* [match.group(n)] with no such group *)
| TypeError           (* a pattern applied to [None] *)
| OSError             (* [open] or [write] failed *)
| UnicodeDecodeError. (* the file is not UTF-8 *)

Inductive result (A : Type) : Type :=
| Ok (a : A)
| Raise (e : exn).

Arguments Ok {A} a.
Arguments Raise {A} e.

Definition bind {A B} (x : result A) (f : A -> result B) : result B :=
  match x with
  | Ok a => f a
  | Raise e => Raise e
  end.

Notation "x <- c1 ;; c2" := (bind c1 (fun x => c2))
  (at level 61, c1 at next level, right associativity).

Fixpoint mapM {A B} (f : A -> result B) (l : list A) : result (list B) :=
  match l with
  | [] => Ok []
  | a :: l' => b <- f a ;; bs <- mapM f l' ;; Ok (b :: bs)
  end.

(* ================================================================= *)
(** ** Regular expressions, as [re] compiles and runs them *)

Module Re.

(** The parsed pattern.  [Group i r] is the [i]-th capturing group;
    a non-capturing group [(?:r)] is [r] itself. *)
Inductive regex : Type :=
| Empty
| Char (c : ascii)
| Class (p : ascii -> bool)
| Seq (r1 r2 : regex)
| Alt (r1 r2 : regex)
| Star (r : regex)
| Group (i : nat) (r : regex)
| WordB
| Bol
| Eol.

(** [r+] and [r{n}] *)
Definition Plus (r : regex) : regex := Seq r (Star r).

Fixpoint Rep (n : nat) (r : regex) : regex :=
  match n with
  | 0 => Empty
  | S n' => Seq r (Rep n' r)
  end.

(** A run of literal characters. *)
Fixpoint Lit (s : text) : regex :=
  match s with
  | [] => Empty
  | c :: s' => Seq (Char c) (Lit s')
  end.

(** [r1|r2|...|rn] *)
Fixpoint AltL (rs : list regex) : regex :=
  match rs with
  | [] => Class (fun _ => false)
  | [r] => r
  | r :: rs' => Alt r (AltL rs')
  end.

Definition digit : regex := Class is_digit.
Definition space : regex := Class is_space.
Definition not_char (c : ascii) : regex := Class (fun x => negb (ascii_eqb x c)).

(** The number of capturing groups of a pattern. *)
Fixpoint ngroups (r : regex) : nat :=
  match r with
  | Seq r1 r2 | Alt r1 r2 => Nat.max (ngroups r1) (ngroups r2)
  | Star r1 => ngroups r1
  | Group i r1 => Nat.max i (ngroups r1)
  | _ => 0
  end.

(** The state of a matching attempt: the character before the cursor (none
    at the start of the string), the text from the cursor on, and what the
    groups have captured so far. *)
Record mstate : Type := MState {
  before : option ascii;
  rest : text;
  caps : list (nat * text)
}.

Definition word_opt (o : option ascii) : bool :=
  match o with
  | Some c => is_word c
  | None => false
  end.

(** [\b]: exactly one of the two neighbours of the cursor is a word
    character; the ends of the string count as non-word. *)
Definition at_boundary (st : mstate) : bool :=
  xorb (word_opt (before st)) (word_opt (hd_error (rest st))).

(** [$]: the end of the string, or just before a final line feed. *)
Definition at_end (st : mstate) : bool :=
  match rest st with
  | [] => true
  | [c] => ascii_eqb c "010"
  | _ => false
  end.

Definition step (st : mstate) (ok : ascii -> bool) : option mstate :=
  match rest st with
  | c :: s' => if ok c then Some (MState (Some c) s' (caps st)) else None
  | [] => None
  end.

(** The text consumed between two states of one attempt. *)
Definition consumed (st st' : mstate) : text :=
  firstn (length (rest st) - length (rest st')) (rest st).

Definition capture (i : nat) (st st' : mstate) : mstate :=
  MState (before st') (rest st') ((i, consumed st st') :: caps st').

(** The rounds of a greedy star: one more round of the body is tried before
    leaving.  A round that consumes nothing is refused, so the rounds cannot
    outnumber the characters left, which is the fuel the star is given. *)
Definition star_loop
  (body : mstate -> (mstate -> option mstate) -> option mstate)
  (k : mstate -> option mstate) : nat -> mstate -> option mstate :=
  fix loop (fuel : nat) (st0 : mstate) : option mstate :=
    match fuel with
    | 0 => k st0
    | S fuel' =>
        match body st0 (fun st1 =>
                if length (rest st1) <? length (rest st0)
                then loop fuel' st1
                else None)
        with
        | Some st' => Some st'
        | None => k st0
        end
    end.

(** The backtracking matcher, in continuation-passing style: [k] is what
    remains of the pattern.  Alternatives are tried in order, and the first
    success is the match. *)
Fixpoint run (r : regex) (st : mstate) (k : mstate -> option mstate)
  : option mstate :=
  match r with
  | Empty => k st
  | Char c =>
      match step st (ascii_eqb c) with
      | Some st' => k st'
      | None => None
      end
  | Class p =>
      match step st p with
      | Some st' => k st'
      | None => None
      end
  | Seq r1 r2 => run r1 st (fun st1 => run r2 st1 k)
  | Alt r1 r2 =>
      match run r1 st k with
      | Some st' => Some st'
      | None => run r2 st k
      end
  | Star r1 => star_loop (run r1) k (length (rest st)) st
  | Group i r1 => run r1 st (fun st1 => k (capture i st st1))
  | WordB => if at_boundary st then k st else None
  | Bol => match before st with None => k st | Some _ => None end
  | Eol => if at_end st then k st else None
  end.

(** A match object: the matched text, the groups, and the number of groups
    the pattern has. *)
Record mobj : Type := MObj {
  whole : text;
  groups : list (nat * text);
  arity : nat
}.

Fixpoint assoc {A} (i : nat) (l : list (nat * A)) : option A :=
  match l with
  | [] => None
  | (j, a) :: l' => if i =? j then Some a else assoc i l'
  end.

(** [m.group(i)]: [None] for a group that took no part in the match,
    [IndexError] for a group the pattern does not have. *)
Definition group (m : mobj) (i : nat) : result (option text) :=
  if i =? 0 then Ok (Some (whole m))
  else if i <=? arity m then Ok (assoc i (groups m))
  else Raise IndexError.

(** One attempt at the cursor: [prev] is the character before it. *)
Definition match_at (r : regex) (prev : option ascii) (s : text)
  : option mobj :=
  match run r (MState prev s []) (fun st => Some st) with
  | Some st' =>
      Some (MObj (firstn (length s - length (rest st')) s) (caps st')
                 (ngroups r))
  | None => None
  end.

(** [re.match(r, s)] *)
Definition re_match (r : regex) (s : text) : option mobj :=
  match_at r None s.

(** What [re.sub] sees of a string, from left to right: the characters it
    copies and the matches it replaces.  After a match of [n] characters the
    search resumes [n] characters further ([skip] counts them down); an empty
    match is followed by the copy of one character. *)
Inductive piece : Type :=
| Keep (c : ascii)
| Hit (m : mobj).

Fixpoint pieces (r : regex) (skip : nat) (prev : option ascii) (s : text)
  : list piece :=
  match s with
  | [] =>
      match skip with
      | 0 => match match_at r prev [] with
             | Some m => [Hit m]
             | None => []
             end
      | S _ => []
      end
  | c :: s' =>
      match skip with
      | S j => pieces r j (Some c) s'
      | 0 =>
          match match_at r prev s with
          | Some m =>
              match length (whole m) with
              | 0 => Hit m :: Keep c :: pieces r 0 (Some c) s'
              | S j => Hit m :: pieces r j (Some c) s'
              end
          | None => Keep c :: pieces r 0 (Some c) s'
          end
      end
  end.

Definition piece_src (p : piece) : text :=
  match p with
  | Keep c => [c]
  | Hit m => whole m
  end.

Definition piece_out (repl : mobj -> result text) (p : piece) : result text :=
  match p with
  | Keep c => Ok [c]
  | Hit m => repl m
  end.

(** [re.sub(r, repl, s)] with a function [repl]: the copied characters and
    the replacements, joined.  An exception of [repl] ends the call. *)
Definition re_sub (r : regex) (repl : mobj -> result text) (s : text)
  : result text :=
  outs <- mapM (piece_out repl) (pieces r 0 None s) ;; Ok (concat outs).

(** [re.search(r, s)]: is there a match anywhere? *)
Definition re_search (r : regex) (s : text) : bool :=
  existsb (fun p => match p with Hit _ => true | Keep _ => false end)
          (pieces r 0 None s).

(** A replacement template: literal text and group references [\1], [\2]. *)
Inductive titem : Type :=
| TText (s : text)
| TGroup (i : nat).

Definition expand_item (m : mobj) (it : titem) : result text :=
  match it with
  | TText s => Ok s
  | TGroup i =>
      g <- group m i ;;
      Ok (match g with Some s => s | None => [] end)
  end.

Definition expand (tpl : list titem) (m : mobj) : result text :=
  parts <- mapM (expand_item m) tpl ;; Ok (concat parts).

End Re.

Import Re.

(* ================================================================= *)
(** ** Files and console *)

Definition path := text.

(** What [open(p).read()] yields for a path (the decoded text, or the
    exception raised), and whether [open(p, 'w')] is permitted. *)
Record node : Type := Node {
  data : result text;
  writable : bool
}.

Definition filesystem := path -> node.

Definition read_text (fs : filesystem) (p : path) : result text :=
  data (fs p).

(** A write that is refused leaves the file system as it was. *)
Definition write_text (fs : filesystem) (p : path) (c : text)
  : result filesystem :=
  if writable (fs p)
  then Ok (fun q => if text_eqb q p then Node (Ok c) true else fs q)
  else Raise OSError.

(** One constructor per [print] statement of the two scripts. *)
Inductive out : Type :=
| ProcessingScreens
| ProcessingComponents
| ProcessingFiles (n : nat)
| BlankLine
| Skipping (p : path)
| ErrorProcessing (p : path) (e : exn)
| ErrorInRegex (e : exn)
| Updated (name : text)
| SummaryHeader
| SummaryCount (n : nat)
| Done.

(** [os.path.basename]: what follows the last slash. *)
Fixpoint basename_from (acc : text) (p : path) : text :=
  match p with
  | [] => acc
  | c :: p' => if ascii_eqb c "/" then basename_from p' p' else basename_from acc p'
  end.

Definition basename (p : path) : text := basename_from p p.

(** [f"{x}"] of a group: [None] prints as the word. *)
Definition fmt (o : option text) : text :=
  match o with
  | Some s => s
  | None => txt "None"
  end.

(** A dictionary with [str] keys, in insertion order. *)
Fixpoint lookup (k : text) (d : list (text * text)) : option text :=
  match d with
  | [] => None
  | (k', v) :: d' => if text_eqb k k' then Some v else lookup k d'
  end.

Definition STYLE_MARKER : text := txt "StyleSheet.create".
Definition TABLET_MARKER : text := txt "deviceInfo.isTablet".

(* ================================================================= *)
(** ** [update-styles.py] *)

Module UpdateStyles.

Definition SPACING_MAP : list (text * text) :=
  [ (txt "4", txt "spacing.xs");
    (txt "8", txt "spacing.sm");
    (txt "12", txt "spacing.md");
    (txt "16", txt "spacing.lg");
    (txt "20", txt "spacing.xl");
    (txt "24", txt "spacing.xxl");
    (txt "32", txt "spacing.xxxl");
    (txt "40", txt "spacing.xxxl") ].

Definition FONT_SIZE_MAP : list (text * text) :=
  [ (txt "12", txt "typography.caption");
    (txt "13", txt "typography.body2");
    (txt "14", txt "typography.body2");
    (txt "15", txt "typography.body1");
    (txt "16", txt "typography.body1");
    (txt "17", txt "typography.subtitle1");
    (txt "18", txt "typography.h6");
    (txt "20", txt "typography.h5");
    (txt "22", txt "typography.h5");
    (txt "24", txt "typography.h4");
    (txt "26", txt "typography.h4");
    (txt "28", txt "typography.h3");
    (txt "30", txt "typography.h3");
    (txt "32", txt "typography.h2");
    (txt "34", txt "typography.h2");
    (txt "36", txt "typography.h1") ].

(** [r'^(\d+)$'] *)
Definition NUMBER : regex := Seq Bol (Seq (Group 1 (Plus digit)) Eol).

Definition convert (table : list (text * text)) (value : text) : text :=
  match re_match NUMBER value with
  | Some m =>
      match group m 1 with
      | Ok (Some num) =>
          match lookup num table with
          | Some token => token
          | None => value
          end
      | _ => value
      end
  | None => value
  end.

Definition update_spacing_property (value : text) : text :=
  convert SPACING_MAP value.

Definition update_font_size (value : text) : text :=
  convert FONT_SIZE_MAP value.

(** The callbacks of [add_tablet_specific_styles].  A group that is [None]
    reaches [re.match] as its string argument, which raises [TypeError]. *)
Definition replace_spacing (m : mobj) : result text :=
  prop <- group m 1 ;;
  value <- group m 2 ;;
  match value with
  | Some v => Ok (fmt prop ++ txt ": " ++ update_spacing_property v ++ txt ",")
  | None => Raise TypeError
  end.

Definition replace_font_size (m : mobj) : result text :=
  value <- group m 1 ;;
  match value with
  | Some v => Ok (txt "fontSize: " ++ update_font_size v ++ txt ",")
  | None => Raise TypeError
  end.

Definition SPACING_NAMES : list text :=
  map txt
    [ "padding"; "margin"; "paddingHorizontal"; "paddingVertical";
      "marginHorizontal"; "marginVertical"; "paddingTop"; "paddingBottom";
      "paddingLeft"; "paddingRight"; "marginTop"; "marginBottom";
      "marginLeft"; "marginRight" ]%string.

(** [r'(padding|margin|...|marginRight): (\d+),'] *)
Definition SPACING_RE : regex :=
  Seq (Group 1 (AltL (map Lit SPACING_NAMES)))
      (Seq (Lit (txt ": ")) (Seq (Group 2 (Plus digit)) (Char ","))).

(** [r'fontSize: (\d+),'] *)
Definition FONT_RE : regex :=
  Seq (Lit (txt "fontSize: ")) (Seq (Group 1 (Plus digit)) (Char ",")).

(** [r'gap: (\d+),'] *)
Definition GAP_RE : regex :=
  Seq (Lit (txt "gap: ")) (Seq (Group 1 (Plus digit)) (Char ",")).

(** [r'borderRadius: 12,'] *)
Definition RADIUS_RE : regex := Lit (txt "borderRadius: 12,").

Definition RADIUS_NEW : text := txt "borderRadius: deviceInfo.isTablet ? 14 : 12,".

(** [r'size={24}'] and [r'size={20}']: a brace that opens a well-formed
    count is a quantifier of the item before it, so these patterns are
    [size] followed by 24 (or 20) equals signs. *)
Definition SIZE_RE (n : nat) : regex :=
  Seq (Lit (txt "size")) (Rep n (Char "=")).

Definition SIZE24_NEW : text := txt "size={deviceInfo.isTablet ? scale(26) : scale(24)}".
Definition SIZE20_NEW : text := txt "size={deviceInfo.isTablet ? scale(22) : scale(20)}".

(** The corner-radius substitution of [add_tablet_specific_styles] ... *)
Definition radius_rule (content : text) : result text :=
  re_sub RADIUS_RE (expand [TText RADIUS_NEW]) content.

(** ... and its two icon-size substitutions. *)
Definition size_rules (content : text) : result text :=
  content <- re_sub (SIZE_RE 24) (expand [TText SIZE24_NEW]) content ;;
  content <- re_sub (SIZE_RE 20) (expand [TText SIZE20_NEW]) content ;;
  Ok content.

Definition add_tablet_specific_styles (content : text) : result text :=
  content <- re_sub SPACING_RE replace_spacing content ;;
  content <- re_sub FONT_RE replace_font_size content ;;
  content <- re_sub GAP_RE replace_spacing content ;;
  content <- radius_rule content ;;
  size_rules content.

Definition THRESHOLD : nat := 5.

Section ChangeGate.

(** [process_file], with the rewriter it calls as a parameter. *)
Variable rewriter : text -> result text.

Definition process_body (fs : filesystem) (filepath : path)
  : result (bool * filesystem * list out) :=
  content <- read_text fs filepath ;;
  if negb (contains STYLE_MARKER content) then Ok (false, fs, [])
  else if THRESHOLD <? count TABLET_MARKER content
  then Ok (false, fs, [Skipping filepath])
  else
    let original_content := content in
    content <- rewriter content ;;
    if negb (text_eqb content original_content)
    then fs' <- write_text fs filepath content ;; Ok (true, fs', [])
    else Ok (false, fs, []).

Definition process_file_with (fs : filesystem) (filepath : path)
  : bool * filesystem * list out :=
  match process_body fs filepath with
  | Ok r => r
  | Raise e => (false, fs, [ErrorProcessing filepath e])
  end.

End ChangeGate.

Definition process_file : filesystem -> path -> bool * filesystem * list out :=
  process_file_with add_tablet_specific_styles.

(** One [for] loop of [main]: the files are taken in order; [skip] is the
    test before [continue]. *)
Fixpoint loop (skip : path -> bool) (files : list path)
  (st : filesystem * list out * nat) : filesystem * list out * nat :=
  match files with
  | [] => st
  | filepath :: files' =>
      let '(fs, log, n) := st in
      if skip filepath then loop skip files' st
      else
        let '(changed, fs', printed) := process_file fs filepath in
        if changed
        then loop skip files' (fs', log ++ printed ++ [Updated (basename filepath)], S n)
        else loop skip files' (fs', log ++ printed, n)
  end.

(** [main]; [screens] and [components] are what the two [glob.glob] calls
    return. *)
Definition main (screens components : list path) (fs : filesystem)
  : filesystem * list out * nat :=
  let st := (fs, [ProcessingScreens], 0) in
  let st := loop (fun _ => false) screens st in
  let '(fs, log, n) := st in
  let st := (fs, log ++ [ProcessingComponents], n) in
  let st := loop (ends_with (txt "ResponsiveLayout.tsx")) components st in
  let '(fs, log, n) := st in
  (fs, log ++ [SummaryHeader; SummaryCount n; Done], n).

End UpdateStyles.

(* ================================================================= *)
(** ** [update-styles-v2.py] *)

Module UpdateStylesV2.

Definition SPACING_MAP : list (nat * text) :=
  [ (4, txt "spacing.xs");
    (8, txt "spacing.sm");
    (12, txt "spacing.md");
    (16, txt "spacing.lg");
    (20, txt "spacing.xl");
    (24, txt "spacing.xxl");
    (32, txt "spacing.xxxl");
    (40, txt "spacing.xxxl") ].

Definition FONT_SIZE_MAP : list (nat * text) :=
  [ (12, txt "typography.caption");
    (13, txt "typography.body2");
    (14, txt "typography.body2");
    (16, txt "typography.body1");
    (18, txt "typography.h6");
    (20, txt "typography.h5");
    (24, txt "typography.h4");
    (28, txt "typography.h3");
    (32, txt "typography.h2");
    (36, txt "typography.h1") ].

Definition not_close : regex := not_char "}".

(** The pattern of a style block: the literal
    [const styles = StyleSheet.create({], then group 1, then the literal
    [});].  Group 1 is [[^}]+] followed by any number of rounds of
    [{ [^}]+ } [^}]+] (a non-capturing group under a star). *)
Definition BLOCK_RE : regex :=
  Seq (Lit (txt "const styles = StyleSheet.create({"))
      (Seq (Group 1
              (Seq (Plus not_close)
                   (Star (Seq (Char "{")
                              (Seq (Plus not_close)
                                   (Seq (Char "}") (Plus not_close)))))))
           (Lit (txt "});"))).

Definition SPACING_NAMES : list text :=
  map txt
    [ "padding"; "margin"; "paddingHorizontal"; "paddingVertical";
      "marginHorizontal"; "marginVertical"; "paddingTop"; "paddingBottom";
      "paddingLeft"; "paddingRight"; "marginTop"; "marginBottom";
      "marginLeft"; "marginRight"; "gap" ]%string.

(** [rf'\b(padding|...|gap):\s*{px}\b'] *)
Definition SPACING_RE (px : nat) : regex :=
  Seq WordB
      (Seq (Group 1 (AltL (map Lit SPACING_NAMES)))
           (Seq (Char ":") (Seq (Star space) (Seq (Lit (str_of_nat px)) WordB)))).

(** [rf'\bfontSize:\s*{px}\b'] *)
Definition FONT_RE (px : nat) : regex :=
  Seq WordB
      (Seq (Lit (txt "fontSize:"))
           (Seq (Star space) (Seq (Lit (str_of_nat px)) WordB))).

(** [r'\bborderRadius:\s*12\b'] and [r'\bborderRadius:\s*10\b'] *)
Definition RADIUS_RE (px : nat) : regex :=
  Seq WordB
      (Seq (Lit (txt "borderRadius:"))
           (Seq (Star space) (Seq (Lit (str_of_nat px)) WordB))).

Definition RADIUS12_NEW : text := txt "borderRadius: deviceInfo.isTablet ? 14 : 12".
Definition RADIUS10_NEW : text := txt "borderRadius: deviceInfo.isTablet ? 12 : 10".

(** The two [for] loops over the dictionaries, in insertion order. *)
Fixpoint spacing_loop (items : list (nat * text)) (styles_content : text)
  : result text :=
  match items with
  | [] => Ok styles_content
  | (px, responsive) :: items' =>
      styles_content <-
        re_sub (SPACING_RE px)
               (expand [TGroup 1; TText (txt ": " ++ responsive)])
               styles_content ;;
      spacing_loop items' styles_content
  end.

Fixpoint font_loop (items : list (nat * text)) (styles_content : text)
  : result text :=
  match items with
  | [] => Ok styles_content
  | (px, responsive) :: items' =>
      styles_content <-
        re_sub (FONT_RE px)
               (expand [TText (txt "fontSize: " ++ responsive)])
               styles_content ;;
      font_loop items' styles_content
  end.

(** The two corner-radius substitutions of [process_stylesheet]. *)
Definition radius_rules (styles_content : text) : result text :=
  styles_content <-
    re_sub (RADIUS_RE 12) (expand [TText RADIUS12_NEW]) styles_content ;;
  re_sub (RADIUS_RE 10) (expand [TText RADIUS10_NEW]) styles_content.

(** What [process_stylesheet] does to the text of group 1. *)
Definition restyle (styles_content : text) : result text :=
  styles_content <- spacing_loop SPACING_MAP styles_content ;;
  styles_content <- font_loop FONT_SIZE_MAP styles_content ;;
  radius_rules styles_content.

Definition BLOCK_OPEN : text := txt "const styles = StyleSheet.create({".
Definition BLOCK_CLOSE : text := txt "});".

Definition process_stylesheet (m : mobj) : result text :=
  g <- group m 1 ;;
  match g with
  | Some styles_content =>
      styles_content <- restyle styles_content ;;
      Ok (BLOCK_OPEN ++ styles_content ++ BLOCK_CLOSE)
  | None => Raise TypeError
  end.

(** The [try] around the substitution prints and keeps the content. *)
Definition update_styles_in_stylesheet (content : text) : text * list out :=
  match re_sub BLOCK_RE process_stylesheet content with
  | Ok content' => (content', [])
  | Raise e => (content, [ErrorInRegex e])
  end.

Definition not_gt : regex := not_char ">".

(** The pattern of an icon tag: [<Ionicons], [\s+], group 1 [[^>]*], then
    [size={24}], group 2 [[^>]*], and [/>]; the same with 20.  The brace
    after [=] opens a count, so the pattern asks for [size] followed by 24
    (or 20) equals signs. *)
Definition ICON_RE (n : nat) : regex :=
  Seq (Lit (txt "<Ionicons"))
      (Seq (Plus space)
           (Seq (Group 1 (Star not_gt))
                (Seq (Lit (txt "size"))
                     (Seq (Rep n (Char "="))
                          (Seq (Group 2 (Star not_gt)) (Lit (txt "/>"))))))).

Definition ICON24_NEW : list titem :=
  [ TText (txt "<Ionicons "); TGroup 1;
    TText (txt "size={deviceInfo.isTablet ? scale(26) : scale(24)}");
    TGroup 2; TText (txt "/>") ].

Definition ICON20_NEW : list titem :=
  [ TText (txt "<Ionicons "); TGroup 1;
    TText (txt "size={deviceInfo.isTablet ? scale(22) : scale(20)}");
    TGroup 2; TText (txt "/>") ].

Definition update_icon_sizes (content : text) : result text :=
  content <- re_sub (ICON_RE 24) (expand ICON24_NEW) content ;;
  re_sub (ICON_RE 20) (expand ICON20_NEW) content.

Definition THRESHOLD : nat := 10.

Section ChangeGate.

(** [process_file], with the two rewriters it calls as parameters. *)
Variable restyler : text -> text * list out.
Variable resizer : text -> result text.

Definition process_body (fs : filesystem) (filepath : path)
  : result (bool * filesystem * list out) :=
  content <- read_text fs filepath ;;
  if negb (contains STYLE_MARKER content) then Ok (false, fs, [])
  else if THRESHOLD <? count TABLET_MARKER content then Ok (false, fs, [])
  else
    let original_content := content in
    let '(content, printed) := restyler content in
    match
      (content <- resizer content ;;
       if negb (text_eqb content original_content)
       then fs' <- write_text fs filepath content ;; Ok (true, fs')
       else Ok (false, fs))
    with
    | Ok (changed, fs') => Ok (changed, fs', printed)
    | Raise e => Ok (false, fs, printed ++ [ErrorProcessing filepath e])
    end.

Definition process_file_with (fs : filesystem) (filepath : path)
  : bool * filesystem * list out :=
  match process_body fs filepath with
  | Ok r => r
  | Raise e => (false, fs, [ErrorProcessing filepath e])
  end.

End ChangeGate.

Definition process_file : filesystem -> path -> bool * filesystem * list out :=
  process_file_with update_styles_in_stylesheet update_icon_sizes.

Definition skipped (filepath : path) : bool :=
  contains (txt "ResponsiveLayout.tsx") filepath
  || contains (txt "responsive.ts") filepath.

Fixpoint loop (files : list path) (st : filesystem * list out * nat)
  : filesystem * list out * nat :=
  match files with
  | [] => st
  | filepath :: files' =>
      let '(fs, log, n) := st in
      if skipped filepath then loop files' st
      else
        let '(changed, fs', printed) := process_file fs filepath in
        if changed
        then loop files' (fs', log ++ printed ++ [Updated (basename filepath)], S n)
        else loop files' (fs', log ++ printed, n)
  end.

Definition main (screens components : list path) (fs : filesystem)
  : filesystem * list out * nat :=
  let all_files := screens ++ components in
  let st := (fs, [ProcessingFiles (length all_files); BlankLine], 0) in
  let '(fs, log, n) := loop all_files st in
  (fs, log ++ [SummaryHeader; SummaryCount n; Done], n).

End UpdateStylesV2.

(* ================================================================= *)
(** ** What a pattern denotes *)

Module ReSem.

(** [den r st st']: the pattern [r] can lead the attempt from [st] to [st'].
    The matcher explores these possibilities in a fixed order. *)
Inductive den : regex -> mstate -> mstate -> Prop :=
| DEmpty st : den Empty st st
| DChar c st st' :
    step st (ascii_eqb c) = Some st' -> den (Char c) st st'
| DClass p st st' :
    step st p = Some st' -> den (Class p) st st'
| DSeq r1 r2 st st1 st2 :
    den r1 st st1 -> den r2 st1 st2 -> den (Seq r1 r2) st st2
| DAltL r1 r2 st st' : den r1 st st' -> den (Alt r1 r2) st st'
| DAltR r1 r2 st st' : den r2 st st' -> den (Alt r1 r2) st st'
| DStarStop r st : den (Star r) st st
| DStarRound r st st1 st2 :
    den r st st1 ->
    length (rest st1) < length (rest st) ->
    den (Star r) st1 st2 ->
    den (Star r) st st2
| DGroup i r st st1 :
    den r st st1 -> den (Group i r) st (capture i st st1)
| DWordB st : at_boundary st = true -> den WordB st st
| DBol st : before st = None -> den Bol st st
| DEol st : at_end st = true -> den Eol st st.

(** The last character of [w], or [prev] when [w] is empty. *)
Definition last_of (prev : option ascii) (w : text) : option ascii :=
  match rev w with
  | c :: _ => Some c
  | [] => prev
  end.

End ReSem.

Import ReSem.

(* ================================================================= *)
(** ** Notions used in the statements *)

(** The three components of what [process_file] leaves behind. *)
Definition changed (r : bool * filesystem * list out) : bool := fst (fst r).
Definition fs_after (r : bool * filesystem * list out) : filesystem := snd (fst r).
Definition printed (r : bool * filesystem * list out) : list out := snd r.

(** A pattern without capturing groups. *)
Fixpoint groupless (r : regex) : bool :=
  match r with
  | Seq r1 r2 | Alt r1 r2 => groupless r1 && groupless r2
  | Star r1 => groupless r1
  | Group _ _ => false
  | _ => true
  end.

Definition is_hit (p : piece) : bool :=
  match p with
  | Hit _ => true
  | Keep _ => false
  end.




(** Past the gate of [process_file], the outcome is a function of what the
    rewriter returns on the content read. *)
Definition outcome (fs : filesystem) (p : path) (c : text)
  (r : result text) : bool * filesystem * list out :=
  match r with
  | Raise e => (false, fs, [ErrorProcessing p e])
  | Ok c' =>
      if text_eqb c' c then (false, fs, [])
      else match write_text fs p c' with
           | Ok fs' => (true, fs', [])
           | Raise e => (false, fs, [ErrorProcessing p e])
           end
  end.

(** The gate of [process_file] is closed for a content without the style
    marker, or with more tablet markers than the threshold. *)
Definition gate_closed (threshold : nat) (c : text) : Prop :=
  contains STYLE_MARKER c = false \/ threshold < count TABLET_MARKER c.

(** The same for [update-styles-v2.py], where the first rewriter may have
    printed before the second one is called. *)
Definition outcome_v2 (fs : filesystem) (p : path) (c : text)
  (pr : list out) (r : result text) : bool * filesystem * list out :=
  match r with
  | Raise e => (false, fs, pr ++ [ErrorProcessing p e])
  | Ok c' =>
      if text_eqb c' c then (false, fs, pr)
      else match write_text fs p c' with
           | Ok fs' => (true, fs', pr)
           | Raise e => (false, fs, pr ++ [ErrorProcessing p e])
           end
  end.

(** Two small file systems for the examples: every path holds [c]. *)
Definition fs_all (c : text) (w : bool) : filesystem := fun _ => Node (Ok c) w.
Definition fs_broken (e : exn) : filesystem := fun _ => Node (Raise e) true.







(* ----------------------------------------------------------------- *)
(** *** Replacement tables

    A substitution whose pattern is a fixed text, or one of finitely many
    fixed texts, is a table of pairs (literal, replacement) applied in one
    pass from the left: at each position the first entry whose literal
    starts there is replaced, and the pass resumes after it. *)

Definition table := list (text * text).

Fixpoint find_entry (L : table) (s : text) : option (text * text) :=
  match L with
  | [] => None
  | (l, r) :: L' => if starts_with l s then Some (l, r) else find_entry L' s
  end.

Fixpoint one_pass_from (L : table) (skip : nat) (s : text) : text :=
  match s with
  | [] => []
  | c :: s' =>
      match skip with
      | S j => one_pass_from L j s'
      | 0 =>
          match find_entry L s with
          | Some (l, r) => r ++ one_pass_from L (length l - 1) s'
          | None => c :: one_pass_from L 0 s'
          end
      end
  end.

Definition one_pass (L : table) (s : text) : text := one_pass_from L 0 s.

(** Two texts are compatible when one starts the other: both can then
    start at the same place of some text. *)
Definition compatible (a b : text) : bool :=
  starts_with a b || starts_with b a.

(** A property of all the non-empty suffixes of a text. *)
Fixpoint for_suffixes (P : text -> bool) (x : text) : bool :=
  match x with
  | [] => true
  | _ :: x' => P x && for_suffixes P x'
  end.

(** No literal of [L] can start inside [x], whatever follows [x]. *)
Definition clear_of (L : table) (sfx : text) : bool :=
  forallb (fun e => negb (compatible sfx (fst e))) L.

Definition inert (L : table) (x : text) : bool := for_suffixes (clear_of L) x.

Definition no_empty (L : table) : bool :=
  forallb (fun e => match fst e with [] => false | _ :: _ => true end) L.

Fixpoint prefix_free (L : table) : bool :=
  match L with
  | [] => true
  | e :: L' => clear_of L' (fst e) && prefix_free L'
  end.

(** No literal of [LB] that starts in copied text can run into a
    replacement of [LA]. *)
Definition no_creation (LA LB : table) : bool :=
  forallb (fun eb =>
             for_suffixes (fun sfx =>
                forallb (fun ea => negb (compatible sfx (snd ea))) LA)
               (tl (fst eb)))
          LB.

(** The conditions under which a pass with [LA] followed by a pass with
    [LB] is one pass with both tables. *)
Definition fusible (LA LB : table) : bool :=
  no_empty LA && no_empty LB && prefix_free LB
  && forallb (fun ea => inert LB (snd ea)) LA
  && forallb (fun eb => inert LA (tl (fst eb))) LB
  && no_creation LA LB.

(** The conditions under which the result of a pass holds no literal of the
    table any more. *)
Definition settles (L : table) : bool :=
  no_empty L && forallb (fun e => inert L (snd e)) L && no_creation L L.

(** No literal of one table is compatible with a literal of the other. *)
Definition apart (LA LB : table) : bool :=
  forallb (fun ea => clear_of LB (fst ea)) LA.

(** No literal of [L] occurs in [s]. *)
Definition quiet (L : table) (s : text) : Prop :=
  forall i, find_entry L (skipn i s) = None.

(** The literal [l] stands alone in [L]: one entry has it, no other literal
    is compatible with it, and no literal that starts before it can run
    into it. *)
Definition stands_alone (L : table) (l : text) : bool :=
  match l with
  | [] => false
  | _ :: _ =>
      (length (filter (fun e => compatible l (fst e)) L) =? 1)
      && forallb (fun e =>
                    for_suffixes (fun sfx => negb (compatible sfx l)) (tl (fst e)))
                 L
  end.

(** [re.sub] from a cursor inside the string: [prev] is the character
    before the cursor. *)
Definition sub_from (r : regex) (repl : mobj -> result text)
  (prev : option ascii) (s : text) : result text :=
  outs <- mapM (piece_out repl) (pieces r 0 prev s) ;; Ok (concat outs).

(** The tables of [update-styles.py]: what its six substitutions replace,
    and by what. *)
Definition declaration (name value : text) : text :=
  name ++ txt ": " ++ value ++ txt ",".

Definition declarations (names : list text) (map_ : list (text * text)) : table :=
  flat_map (fun name =>
              map (fun kv => (declaration name (fst kv), declaration name (snd kv)))
                  map_)
           names.

Definition spacing_table : table :=
  declarations UpdateStyles.SPACING_NAMES UpdateStyles.SPACING_MAP.

Definition font_table : table :=
  declarations [txt "fontSize"] UpdateStyles.FONT_SIZE_MAP.

Definition radius_table : table :=
  [(txt "borderRadius: 12,", UpdateStyles.RADIUS_NEW)].

Definition size_literal (n : nat) : text := txt "size" ++ repeat "="%char n.

Definition size_table : table :=
  [(size_literal 24, UpdateStyles.SIZE24_NEW);
   (size_literal 20, UpdateStyles.SIZE20_NEW)].

Definition v1_table : table :=
  spacing_table ++ font_table ++ radius_table ++ size_table.

(** The characters that follow the name in a declaration. *)
Definition punct (c : ascii) : bool :=
  is_digit c || ascii_eqb c ":" || ascii_eqb c " " || ascii_eqb c ",".

(** No literal of the table starts with one of them. *)
Definition heads_avoid (L : table) : bool :=
  forallb (fun e => match fst e with
                    | [] => false
                    | h :: _ => negb (punct h)
                    end) L.

(** No literal of the table can start inside [name] when a colon follows. *)
Definition name_clear (L : table) (name : text) : bool :=
  for_suffixes (fun sfx => clear_of L (sfx ++ txt ":")) (tl name).

(** The keys of a map are numbers, each listed once. *)
Fixpoint keys_ok (d : list (text * text)) : bool :=
  match d with
  | [] => true
  | (k, _) :: d' =>
      match k with [] => false | _ :: _ => true end
      && forallb is_digit k
      && negb (existsb (fun kv => text_eqb k (fst kv)) d')
      && keys_ok d'
  end.

(** Different names stay different when a colon follows them. *)
Definition names_apart (names : list text) : bool :=
  forallb (fun n =>
    match n with [] => false | _ :: _ => true end
    && forallb (fun n' => implb (compatible (n ++ txt ":") (n' ++ txt ":"))
                                (text_eqb n n')) names)
    names.

(** A block whose last declaration has no comma after it. *)
Definition last_property : text :=
  txt "const styles = StyleSheet.create({ box: { margin: 8, padding: 16 } });".

Definition last_property_v1 : text :=
  txt "const styles = StyleSheet.create({ box: { margin: spacing.sm, padding: 16 } });".

Definition last_property_v2 : text :=
  txt "const styles = StyleSheet.create({ box: { margin: spacing.sm, padding: spacing.lg } });".

(* ----------------------------------------------------------------- *)
(** *** Substitutions as scans

    What a substitution does at a cursor: the text it matches there, and
    the text it writes instead. *)

Definition matcher := option ascii -> text -> option (text * text).

Definition rule_of (r : regex) (repl : mobj -> result text) : matcher :=
  fun prev s =>
    match match_at r prev s with
    | Some m =>
        match repl m with
        | Ok new => Some (whole m, new)
        | Raise _ => None
        end
    | None => None
    end.

Fixpoint scan_from (mu : matcher) (skip : nat) (prev : option ascii) (s : text)
  : text :=
  match s with
  | [] => []
  | c :: s' =>
      match skip with
      | S j => scan_from mu j (Some c) s'
      | 0 =>
          match mu prev s with
          | Some (M, new) => new ++ scan_from mu (length M - 1) (Some c) s'
          | None => c :: scan_from mu 0 (Some c) s'
          end
      end
  end.

Definition scan (mu : matcher) (prev : option ascii) (s : text) : text :=
  scan_from mu 0 prev s.

(** What a matcher matches is a non-empty prefix of the text. *)
Definition proper (mu : matcher) : Prop :=
  forall prev s M new, mu prev s = Some (M, new) ->
    M <> [] /\ exists t, s = M ++ t.

(** A text seen from its two ends. *)
Definition closed_left (x : text) : Prop := word_opt (last_of None x) = false.
Definition closed_right (y : text) : Prop := word_opt (hd_error y) = false.

(** A site of a rule [\b NAME : \s* K \b]: the cursor is not after a word
    character, the text spells one of the names, a colon, white space and
    the key, and no word character follows. *)
Definition site (names : list text) (K : text) (prev : option ascii) (s : text)
  (name ws t : text) : Prop :=
  In name names /\ word_opt prev = false /\
  s = name ++ txt ":" ++ ws ++ K ++ t /\
  forallb is_space ws = true /\ word_opt (hd_error t) = false.

(** A matcher of that family, which writes the name, a colon, a space and
    a token. *)
Definition family (mu : matcher) (names : list text) (K tok : text) : Prop :=
  forall prev s M new,
    mu prev s = Some (M, new) <->
    exists name ws t,
      site names K prev s name ws t /\
      M = name ++ txt ":" ++ ws ++ K /\
      new = name ++ txt ": " ++ tok.

(** Names are words that start with a letter; keys are numbers. *)
Definition name_ok (n : text) : bool :=
  match n with
  | [] => false
  | c :: _ => negb (is_digit c) && forallb is_word n
  end.

Definition key_ok (K : text) : bool :=
  match K with
  | [] => false
  | _ :: _ => forallb is_digit K
  end.

(** A token starts with a letter. *)
Definition token_ok (tok : text) : bool :=
  match tok with
  | [] => false
  | c :: _ => negb (is_digit c) && negb (is_space c)
  end.

(** No name followed by a colon starts inside [R], even when a colon
    follows [R]. *)
Definition head_free (names : list text) (R : text) : bool :=
  for_suffixes
    (fun sfx => forallb (fun n => negb (starts_with (n ++ txt ":") (sfx ++ txt ":")))
                        names)
    (tl R).

(** Where a run of characters of a class stops. *)
Definition stops (p : ascii -> bool) (b : text) : Prop :=
  match b with
  | [] => True
  | c :: _ => p c = false
  end.

(** A rule of the family: its names, its key and its token. *)
Record rule : Type := Rule {
  r_names : list text;
  r_key : text;
  r_token : text
}.

Definition mem (n : text) (l : list text) : bool := existsb (text_eqb n) l.

Definition applies (d : rule) (n K0 : text) : bool :=
  mem n (r_names d) && text_eqb (r_key d) K0.

(** The token of the first rule that applies. *)
Fixpoint fires (ds : list rule) (n K0 : text) : option text :=
  match ds with
  | [] => None
  | d :: ds' => if applies d n K0 then Some (r_token d) else fires ds' n K0
  end.

Definition rule_ok (ALL : list text) (d : rule) : bool :=
  forallb (fun n => mem n ALL) (r_names d)
  && key_ok (r_key d) && token_ok (r_token d)
  && forallb (fun n => head_free ALL (n ++ txt ": " ++ r_token d)) (r_names d).

(** Scans in sequence, each over the whole text. *)
Fixpoint scans (mus : list matcher) (s : text) : text :=
  match mus with
  | [] => s
  | mu :: mus' => scans mus' (scan mu None s)
  end.

Definition families (mus : list matcher) (ds : list rule) : Prop :=
  Forall2 (fun mu d => family mu (r_names d) (r_key d) (r_token d)) mus ds.

(** The two shapes of the patterns of [update-styles-v2.py]: the names in
    a group, or one name spelled out with its colon. *)
Definition grouped_rule (names : list text) (K : text) : regex :=
  Seq WordB
      (Seq (Group 1 (AltL (map Lit names)))
           (Seq (Char ":") (Seq (Star space) (Seq (Lit K) WordB)))).

Definition plain_rule (head K : text) : regex :=
  Seq WordB (Seq (Lit head) (Seq (Star space) (Seq (Lit K) WordB))).

(** The rules of [process_stylesheet] in the order in which it applies
    them, and the matchers of its substitutions. *)
Definition V2_NAMES : list text :=
  UpdateStylesV2.SPACING_NAMES ++ [txt "fontSize"; txt "borderRadius"].

Definition spacing_rules (items : list (nat * text)) : list rule :=
  map (fun kv => Rule UpdateStylesV2.SPACING_NAMES (str_of_nat (fst kv)) (snd kv))
      items.

Definition font_rules (items : list (nat * text)) : list rule :=
  map (fun kv => Rule [txt "fontSize"] (str_of_nat (fst kv)) (snd kv)) items.

Definition RADIUS12_TOKEN : text := txt "deviceInfo.isTablet ? 14 : 12".
Definition RADIUS10_TOKEN : text := txt "deviceInfo.isTablet ? 12 : 10".

Definition radius_rule_list : list rule :=
  [ Rule [txt "borderRadius"] (str_of_nat 12) RADIUS12_TOKEN;
    Rule [txt "borderRadius"] (str_of_nat 10) RADIUS10_TOKEN ].

Definition v2_rules : list rule :=
  spacing_rules UpdateStylesV2.SPACING_MAP
  ++ font_rules UpdateStylesV2.FONT_SIZE_MAP
  ++ radius_rule_list.

Definition spacing_matchers (items : list (nat * text)) : list matcher :=
  map (fun kv => rule_of (UpdateStylesV2.SPACING_RE (fst kv))
                         (expand [TGroup 1; TText (txt ": " ++ snd kv)]))
      items.

Definition font_matchers (items : list (nat * text)) : list matcher :=
  map (fun kv => rule_of (UpdateStylesV2.FONT_RE (fst kv))
                         (expand [TText (txt "fontSize: " ++ snd kv)]))
      items.

Definition radius_matchers : list matcher :=
  [ rule_of (UpdateStylesV2.RADIUS_RE 12)
            (expand [TText UpdateStylesV2.RADIUS12_NEW]);
    rule_of (UpdateStylesV2.RADIUS_RE 10)
            (expand [TText UpdateStylesV2.RADIUS10_NEW]) ].

Definition v2_matchers : list matcher :=
  spacing_matchers UpdateStylesV2.SPACING_MAP
  ++ font_matchers UpdateStylesV2.FONT_SIZE_MAP
  ++ radius_matchers.

Definition keys_are_numbers (items : list (nat * text)) : bool :=
  forallb (fun kv => key_ok (str_of_nat (fst kv))) items.

(** No literal of the table ends with the start of a declaration of
    [name]. *)
Definition tails_avoid (L : table) (name : text) : bool :=
  forallb (fun e =>
             for_suffixes (fun b => negb (compatible (name ++ txt ":") b))
                          (tl (fst e)))
          L.

(** The literals of the table that could start a declaration of [name]
    are declarations of the names [names] with a key of [d]. *)
Definition only_declarations (L : table) (names : list text)
  (d : list (text * text)) (name : text) : bool :=
  forallb (fun e =>
             existsb (fun e' => text_eqb (fst e) (fst e') && text_eqb (snd e) (snd e'))
                     (declarations names d)
             || negb (compatible (name ++ txt ":") (fst e)))
          L.

(** The token that a dictionary of [update-styles-v2.py] gives for the
    text of a number, if the number is one of its keys. *)
Fixpoint token_of (items : list (nat * text)) (K0 : text) : option text :=
  match items with
  | [] => None
  | (px, tok) :: items' =>
      if text_eqb (str_of_nat px) K0 then Some tok else token_of items' K0
  end.

(** The value that [update-styles.py] writes for a number. *)
Definition value_of (d : list (text * text)) (K0 : text) : text :=
  match lookup K0 d with
  | Some tok => tok
  | None => K0
  end.

(** The files of a list are at rest in a file system when [process_file]
    of [update-styles.py] would change none of them. *)
Definition v1_at_rest (fs : filesystem) (files : list path) : Prop :=
  forall p, In p files -> changed (UpdateStyles.process_file fs p) = false.

(** The files of a list that a loop does not skip. *)
Definition taken (skip : path -> bool) (files : list path) : list path :=
  filter (fun p => negb (skip p)) files.

(** A file with one icon tag that holds two size patterns, as
    [update-styles-v2.py] reads them. *)
Definition two_sizes : text :=
  txt "StyleSheet.create <Ionicons " ++ size_literal 20 ++ txt " "
  ++ size_literal 20 ++ txt "/>".

(** The text without its final line feed, if it has one: what [$] lets
    [re.match] leave out at the end. *)
Definition chomp (value : text) : text :=
  match rev value with
  | c :: r => if ascii_eqb c "010" then rev r else value
  | [] => value
  end.

(** The template of an icon substitution, for the text [sz] that takes the
    place of the size pattern. *)
Definition icon_template (sz : text) : list titem :=
  [ TText (txt "<Ionicons "); TGroup 1; TText sz; TGroup 2; TText (txt "/>") ].

Definition no_gt (g : text) : bool :=
  forallb (fun x => negb (ascii_eqb x ">")) g.

(** A character that takes no part in a declaration: not a word
    character, not white space, not a colon. *)
Definition barrier (c : ascii) : bool :=
  negb (is_word c) && negb (is_space c) && negb (ascii_eqb c ":").

(** The lines [Updated ...] of a log. *)
Definition is_updated (o : out) : bool :=
  match o with
  | Updated _ => true
  | _ => false
  end.

Definition updates (log : list out) : nat := length (filter is_updated log).

(* ================================================================= *)
(** ** Icon tags and family rules *)

(** The greedy loop of a star over a character class, written out: the
    longest run is tried first, then each shorter one. *)
Fixpoint greedy (p : ascii -> bool) (k : mstate -> option mstate)
  (b : option ascii) (s : text) (c : list (nat * text)) : option mstate :=
  match s with
  | ch :: s' =>
      if p ch
      then match greedy p k (Some ch) s' c with
           | Some r => Some r
           | None => k (MState b s c)
           end
      else k (MState b s c)
  | [] => k (MState b [] c)
  end.

(** The icon pattern after the white space, and after group 1. *)
Definition ICON_TAIL2 (n : nat) : regex :=
  Seq (Lit (txt "size"))
      (Seq (Rep n (Char "=")) (Seq (Group 2 (Star UpdateStylesV2.not_gt)) (Lit (txt "/>")))).

Definition ICON_TAIL1 (n : nat) : regex :=
  Seq (Group 1 (Star UpdateStylesV2.not_gt)) (ICON_TAIL2 n).

Definition no_lt (g : text) : bool :=
  forallb (fun x => negb (ascii_eqb x "<")) g.

(** The matcher of one substitution of [update_icon_sizes]. *)
Definition icon_matcher (n : nat) (sz : text) : matcher :=
  rule_of (UpdateStylesV2.ICON_RE n) (expand (icon_template sz)).

(** No name followed by a colon can start inside [Z], whatever follows. *)
Definition inert_for (names : list text) (Z : text) : bool :=
  for_suffixes
    (fun x2 => forallb (fun n => negb (compatible x2 (n ++ txt ":"))) names) Z.

(** The character is the first one of no name. *)
Definition nohead (names : list text) (c : ascii) : bool :=
  forallb (fun n => match n with
                    | h :: _ => negb (ascii_eqb h c)
                    | [] => true
                    end) names.

(** No size pattern [L] starts inside what a rule writes: [L] is not
    there, and where the end of the text starts [L], a word character is
    to follow. *)
Definition creates_none (L : text) (names : list text) (tok : text) : bool :=
  forallb (fun n =>
             for_suffixes
               (fun x2 => negb (starts_with L x2)
                          && (negb (starts_with x2 L)
                              || word_opt (hd_error (skipn (length x2) L))))
               (n ++ txt ": " ++ tok)) names.

(** What the icon substitutions write after [size=]. *)
Definition ICON24_TAIL : text := txt "{deviceInfo.isTablet ? scale(26) : scale(24)}".
Definition ICON20_TAIL : text := txt "{deviceInfo.isTablet ? scale(22) : scale(20)}".

(** The token of a rule holds no angle bracket and ends with a word
    character, and what the rule writes starts no size pattern [L]. *)
Definition icon_safe (L : text) (d : rule) : bool :=
  no_gt (r_token d) && no_lt (r_token d)
  && word_opt (last_of None (r_token d))
  && creates_none L (r_names d) (r_token d).

(* ================================================================= *)
(** ** The matcher and the denotation agree *)

Section Matcher.

Lemma step_rest st ok st' :
  step st ok = Some st' ->
  exists c, rest st = c :: rest st' /\ ok c = true /\
            before st' = Some c /\ caps st' = caps st.
Proof.
  unfold step. destruct (rest st) as [|c s'] eqn:E; [discriminate|].
  destruct (ok c) eqn:Hc; [|discriminate].
  intros H; inversion H; subst; simpl. exists c. auto.
Qed.

(** Continuations that agree give the same result. *)
Lemma star_loop_ext body k1 k2 :
  (forall st ka kb, (forall x, ka x = kb x) -> body st ka = body st kb) ->
  (forall x, k1 x = k2 x) ->
  forall fuel st, star_loop body k1 fuel st = star_loop body k2 fuel st.
Proof.
  intros Hb Hk. induction fuel as [|f IH]; intros st; simpl; [apply Hk|].
  rewrite (Hb st _ (fun st1 =>
             if length (rest st1) <? length (rest st)
             then star_loop body k2 f st1 else None)).
  - rewrite Hk. reflexivity.
  - intros x. destruct (_ <? _); auto.
Qed.

Lemma run_ext r :
  forall st k1 k2, (forall x, k1 x = k2 x) -> run r st k1 = run r st k2.
Proof.
  induction r; intros st k1 k2 Hk; simpl.
  - apply Hk.
  - destruct (step st (ascii_eqb c)); auto.
  - destruct (step st p); auto.
  - apply IHr1. intros x. apply IHr2. exact Hk.
  - rewrite (IHr1 st k1 k2 Hk), (IHr2 st k1 k2 Hk). reflexivity.
  - apply star_loop_ext; auto.
  - apply IHr. intros x. apply Hk.
  - destruct (at_boundary st); auto.
  - destruct (before st); auto.
  - destruct (at_end st); auto.
Qed.

(** Every result of the matcher is a possibility of the denotation. *)
Lemma star_loop_sound r k :
  (forall st k0 res, run r st k0 = Some res ->
     exists st', den r st st' /\ k0 st' = Some res) ->
  forall fuel st res,
    star_loop (run r) k fuel st = Some res ->
    exists st', den (Star r) st st' /\ k st' = Some res.
Proof.
  intros Hr. induction fuel as [|f IH]; intros st res; simpl.
  - intros H. exists st. split; [constructor | exact H].
  - destruct (run r st _) as [x|] eqn:E.
    + intros H; inversion H; subst x; clear H.
      apply Hr in E. destruct E as (st1 & D1 & E).
      destruct (length (rest st1) <? length (rest st)) eqn:Hlt; [|discriminate].
      apply IH in E. destruct E as (st2 & D2 & E).
      exists st2. split; [|exact E].
      eapply DStarRound; eauto. apply Nat.ltb_lt. exact Hlt.
    + intros H. exists st. split; [constructor | exact H].
Qed.

Lemma run_sound r :
  forall st k res, run r st k = Some res ->
    exists st', den r st st' /\ k st' = Some res.
Proof.
  induction r; intros st k res; simpl.
  - intros H. exists st. split; [constructor|exact H].
  - destruct (step st (ascii_eqb c)) as [st'|] eqn:E; [|discriminate].
    intros H. exists st'. split; [constructor; exact E|exact H].
  - destruct (step st p) as [st'|] eqn:E; [|discriminate].
    intros H. exists st'. split; [constructor; exact E|exact H].
  - intros H. apply IHr1 in H. destruct H as (st1 & D1 & H).
    apply IHr2 in H. destruct H as (st2 & D2 & H).
    exists st2. split; [econstructor; eauto|exact H].
  - destruct (run r1 st k) as [x|] eqn:E.
    + intros H; inversion H; subst x. apply IHr1 in E.
      destruct E as (st' & D & E). exists st'. split; [apply DAltL; exact D|exact E].
    + intros H. apply IHr2 in H.
      destruct H as (st' & D & H). exists st'. split; [apply DAltR; exact D|exact H].
  - apply star_loop_sound. exact IHr.
  - intros H. apply IHr in H. destruct H as (st1 & D & H).
    exists (capture i st st1). split; [constructor; exact D|exact H].
  - destruct (at_boundary st) eqn:E; [|discriminate].
    intros H. exists st. split; [constructor; exact E|exact H].
  - destruct (before st) eqn:E; [discriminate|].
    intros H. exists st. split; [constructor; exact E|exact H].
  - destruct (at_end st) eqn:E; [|discriminate].
    intros H. exists st. split; [constructor; exact E|exact H].
Qed.

Lemma run_dead r st : run r st (fun _ => None) = None.
Proof.
  destruct (run r st (fun _ => None)) eqn:E; [|reflexivity].
  apply run_sound in E. destruct E as (? & _ & E). discriminate.
Qed.

(** The fuel of a star is enough: more fuel changes nothing. *)
Lemma star_fuel_any r k :
  forall f1 f2 st, length (rest st) <= f1 -> length (rest st) <= f2 ->
    star_loop (run r) k f1 st = star_loop (run r) k f2 st.
Proof.
  assert (Z : forall f st, length (rest st) = 0 ->
            star_loop (run r) k f st = k st).
  { intros [|f] st E; simpl; [reflexivity|].
    rewrite (run_ext r st _ (fun _ => None)).
    - rewrite run_dead. reflexivity.
    - intros x. rewrite E. destruct (length (rest x) <? 0) eqn:H; auto.
      apply Nat.ltb_lt in H. lia. }
  induction f1 as [|f1 IH]; intros f2 st H1 H2.
  - rewrite !Z by lia. reflexivity.
  - destruct f2 as [|f2]; [rewrite !Z by lia; reflexivity|].
    simpl.
    rewrite (run_ext r st _ (fun st1 =>
               if length (rest st1) <? length (rest st)
               then star_loop (run r) k f2 st1 else None)); [reflexivity|].
    intros x. destruct (length (rest x) <? length (rest st)) eqn:H; auto.
    apply Nat.ltb_lt in H. apply IH; lia.
Qed.

(** Whatever the denotation allows, the matcher does not miss: it succeeds
    as soon as one possibility satisfies the continuation. *)
Lemma run_complete r st st' :
  den r st st' ->
  forall k, k st' <> None -> run r st k <> None.
Proof.
  induction 1; intros k Hk; simpl.
  - exact Hk.
  - rewrite H. exact Hk.
  - rewrite H. exact Hk.
  - apply IHden1. apply IHden2. exact Hk.
  - destruct (run r1 st k) eqn:E; [discriminate|].
    exfalso. exact (IHden k Hk E).
  - destruct (run r1 st k) eqn:E; [discriminate|]. apply IHden. exact Hk.
  - destruct (length (rest st)); simpl; [exact Hk|].
    destruct (run r st _); [discriminate|exact Hk].
  - destruct (length (rest st)) as [|f] eqn:El; [lia|]. simpl.
    match goal with
    | |- match run r st ?k' with _ => _ end <> None =>
        assert (G : run r st k' <> None)
    end.
    { apply IHden1. rewrite El.
      destruct (length (rest st1) <? S f) eqn:Hlt.
      - rewrite (star_fuel_any r k f (length (rest st1)) st1) by lia.
        apply (IHden2 k Hk).
      - apply Nat.ltb_ge in Hlt. lia. }
    destruct (run r st _); [discriminate|contradiction].
  - apply IHden. exact Hk.
  - rewrite H. exact Hk.
  - rewrite H. exact Hk.
  - rewrite H. exact Hk.
Qed.

(** What an attempt consumes is a prefix of what was left, the captures
    only grow, and the character before the cursor is the last one read. *)
Lemma den_rest r st st' :
  den r st st' ->
  exists w, rest st = w ++ rest st' /\ before st' = last_of (before st) w.
Proof.
  induction 1.
  - exists []. auto.
  - apply step_rest in H. destruct H as (x & E & _ & B & _).
    exists [x]. rewrite E, B. auto.
  - apply step_rest in H. destruct H as (x & E & _ & B & _).
    exists [x]. rewrite E, B. auto.
  - destruct IHden1 as (w1 & E1 & B1), IHden2 as (w2 & E2 & B2).
    exists (w1 ++ w2). rewrite E1, E2, app_assoc. split; [reflexivity|].
    rewrite B2, B1. unfold last_of. rewrite rev_app_distr.
    destruct (rev w2); reflexivity.
  - exact IHden.
  - exact IHden.
  - exists []. auto.
  - destruct IHden1 as (w1 & E1 & B1), IHden2 as (w2 & E2 & B2).
    exists (w1 ++ w2). rewrite E1, E2, app_assoc. split; [reflexivity|].
    rewrite B2, B1. unfold last_of. rewrite rev_app_distr.
    destruct (rev w2); reflexivity.
  - destruct IHden as (w & E & B). exists w. auto.
  - exists []. auto.
  - exists []. auto.
  - exists []. auto.
Qed.

Lemma consumed_app w s prev prev' c c' :
  consumed (MState prev (w ++ s) c) (MState prev' s c') = w.
Proof.
  unfold consumed; simpl. rewrite length_app.
  replace (length w + length s - length s) with (length w) by lia.
  rewrite firstn_app, Nat.sub_diag, firstn_all. simpl. apply app_nil_r.
Qed.

End Matcher.

(* ================================================================= *)
(** ** Substitution, piece by piece *)

Section Pieces.

Lemma match_at_den r prev s m :
  match_at r prev s = Some m ->
  exists st', den r (MState prev s []) st' /\
              s = whole m ++ rest st' /\
              groups m = caps st' /\ arity m = ngroups r.
Proof.
  unfold match_at. destruct (run r _ _) as [st'|] eqn:E; [|discriminate].
  intros H; inversion H; subst; clear H. simpl.
  apply run_sound in E. destruct E as (st1 & D & E).
  inversion E; subst st1; clear E.
  exists st'. split; [exact D|].
  apply den_rest in D. destruct D as (w & Hw & _). simpl in Hw. subst s.
  split; [|split; reflexivity].
  rewrite length_app.
  replace (length w + length (rest st') - length (rest st')) with (length w) by lia.
  rewrite firstn_app, Nat.sub_diag, firstn_all. simpl. rewrite app_nil_r.
  reflexivity.
Qed.

Lemma match_at_none r prev s :
  match_at r prev s = None ->
  forall st', ~ den r (MState prev s []) st'.
Proof.
  unfold match_at. intros H st' D.
  apply (run_complete _ _ _ D (fun st => Some st)); [discriminate|].
  destruct (run r _ _); [discriminate|reflexivity].
Qed.

Lemma match_at_prefix r prev s m :
  match_at r prev s = Some m -> whole m = firstn (length (whole m)) s.
Proof.
  intros H. apply match_at_den in H. destruct H as (st' & _ & E & _).
  subst s. rewrite firstn_app, Nat.sub_diag, firstn_all. simpl.
  symmetry. apply app_nil_r.
Qed.

(** The pieces cover the string: the copied characters and the matched
    texts, in order, are the string itself. *)
Lemma pieces_cover r :
  forall s skip prev,
    concat (map piece_src (pieces r skip prev s)) = skipn skip s.
Proof.
  induction s as [|c s IH]; intros skip prev; simpl.
  - destruct skip; simpl; [|reflexivity].
    destruct (match_at r prev []) as [m|] eqn:E; simpl; [|reflexivity].
    apply match_at_prefix in E. rewrite firstn_nil in E. rewrite E. reflexivity.
  - destruct skip as [|j]; [|apply IH].
    destruct (match_at r prev (c :: s)) as [m|] eqn:E.
    + pose proof (match_at_prefix _ _ _ _ E) as P.
      destruct (length (whole m)) as [|j] eqn:L; simpl.
      * rewrite IH. simpl. apply length_zero_iff_nil in L. rewrite L. reflexivity.
      * rewrite IH, P. simpl. rewrite firstn_skipn. reflexivity.
    + simpl. rewrite IH. reflexivity.
Qed.

Lemma pieces_source r s :
  concat (map piece_src (pieces r 0 None s)) = s.
Proof. apply pieces_cover. Qed.

Lemma mapM_ok {A B} (f : A -> result B) (g : A -> B) l :
  (forall a, In a l -> f a = Ok (g a)) -> mapM f l = Ok (map g l).
Proof.
  induction l as [|a l IH]; intros H; simpl; [reflexivity|].
  rewrite (H a) by (left; reflexivity). simpl.
  rewrite IH by (intros; apply H; right; assumption). reflexivity.
Qed.


(** A substitution whose replacements all repeat the matched text changes
    nothing. *)
Lemma re_sub_same r repl s :
  (forall m, In (Hit m) (pieces r 0 None s) -> repl m = Ok (whole m)) ->
  re_sub r repl s = Ok s.
Proof.
  intros H. unfold re_sub.
  rewrite (mapM_ok _ piece_src).
  - simpl. rewrite pieces_source. reflexivity.
  - intros [c|m] Hin; simpl; [reflexivity|]. apply H. exact Hin.
Qed.

Lemma re_search_false r s :
  re_search r s = false ->
  forall m, ~ In (Hit m) (pieces r 0 None s).
Proof.
  unfold re_search. intros H m Hin.
  assert (E : existsb (fun p => match p with Hit _ => true | Keep _ => false end)
                      (pieces r 0 None s) = true).
  { apply existsb_exists. exists (Hit m). auto. }
  congruence.
Qed.

(** No match anywhere: the substitution is the identity. *)
Lemma re_sub_no_hit r repl s :
  re_search r s = false -> re_sub r repl s = Ok s.
Proof.
  intros H. apply re_sub_same. intros m Hin.
  exfalso. exact (re_search_false _ _ H m Hin).
Qed.

End Pieces.

(* ================================================================= *)
(** ** Shapes of matches *)

Section Shapes.

Lemma ascii_eqb_eq a b : ascii_eqb a b = true <-> a = b.
Proof. apply Ascii.eqb_eq. Qed.

Lemma ascii_eqb_refl a : ascii_eqb a a = true.
Proof. apply Ascii.eqb_refl. Qed.

Lemma text_eqb_eq a : forall b, text_eqb a b = true <-> a = b.
Proof.
  induction a as [|x a IH]; intros [|y b]; simpl; split; intros H;
    try reflexivity; try discriminate.
  - apply andb_prop in H. destruct H as [H1 H2].
    apply ascii_eqb_eq in H1. apply IH in H2. congruence.
  - inversion H; subst. rewrite ascii_eqb_refl. simpl. apply IH. reflexivity.
Qed.

Lemma text_eqb_refl a : text_eqb a a = true.
Proof. apply text_eqb_eq. reflexivity. Qed.

Lemma text_eqb_neq a b : text_eqb a b = false <-> a <> b.
Proof.
  split; intros H.
  - intros E. apply text_eqb_eq in E. congruence.
  - destruct (text_eqb a b) eqn:E; [|reflexivity].
    apply text_eqb_eq in E. contradiction.
Qed.

Lemma starts_with_app p : forall s, starts_with p s = true <-> exists t, s = p ++ t.
Proof.
  induction p as [|x p IH]; intros s; simpl.
  - split; [intros _; exists s; reflexivity|reflexivity].
  - destruct s as [|y s]; simpl.
    + split; [discriminate|]. intros (t & H). discriminate.
    + split.
      * intros H. apply andb_prop in H. destruct H as [H1 H2].
        apply ascii_eqb_eq in H1. apply IH in H2. destruct H2 as (t & ->).
        exists t. subst. reflexivity.
      * intros (t & H). inversion H; subst. rewrite ascii_eqb_refl. simpl.
        apply IH. exists t. reflexivity.
Qed.

(** A pattern without groups leaves the captures alone. *)
Lemma den_groupless r st st' :
  den r st st' -> groupless r = true -> caps st' = caps st.
Proof.
  induction 1; simpl; intros G; try reflexivity; try discriminate.
  - apply step_rest in H. destruct H as (_ & _ & _ & _ & E). exact E.
  - apply step_rest in H. destruct H as (_ & _ & _ & _ & E). exact E.
  - apply andb_prop in G. destruct G as [G1 G2].
    rewrite IHden2, IHden1; auto.
  - apply andb_prop in G. destruct G as [G1 G2]. auto.
  - apply andb_prop in G. destruct G as [G1 G2]. auto.
  - rewrite IHden2, IHden1; auto.
Qed.

Lemma groupless_Lit w : groupless (Lit w) = true.
Proof. induction w; simpl; auto. Qed.

Lemma groupless_Rep n r : groupless r = true -> groupless (Rep n r) = true.
Proof. intros H. induction n; simpl; auto. rewrite H. auto. Qed.

(** A literal run consumes exactly its characters. *)
Lemma den_Lit_rest w : forall st st',
  den (Lit w) st st' -> rest st = w ++ rest st'.
Proof.
  induction w as [|c w IH]; intros st st' D; simpl in *.
  - inversion D; subst. reflexivity.
  - inversion D; subst.
    match goal with
    | D1 : den (Char c) _ _, D2 : den (Lit w) _ _ |- _ =>
        inversion D1; subst; apply IH in D2
    end.
    match goal with
    | Hs : step _ _ = Some _ |- _ =>
        apply step_rest in Hs; destruct Hs as (x & E & Hx & _)
    end.
    apply ascii_eqb_eq in Hx. subst x. rewrite E. f_equal. assumption.
Qed.

Lemma den_Lit w st st' :
  den (Lit w) st st' ->
  rest st = w ++ rest st' /\ caps st' = caps st /\
  before st' = last_of (before st) w.
Proof.
  intros D.
  pose proof (den_groupless _ _ _ D (groupless_Lit w)) as C.
  pose proof (den_Lit_rest _ _ _ D) as R.
  apply den_rest in D. destruct D as (w' & E & B).
  rewrite E in R. apply app_inv_tail in R. subst w'. auto.
Qed.

Lemma Lit_den w : forall st s',
  rest st = w ++ s' ->
  den (Lit w) st (MState (last_of (before st) w) s' (caps st)).
Proof.
  induction w as [|c w IH]; intros [b s cs] s' E; simpl in *.
  - subst. constructor.
  - subst s. eapply DSeq.
    + constructor. unfold step. simpl. rewrite ascii_eqb_refl. reflexivity.
    + replace (last_of b (c :: w)) with (last_of (Some c) w).
      * apply (IH (MState (Some c) (w ++ s') cs)). reflexivity.
      * unfold last_of. simpl. destruct (rev w) eqn:R; simpl; reflexivity.
Qed.

End Shapes.

(* ================================================================= *)
(** ** The change gate *)

Section Gate.

Import UpdateStyles.

Lemma v1_gate_no_marker rw fs p c :
  read_text fs p = Ok c -> contains STYLE_MARKER c = false ->
  process_file_with rw fs p = (false, fs, []).
Proof.
  intros R M. unfold process_file_with, process_body. rewrite R. simpl.
  rewrite M. reflexivity.
Qed.

Lemma v1_gate_converted rw fs p c :
  read_text fs p = Ok c -> contains STYLE_MARKER c = true ->
  5 < count TABLET_MARKER c ->
  process_file_with rw fs p = (false, fs, [Skipping p]).
Proof.
  intros R M T. unfold process_file_with, process_body. rewrite R. simpl.
  rewrite M. simpl. unfold THRESHOLD.
  apply Nat.ltb_lt in T. rewrite T. reflexivity.
Qed.

Lemma v1_gate_open rw fs p c :
  read_text fs p = Ok c -> contains STYLE_MARKER c = true ->
  count TABLET_MARKER c <= 5 ->
  process_file_with rw fs p = outcome fs p c (rw c).
Proof.
  intros R M T. unfold process_file_with, process_body. rewrite R. simpl.
  rewrite M. simpl. unfold THRESHOLD.
  apply Nat.ltb_ge in T. rewrite T.
  unfold outcome. destruct (rw c) as [c'|e]; simpl; [|reflexivity].
  destruct (text_eqb c' c); simpl; [reflexivity|].
  destruct (write_text fs p c'); reflexivity.
Qed.

End Gate.

Section GateV2.

Import UpdateStylesV2.

Lemma v2_gate_no_marker rs rz fs p c :
  read_text fs p = Ok c -> contains STYLE_MARKER c = false ->
  process_file_with rs rz fs p = (false, fs, []).
Proof.
  intros R M. unfold process_file_with, process_body. rewrite R. simpl.
  rewrite M. reflexivity.
Qed.

Lemma v2_gate_converted rs rz fs p c :
  read_text fs p = Ok c -> contains STYLE_MARKER c = true ->
  10 < count TABLET_MARKER c ->
  process_file_with rs rz fs p = (false, fs, []).
Proof.
  intros R M T. unfold process_file_with, process_body. rewrite R. simpl.
  rewrite M. simpl. unfold THRESHOLD.
  apply Nat.ltb_lt in T. rewrite T. reflexivity.
Qed.

Lemma v2_gate_open rs rz fs p c :
  read_text fs p = Ok c -> contains STYLE_MARKER c = true ->
  count TABLET_MARKER c <= 10 ->
  process_file_with rs rz fs p =
  outcome_v2 fs p c (snd (rs c)) (rz (fst (rs c))).
Proof.
  intros R M T. unfold process_file_with, process_body. rewrite R. simpl.
  rewrite M. simpl. unfold THRESHOLD.
  apply Nat.ltb_ge in T. rewrite T.
  destruct (rs c) as [c1 pr]. simpl.
  unfold outcome_v2. destruct (rz c1) as [c'|e]; simpl; [|reflexivity].
  destruct (text_eqb c' c); simpl; [reflexivity|].
  destruct (write_text fs p c'); reflexivity.
Qed.

End GateV2.


(** C6: [process_file] leaves the rewrite logic alone in exactly two cases:
    the content read lacks the marker [StyleSheet.create], or it holds the
    marker [deviceInfo.isTablet] more often than the threshold (5 in
    [update-styles.py], 10 in [update-styles-v2.py]).  In these cases, and
    only in these, the outcome does not depend on the rewriter; the outcome
    is then [False] and the file system is as before. *)
Theorem gate_skips_in_exactly_two_cases (fs : filesystem) (p : path) (c : text)
  (Hread : read_text fs p = Ok c) :
  ((forall rw1 rw2,
       UpdateStyles.process_file_with rw1 fs p =
       UpdateStyles.process_file_with rw2 fs p)
   <-> gate_closed 5 c)
  /\ (gate_closed 5 c ->
      changed (UpdateStyles.process_file fs p) = false /\
      fs_after (UpdateStyles.process_file fs p) = fs)
  /\ ((forall rs1 rz1 rs2 rz2,
         UpdateStylesV2.process_file_with rs1 rz1 fs p =
         UpdateStylesV2.process_file_with rs2 rz2 fs p)
      <-> gate_closed 10 c)
  /\ (gate_closed 10 c ->
      changed (UpdateStylesV2.process_file fs p) = false /\
      fs_after (UpdateStylesV2.process_file fs p) = fs).
Proof.
  assert (V1 : forall rw, gate_closed 5 c ->
             changed (UpdateStyles.process_file_with rw fs p) = false /\
             fs_after (UpdateStyles.process_file_with rw fs p) = fs /\
             UpdateStyles.process_file_with rw fs p =
             UpdateStyles.process_file_with (fun x => Ok x) fs p).
  { intros rw [M|T].
    - rewrite !(v1_gate_no_marker _ fs p c Hread M). auto.
    - destruct (contains STYLE_MARKER c) eqn:M.
      + rewrite !(v1_gate_converted _ fs p c Hread M T). auto.
      + rewrite !(v1_gate_no_marker _ fs p c Hread M). auto. }
  assert (V2 : forall rs rz, gate_closed 10 c ->
             changed (UpdateStylesV2.process_file_with rs rz fs p) = false /\
             fs_after (UpdateStylesV2.process_file_with rs rz fs p) = fs /\
             UpdateStylesV2.process_file_with rs rz fs p =
             UpdateStylesV2.process_file_with (fun x => (x, [])) (fun x => Ok x) fs p).
  { intros rs rz [M|T].
    - rewrite !(v2_gate_no_marker _ _ fs p c Hread M). auto.
    - destruct (contains STYLE_MARKER c) eqn:M.
      + rewrite !(v2_gate_converted _ _ fs p c Hread M T). auto.
      + rewrite !(v2_gate_no_marker _ _ fs p c Hread M). auto. }
  split; [|split; [|split]].
  - split.
    + intros I.
      destruct (contains STYLE_MARKER c) eqn:M; [|left; exact M].
      destruct (le_lt_dec (count TABLET_MARKER c) 5) as [T|T]; [|right; exact T].
      exfalso.
      specialize (I (fun _ => Raise IndexError) (fun x => Ok x)).
      rewrite !(v1_gate_open _ fs p c Hread M T) in I.
      simpl in I. rewrite text_eqb_refl in I. discriminate.
    + intros G rw1 rw2.
      destruct (V1 rw1 G) as (_ & _ & ->). destruct (V1 rw2 G) as (_ & _ & ->).
      reflexivity.
  - intros G. destruct (V1 UpdateStyles.add_tablet_specific_styles G) as (A & B & _).
    split; assumption.
  - split.
    + intros I.
      destruct (contains STYLE_MARKER c) eqn:M; [|left; exact M].
      destruct (le_lt_dec (count TABLET_MARKER c) 10) as [T|T]; [|right; exact T].
      exfalso.
      specialize (I (fun x => (x, [])) (fun _ => Raise IndexError)
                    (fun x => (x, [])) (fun x => Ok x)).
      rewrite !(v2_gate_open _ _ fs p c Hread M T) in I.
      simpl in I. rewrite text_eqb_refl in I. discriminate.
    + intros G rs1 rz1 rs2 rz2.
      destruct (V2 rs1 rz1 G) as (_ & _ & ->). destruct (V2 rs2 rz2 G) as (_ & _ & ->).
      reflexivity.
  - intros G.
    destruct (V2 UpdateStylesV2.update_styles_in_stylesheet
                 UpdateStylesV2.update_icon_sizes G) as (A & B & _).
    split; assumption.
Qed.

(** A file without the marker: both scripts skip it. *)
Lemma gate_skips_witness :
  gate_closed 5 (txt "export default 1;") /\
  changed (UpdateStyles.process_file (fs_all (txt "export default 1;") true)
             (txt "a.tsx")) = false /\
  changed (UpdateStylesV2.process_file (fs_all (txt "export default 1;") true)
             (txt "a.tsx")) = false.
Proof.
  pose proof (gate_skips_in_exactly_two_cases
                (fs_all (txt "export default 1;") true) (txt "a.tsx")
                (txt "export default 1;") eq_refl) as (_ & A & _ & B).
  assert (G5 : gate_closed 5 (txt "export default 1;")) by (left; reflexivity).
  assert (G10 : gate_closed 10 (txt "export default 1;")) by (left; reflexivity).
  split; [exact G5|]. split; [exact (proj1 (A G5))|exact (proj1 (B G10))].
Defined.

(* ================================================================= *)
(** ** Failures *)

Section Failures.

Lemma v1_read_fails rw fs p e :
  read_text fs p = Raise e ->
  UpdateStyles.process_file_with rw fs p = (false, fs, [ErrorProcessing p e]).
Proof.
  intros R. unfold UpdateStyles.process_file_with, UpdateStyles.process_body.
  rewrite R. reflexivity.
Qed.







End Failures.

(* ================================================================= *)
(** ** Inversion of the patterns of the two scripts *)

Section Inversion.

Lemma consumed_eq st st' w :
  rest st = w ++ rest st' -> consumed st st' = w.
Proof.
  intros E. unfold consumed. rewrite E, length_app.
  replace (length w + length (rest st') - length (rest st')) with (length w) by lia.
  rewrite firstn_app, Nat.sub_diag, firstn_all. simpl. apply app_nil_r.
Qed.

Lemma den_Seq r1 r2 st st' :
  den (Seq r1 r2) st st' -> exists st1, den r1 st st1 /\ den r2 st1 st'.
Proof. intros D. inversion D; subst. eauto. Qed.

Lemma den_Char c st st' :
  den (Char c) st st' ->
  rest st = c :: rest st' /\ caps st' = caps st /\ before st' = Some c.
Proof.
  intros D. inversion D; subst.
  match goal with H : step _ _ = _ |- _ =>
    apply step_rest in H; destruct H as (x & E & Hx & B & C) end.
  apply ascii_eqb_eq in Hx. subst x. auto.
Qed.

Lemma den_Class p st st' :
  den (Class p) st st' ->
  exists c, p c = true /\ rest st = c :: rest st' /\ caps st' = caps st /\
            before st' = Some c.
Proof.
  intros D. inversion D; subst.
  match goal with H : step _ _ = _ |- _ =>
    apply step_rest in H; destruct H as (x & E & Hx & B & C) end.
  exists x. auto.
Qed.

(** A group records what its body consumed. *)
Lemma den_Group i r st st' :
  den (Group i r) st st' ->
  exists w st1, den r st st1 /\ rest st = w ++ rest st1 /\
                rest st' = rest st1 /\ before st' = before st1 /\
                caps st' = (i, w) :: caps st1.
Proof.
  intros D. inversion D; subst.
  match goal with H : den r _ _ |- _ =>
    pose proof (den_rest _ _ _ H) as (w & E & _); exists w; eexists; split; [exact H|]
  end.
  unfold capture; simpl. rewrite (consumed_eq _ _ _ E). auto.
Qed.

(** A starred class consumes characters of the class. *)
Lemma den_Star_Class p st st' :
  den (Star (Class p)) st st' ->
  exists w, forallb p w = true /\ rest st = w ++ rest st' /\
            caps st' = caps st /\ before st' = last_of (before st) w.
Proof.
  intros D. remember (Star (Class p)) as r eqn:Er.
  induction D; try discriminate; inversion Er; subst.
  - exists []. auto.
  - clear IHD1. specialize (IHD2 eq_refl).
    destruct IHD2 as (w & F & E & C & B).
    apply den_Class in D1. destruct D1 as (c & Hc & E1 & C1 & B1).
    exists (c :: w). simpl. rewrite Hc, F, E1, E, C, C1, B, B1.
    repeat split. unfold last_of. simpl.
    destruct (rev w) eqn:R; simpl; reflexivity.
Qed.

Lemma den_Plus_Class p st st' :
  den (Plus (Class p)) st st' ->
  exists w, w <> [] /\ forallb p w = true /\ rest st = w ++ rest st' /\
            caps st' = caps st /\ before st' = last_of (before st) w.
Proof.
  intros D. apply den_Seq in D. destruct D as (st1 & D1 & D2).
  apply den_Class in D1. destruct D1 as (c & Hc & E1 & C1 & B1).
  apply den_Star_Class in D2. destruct D2 as (w & F & E & C & B).
  exists (c :: w). simpl. rewrite Hc, F, E1, E, C, C1, B, B1.
  repeat split; [discriminate|].
  unfold last_of. simpl. destruct (rev w) eqn:R; simpl; reflexivity.
Qed.

(** An alternation of literal runs consumes one of them. *)
Lemma den_AltL_Lit names : forall st st',
  den (AltL (map Lit names)) st st' ->
  exists name, In name names /\ rest st = name ++ rest st' /\
               caps st' = caps st /\ before st' = last_of (before st) name.
Proof.
  induction names as [|n names IH]; intros st st' D; simpl in D.
  - apply den_Class in D. destruct D as (c & Hc & _). discriminate.
  - destruct names as [|n' names].
    + simpl in D. apply den_Lit in D. exists n. simpl. tauto.
    + change (den (Alt (Lit n) (AltL (map Lit (n' :: names)))) st st') in D.
      inversion D; subst.
      * match goal with H : den (Lit n) _ _ |- _ => apply den_Lit in H end.
        exists n. simpl. tauto.
      * match goal with H : den _ st st' |- _ =>
          apply (IH st st') in H; destruct H as (name & I & E) end.
        exists name. split; [right; exact I|exact E].
Qed.

(** A hit among the pieces comes from an attempt somewhere in the string. *)
Lemma hit_attempt r m : forall s skip prev,
  In (Hit m) (pieces r skip prev s) ->
  exists prev' s', match_at r prev' s' = Some m.
Proof.
  induction s as [|c s IH]; intros skip prev; simpl.
  - destruct skip; [|intros []].
    destruct (match_at r prev []) eqn:E; [|intros []].
    intros [H|[]]. inversion H; subst. eauto.
  - destruct skip as [|j]; [|apply IH].
    destruct (match_at r prev (c :: s)) as [m0|] eqn:E.
    + destruct (length (whole m0)).
      * intros [H|[H|H]]; [inversion H; subst; eauto|discriminate|eapply IH; eauto].
      * intros [H|H]; [inversion H; subst; eauto|eapply IH; eauto].
    + intros [H|H]; [discriminate|eapply IH; eauto].
Qed.

(** The match of a style block is the opening literal, group 1 and the
    closing literal. *)
Lemma block_shape prev s m :
  match_at UpdateStylesV2.BLOCK_RE prev s = Some m ->
  exists g, whole m = UpdateStylesV2.BLOCK_OPEN ++ g ++ UpdateStylesV2.BLOCK_CLOSE /\
            group m 1 = Ok (Some g).
Proof.
  intros H. apply match_at_den in H. destruct H as (st' & D & E & G & A).
  unfold UpdateStylesV2.BLOCK_RE in D.
  apply den_Seq in D. destruct D as (st1 & D1 & D).
  apply den_Seq in D. destruct D as (st2 & D2 & D3).
  apply den_Lit in D1. destruct D1 as (E1 & C1 & _).
  apply den_Group in D2. destruct D2 as (g & st3 & D2 & E2 & E3 & _ & C2).
  apply den_Lit in D3. destruct D3 as (E4 & C3 & _).
  assert (C4 : caps st3 = caps st1).
  { apply (den_groupless _ _ _ D2). reflexivity. }
  exists g. split.
  - cbn [rest] in E1. rewrite E1, E2, <- E3, E4 in E.
    fold UpdateStylesV2.BLOCK_OPEN UpdateStylesV2.BLOCK_CLOSE in E.
    rewrite !app_assoc in E. apply app_inv_tail in E.
    rewrite <- app_assoc in E. symmetry. exact E.
  - unfold group. cbn [Nat.eqb]. rewrite A. cbn [ngroups UpdateStylesV2.BLOCK_RE].
    rewrite G, C3, C2. reflexivity.
Qed.

End Inversion.

(* ================================================================= *)
(** ** Text outside the style blocks *)

Section OutsideBlocks.

Import UpdateStylesV2.

Lemma block_hit s m :
  In (Hit m) (pieces BLOCK_RE 0 None s) ->
  exists g, whole m = BLOCK_OPEN ++ g ++ BLOCK_CLOSE /\ group m 1 = Ok (Some g).
Proof.
  intros H. apply hit_attempt in H. destruct H as (prev & s' & H).
  eapply block_shape. exact H.
Qed.




End OutsideBlocks.

(* ================================================================= *)
(** ** Files without tracked literals; writing only what changed *)

Section Untracked.











End Untracked.

(* ================================================================= *)
(** ** The scenario of the specification *)

Section Scenario.



End Scenario.

(* ================================================================= *)
(** ** The comma of [update-styles.py] *)

Section Comma.

Lemma hit_position r m : forall s skip prev,
  In (Hit m) (pieces r skip prev s) ->
  exists a b, s = a ++ whole m ++ b.
Proof.
  induction s as [|c s IH]; intros skip prev; simpl.
  - destruct skip; [|intros []].
    destruct (match_at r prev []) eqn:E; [|intros []].
    intros [H|[]]. inversion H; subst.
    apply match_at_den in E. destruct E as (st' & _ & E & _).
    exists [], (rest st'). exact E.
  - assert (Tail : forall j p, In (Hit m) (pieces r j p s) ->
                     exists a b, c :: s = a ++ whole m ++ b).
    { intros j p H. apply IH in H. destruct H as (a & b & E).
      exists (c :: a), b. rewrite E. reflexivity. }
    destruct skip as [|j]; [|apply Tail].
    destruct (match_at r prev (c :: s)) as [m0|] eqn:E.
    + assert (Here : Hit m0 = Hit m -> exists a b, c :: s = a ++ whole m ++ b).
      { intros H. inversion H; subst.
        apply match_at_den in E. destruct E as (st' & _ & E & _).
        exists [], (rest st'). exact E. }
      destruct (length (whole m0)).
      * intros [H|[H|H]]; [auto|discriminate|eauto].
      * intros [H|H]; [auto|eauto].
    + intros [H|H]; [discriminate|eauto].
Qed.

Lemma v1_spacing_shape prev s m :
  match_at UpdateStyles.SPACING_RE prev s = Some m ->
  exists name ds,
    In name UpdateStyles.SPACING_NAMES /\ ds <> [] /\ forallb is_digit ds = true /\
    whole m = name ++ txt ": " ++ ds ++ txt "," /\
    group m 1 = Ok (Some name) /\ group m 2 = Ok (Some ds).
Proof.
  intros H. apply match_at_den in H. destruct H as (st' & D & E & G & A).
  unfold UpdateStyles.SPACING_RE in D.
  apply den_Seq in D. destruct D as (st1 & D1 & D).
  apply den_Seq in D. destruct D as (st2 & D2 & D).
  apply den_Seq in D. destruct D as (st3 & D3 & D4).
  apply den_Group in D1. destruct D1 as (name & st0 & D1 & E1 & R1 & _ & C1).
  apply den_AltL_Lit in D1. destruct D1 as (name' & I & E1' & C1' & _).
  rewrite E1' in E1. apply app_inv_tail in E1. subst name'.
  apply den_Lit in D2. destruct D2 as (E2 & C2 & _).
  apply den_Group in D3. destruct D3 as (ds & st5 & D3 & E3 & R3 & _ & C3).
  apply den_Plus_Class in D3. destruct D3 as (ds' & NE & F & E3' & C3' & _).
  rewrite E3' in E3. apply app_inv_tail in E3. subst ds'.
  apply den_Char in D4. destruct D4 as (E4 & C4 & _).
  exists name, ds. repeat split; auto.
  - cbn [rest] in E1'. rewrite E1', <- R1, E2, E3', <- R3, E4 in E.
    change (","%char :: rest st') with (txt "," ++ rest st') in E.
    rewrite !app_assoc in E. apply app_inv_tail in E.
    rewrite <- !app_assoc in E. symmetry. exact E.
  - unfold group. cbn [Nat.eqb]. rewrite A. cbn.
    rewrite G, C4, C3, C3', C2, C1. cbn. reflexivity.
  - unfold group. cbn [Nat.eqb]. rewrite A. cbn.
    rewrite G, C4, C3. cbn. reflexivity.
Qed.

End Comma.

(* ================================================================= *)
(** ** One pass with a table of literals *)

Section Tables.

Lemma starts_with_nil_r l : starts_with l [] = true -> l = [].
Proof. destruct l; [reflexivity|discriminate]. Qed.

Lemma starts_with_self_app l t : starts_with l (l ++ t) = true.
Proof. apply starts_with_app. exists t. reflexivity. Qed.

Lemma starts_with_weaken l x t :
  starts_with l x = true -> starts_with l (x ++ t) = true.
Proof.
  intros H. apply starts_with_app in H. destruct H as (y & ->).
  rewrite <- app_assoc. apply starts_with_self_app.
Qed.

(** A literal that starts [u ++ v] ends inside [u], or covers [u] and
    goes on into [v]. *)
Lemma starts_with_split l : forall u v,
  starts_with l (u ++ v) = true ->
  starts_with l u = true \/
  exists l2, l = u ++ l2 /\ l2 <> [] /\ starts_with l2 v = true.
Proof.
  induction l as [|a l IH]; intros u v H.
  - left. reflexivity.
  - destruct u as [|b u].
    + right. exists (a :: l). repeat split; [discriminate|exact H].
    + simpl in H. apply andb_prop in H. destruct H as [H1 H2].
      apply ascii_eqb_eq in H1. subst b.
      destruct (IH u v H2) as [H|(l2 & E & N & H)].
      * left. simpl. rewrite ascii_eqb_refl. exact H.
      * right. exists l2. subst l. auto.
Qed.

Lemma compatible_of_start l x t :
  starts_with l (x ++ t) = true -> compatible x l = true.
Proof.
  intros H. unfold compatible.
  destruct (starts_with_split _ _ _ H) as [H1|(l2 & -> & _ & _)].
  - rewrite H1. apply orb_true_r.
  - rewrite starts_with_self_app. reflexivity.
Qed.

Lemma compatible_sym a b : compatible a b = compatible b a.
Proof. unfold compatible. apply orb_comm. Qed.

Lemma find_entry_some L : forall s l r,
  find_entry L s = Some (l, r) ->
  In (l, r) L /\ exists t, s = l ++ t.
Proof.
  induction L as [|[l0 r0] L IH]; intros s l r; simpl; [discriminate|].
  destruct (starts_with l0 s) eqn:E.
  - intros H; inversion H; subst. split; [left; reflexivity|].
    apply starts_with_app. exact E.
  - intros H. apply IH in H. destruct H as [I T]. split; [right; exact I|exact T].
Qed.

Lemma find_entry_none L : forall s,
  find_entry L s = None <->
  forall l r, In (l, r) L -> starts_with l s = false.
Proof.
  induction L as [|[l0 r0] L IH]; intros s; simpl.
  - split; [intros _ l r []|reflexivity].
  - destruct (starts_with l0 s) eqn:E.
    + split; [discriminate|]. intros H.
      rewrite (H l0 r0) in E by (left; reflexivity). discriminate.
    + rewrite IH. split.
      * intros H l r [I|I]; [inversion I; subst; exact E|eapply H; exact I].
      * intros H l r I. apply (H l r). right. exact I.
Qed.

Lemma find_entry_app LA LB s :
  find_entry (LA ++ LB) s =
  match find_entry LA s with
  | Some e => Some e
  | None => find_entry LB s
  end.
Proof.
  induction LA as [|[l r] LA IH]; simpl; [reflexivity|].
  destruct (starts_with l s); [reflexivity|exact IH].
Qed.

Lemma no_empty_in L l r : no_empty L = true -> In (l, r) L -> l <> [].
Proof.
  unfold no_empty. intros H I. rewrite forallb_forall in H.
  specialize (H _ I). simpl in H. destruct l; [discriminate|discriminate].
Qed.

Lemma clear_of_in L sfx l r :
  clear_of L sfx = true -> In (l, r) L -> compatible sfx l = false.
Proof.
  unfold clear_of. intros H I. rewrite forallb_forall in H.
  specialize (H _ I). simpl in H. apply negb_true_iff. exact H.
Qed.

Lemma clear_find L x t :
  x <> [] -> clear_of L x = true -> find_entry L (x ++ t) = None.
Proof.
  intros N C. apply find_entry_none. intros l r I.
  destruct (starts_with l (x ++ t)) eqn:E; [|reflexivity].
  apply compatible_of_start in E.
  rewrite (clear_of_in _ _ _ _ C I) in E. discriminate.
Qed.

(** The equations of a pass. *)
Lemma one_pass_skip L x : forall t,
  one_pass_from L (length x) (x ++ t) = one_pass L t.
Proof. induction x as [|c x IH]; intros t; simpl; [reflexivity|apply IH]. Qed.

Lemma one_pass_hit L l r t :
  l <> [] -> find_entry L (l ++ t) = Some (l, r) ->
  one_pass L (l ++ t) = r ++ one_pass L t.
Proof.
  intros N H. destruct l as [|c l]; [contradiction|].
  unfold one_pass at 1. simpl app. cbn [one_pass_from].
  simpl app in H. rewrite H. f_equal.
  replace (length (c :: l) - 1) with (length l) by (simpl; lia).
  apply one_pass_skip.
Qed.

Lemma one_pass_miss L c s :
  find_entry L (c :: s) = None -> one_pass L (c :: s) = c :: one_pass L s.
Proof. intros H. unfold one_pass. cbn [one_pass_from]. rewrite H. reflexivity. Qed.

(** A pass goes through an inert text without a change. *)
Lemma one_pass_inert L x : forall t,
  inert L x = true -> one_pass L (x ++ t) = x ++ one_pass L t.
Proof.
  induction x as [|c x IH]; intros t H; [reflexivity|].
  simpl in H. apply andb_prop in H. destruct H as [H1 H2].
  simpl app. rewrite one_pass_miss.
  - f_equal. apply IH. exact H2.
  - apply (clear_find L (c :: x) t); [discriminate|exact H1].
Qed.

Lemma one_pass_inert_tail L x t :
  x <> [] -> find_entry L (x ++ t) = None -> inert L (tl x) = true ->
  one_pass L (x ++ t) = x ++ one_pass L t.
Proof.
  intros N H I. destruct x as [|c x]; [contradiction|].
  simpl app. rewrite one_pass_miss by exact H. f_equal.
  apply one_pass_inert. exact I.
Qed.

Lemma for_suffixes_app P u : forall v,
  for_suffixes P (u ++ v) = true -> v <> [] -> P v = true.
Proof.
  induction u as [|c u IH]; intros v H N; simpl in H.
  - destruct v; [contradiction|]. simpl in H. apply andb_prop in H. tauto.
  - apply andb_prop in H. destruct H as [_ H]. apply IH; assumption.
Qed.

(** A literal of [LB] that starts the result of a pass with [LA], after
    some copied text [u], started the source already. *)
Lemma no_creation_start LA LB :
  no_empty LA = true -> no_creation LA LB = true ->
  forall n s u lb rb,
    length s <= n -> In (lb, rb) LB -> u <> [] ->
    starts_with lb (u ++ one_pass LA s) = true ->
    starts_with lb (u ++ s) = true.
Proof.
  intros NE NC. induction n as [|n IH]; intros s u lb rb Hn I U H.
  - destruct s; [exact H|simpl in Hn; lia].
  - destruct s as [|c s]; [exact H|].
    destruct (find_entry LA (c :: s)) as [[la ra]|] eqn:F.
    + destruct (find_entry_some _ _ _ _ F) as (Ia & t & E).
      rewrite E in F. rewrite E, (one_pass_hit _ _ _ _ (no_empty_in _ _ _ NE Ia) F) in H.
      destruct (starts_with_split _ _ _ H) as [H1|(l2 & El & N2 & H2)].
      * apply starts_with_weaken. exact H1.
      * exfalso. apply compatible_of_start in H2.
        unfold no_creation in NC. rewrite forallb_forall in NC.
        specialize (NC _ I). simpl in NC.
        assert (S2 : for_suffixes
                       (fun sfx => forallb (fun ea => negb (compatible sfx (snd ea))) LA)
                       (tl lb) = true) by exact NC.
        destruct u as [|c0 u]; [contradiction|].
        subst lb. simpl tl in S2.
        apply (for_suffixes_app _ u l2) in S2; [|exact N2].
        rewrite forallb_forall in S2. specialize (S2 _ Ia). simpl in S2.
        rewrite compatible_sym in H2. rewrite H2 in S2. discriminate.
    + rewrite (one_pass_miss _ _ _ F) in H.
      change (u ++ c :: one_pass LA s) with (u ++ [c] ++ one_pass LA s) in H.
      rewrite app_assoc in H.
      apply (IH s (u ++ [c]) lb rb) in H.
      * rewrite <- app_assoc in H. exact H.
      * simpl in Hn. lia.
      * exact I.
      * destruct u; discriminate.
Qed.

Lemma no_creation_head LA LB c s :
  no_empty LA = true -> no_creation LA LB = true ->
  find_entry LB (c :: s) = None ->
  find_entry LB (c :: one_pass LA s) = None.
Proof.
  intros NE NC H. apply find_entry_none. intros lb rb I.
  destruct (starts_with lb (c :: one_pass LA s)) eqn:E; [|reflexivity].
  apply (no_creation_start LA LB NE NC (length s) s [c] lb rb (le_n _) I) in E;
    [|discriminate].
  cbn [app] in E.
  rewrite find_entry_none in H. rewrite (H lb rb I) in E. discriminate.
Qed.

Lemma find_entry_unique L : forall l r t,
  prefix_free L = true -> In (l, r) L ->
  find_entry L (l ++ t) = Some (l, r).
Proof.
  induction L as [|[l0 r0] L IH]; intros l r t P I; [destruct I|].
  simpl in P. apply andb_prop in P. destruct P as [P1 P2]. simpl.
  destruct I as [I|I].
  - inversion I; subst. rewrite starts_with_self_app. reflexivity.
  - destruct (starts_with l0 (l ++ t)) eqn:E.
    + apply compatible_of_start in E. rewrite compatible_sym in E.
      rewrite (clear_of_in _ _ _ _ P1 I) in E. discriminate.
    + apply IH; assumption.
Qed.

(** Two passes in a row are one pass with the two tables. *)
Theorem one_pass_fusion LA LB :
  fusible LA LB = true ->
  forall s, one_pass LB (one_pass LA s) = one_pass (LA ++ LB) s.
Proof.
  unfold fusible. intros F.
  repeat (apply andb_prop in F; destruct F as [F ?]).
  rename F into NEA, H3 into NEB, H2 into PF, H1 into F1, H0 into F2, H into NC.
  assert (G : forall n s, length s <= n ->
            one_pass LB (one_pass LA s) = one_pass (LA ++ LB) s).
  { induction n as [|n IH]; intros s Hn.
    - destruct s; [reflexivity|simpl in Hn; lia].
    - destruct s as [|c s]; [reflexivity|].
      destruct (find_entry LA (c :: s)) as [[la ra]|] eqn:FA.
      + destruct (find_entry_some _ _ _ _ FA) as (Ia & t & E).
        pose proof (no_empty_in _ _ _ NEA Ia) as Na.
        assert (Lt : length t <= n).
        { apply (f_equal (@length ascii)) in E. rewrite length_app in E.
          simpl in E, Hn. destruct la; [contradiction|simpl in E; lia]. }
        rewrite E in FA |- *.
        rewrite (one_pass_hit _ _ _ _ Na FA).
        rewrite one_pass_inert.
        2:{ rewrite forallb_forall in F1. apply (F1 _ Ia). }
        rewrite (one_pass_hit (LA ++ LB) la ra t Na).
        2:{ rewrite find_entry_app, FA. reflexivity. }
        f_equal. apply IH. exact Lt.
      + destruct (find_entry LB (c :: s)) as [[lb rb]|] eqn:FB.
        * destruct (find_entry_some _ _ _ _ FB) as (Ib & t & E).
          pose proof (no_empty_in _ _ _ NEB Ib) as Nb.
          assert (Lt : length t <= n).
          { apply (f_equal (@length ascii)) in E. rewrite length_app in E.
            simpl in E, Hn. destruct lb; [contradiction|simpl in E; lia]. }
          rewrite E in FA, FB |- *.
          rewrite (one_pass_inert_tail LA lb t Nb FA).
          2:{ rewrite forallb_forall in F2. apply (F2 _ Ib). }
          rewrite (one_pass_hit LB lb rb _ Nb).
          2:{ apply find_entry_unique; assumption. }
          rewrite (one_pass_hit (LA ++ LB) lb rb t Nb).
          2:{ rewrite find_entry_app, FA. exact FB. }
          f_equal. apply IH. exact Lt.
        * rewrite (one_pass_miss _ _ _ FA).
          rewrite (one_pass_miss LB c (one_pass LA s)).
          2:{ apply no_creation_head; assumption. }
          rewrite (one_pass_miss (LA ++ LB) c s).
          2:{ rewrite find_entry_app, FA. exact FB. }
          f_equal. apply IH. simpl in Hn. lia. }
  intros s. apply (G (length s)). apply le_n.
Qed.

(** A pass depends on its table through [find_entry] only. *)
Lemma one_pass_ext L1 L2 :
  (forall s, find_entry L1 s = find_entry L2 s) ->
  forall s, one_pass L1 s = one_pass L2 s.
Proof.
  intros H. unfold one_pass.
  assert (G : forall s skip, one_pass_from L1 skip s = one_pass_from L2 skip s).
  { induction s as [|c s IH]; intros skip; simpl; [reflexivity|].
    destruct skip; [|apply IH].
    rewrite H. destruct (find_entry L2 (c :: s)) as [[l r]|]; rewrite IH; reflexivity. }
  intros s. apply G.
Qed.

Lemma compatible_of_starts a b s :
  starts_with a s = true -> starts_with b s = true -> compatible a b = true.
Proof.
  intros Ha Hb. apply starts_with_app in Ha. destruct Ha as (t & ->).
  apply compatible_of_start in Hb. exact Hb.
Qed.

(** Tables whose literals cannot start at the same place can be taken in
    either order. *)
Lemma apart_swap LA LB :
  apart LA LB = true ->
  forall s, one_pass (LA ++ LB) s = one_pass (LB ++ LA) s.
Proof.
  intros A. apply one_pass_ext. intros s. rewrite !find_entry_app.
  destruct (find_entry LA s) as [[la ra]|] eqn:FA;
    destruct (find_entry LB s) as [[lb rb]|] eqn:FB; try reflexivity.
  exfalso.
  destruct (find_entry_some _ _ _ _ FA) as (Ia & ta & Ea).
  destruct (find_entry_some _ _ _ _ FB) as (Ib & tb & Eb).
  assert (C : compatible la lb = true).
  { apply (compatible_of_starts la lb s).
    - rewrite Ea. apply starts_with_self_app.
    - rewrite Eb. apply starts_with_self_app. }
  unfold apart in A. rewrite forallb_forall in A.
  specialize (A _ Ia). simpl in A.
  rewrite (clear_of_in _ _ _ _ A Ib) in C. discriminate.
Qed.

(** A text that holds no literal of the table is left as it is. *)
Lemma quiet_tail L c s : quiet L (c :: s) -> quiet L s.
Proof. intros Q i. exact (Q (S i)). Qed.

Lemma quiet_id L : forall s, quiet L s -> one_pass L s = s.
Proof.
  induction s as [|c s IH]; intros Q; [reflexivity|].
  rewrite one_pass_miss by exact (Q 0). f_equal.
  apply IH. eapply quiet_tail. exact Q.
Qed.

Lemma quiet_app_table LA LB s :
  quiet (LA ++ LB) s -> quiet LA s /\ quiet LB s.
Proof.
  intros Q. split; intros i; specialize (Q i); rewrite find_entry_app in Q;
    destruct (find_entry LA (skipn i s)); congruence.
Qed.

Lemma for_suffixes_skipn P x i :
  for_suffixes P x = true -> i < length x -> P (skipn i x) = true.
Proof.
  intros H Hi. rewrite <- (firstn_skipn i x) in H.
  apply for_suffixes_app in H; [exact H|].
  intros E. apply (f_equal (@length ascii)) in E.
  rewrite length_skipn in E. simpl in E. lia.
Qed.

(** After a pass with a table that settles, no literal of the table is
    left. *)
Lemma settles_quiet L :
  settles L = true -> forall s, quiet L (one_pass L s).
Proof.
  unfold settles. intros S.
  apply andb_prop in S. destruct S as [S NC].
  apply andb_prop in S. destruct S as [NE IN].
  assert (G : forall n s, length s <= n -> quiet L (one_pass L s)).
  { induction n as [|n IH]; intros s Hn.
    - destruct s; [|simpl in Hn; lia]. intros i. rewrite skipn_nil.
      apply find_entry_none. intros l r I.
      destruct l; [exfalso; exact (no_empty_in _ _ _ NE I eq_refl)|reflexivity].
    - destruct s as [|c s].
      { intros i. rewrite skipn_nil.
        apply find_entry_none. intros l r I.
        destruct l; [exfalso; exact (no_empty_in _ _ _ NE I eq_refl)|reflexivity]. }
      destruct (find_entry L (c :: s)) as [[l r]|] eqn:F.
      + destruct (find_entry_some _ _ _ _ F) as (I & t & E).
        pose proof (no_empty_in _ _ _ NE I) as N.
        assert (Lt : length t <= n).
        { apply (f_equal (@length ascii)) in E. rewrite length_app in E.
          simpl in E, Hn. destruct l; [contradiction|simpl in E; lia]. }
        rewrite E in F |- *. rewrite (one_pass_hit _ _ _ _ N F).
        intros i. rewrite skipn_app.
        destruct (Nat.lt_ge_cases i (length r)) as [Hi|Hi].
        * apply clear_find.
          -- intros Z. apply (f_equal (@length ascii)) in Z.
             rewrite length_skipn in Z. simpl in Z. lia.
          -- rewrite forallb_forall in IN. specialize (IN _ I). simpl in IN.
             apply (for_suffixes_skipn _ _ _ IN Hi).
        * rewrite skipn_all2 by exact Hi. simpl. apply (IH t Lt).
      + rewrite (one_pass_miss _ _ _ F). intros [|i].
        * simpl. apply no_creation_head; assumption.
        * simpl. apply (IH s). simpl in Hn. lia. }
  intros s. apply (G (length s)). apply le_n.
Qed.

Lemma find_entry_shorten L : forall x t l r,
  find_entry L (x ++ t) = Some (l, r) -> starts_with l x = true ->
  find_entry L x = Some (l, r).
Proof.
  induction L as [|[l0 r0] L IH]; intros x t l r; simpl; [discriminate|].
  destruct (starts_with l0 (x ++ t)) eqn:E.
  - intros H S. inversion H; subst. rewrite S. reflexivity.
  - intros H S. destruct (starts_with l0 x) eqn:E0.
    + rewrite (starts_with_weaken _ _ t E0) in E. discriminate.
    + eapply IH; eassumption.
Qed.

Lemma find_entry_none_shorten L x t :
  find_entry L (x ++ t) = None -> find_entry L x = None.
Proof.
  rewrite !find_entry_none. intros H l r I.
  destruct (starts_with l x) eqn:E; [|reflexivity].
  rewrite <- (H l r I). symmetry. apply starts_with_weaken. exact E.
Qed.

(** When no literal that starts earlier can run into [M], a pass treats
    what precedes [M] on its own. *)
Lemma one_pass_before L M :
  no_empty L = true -> M <> [] ->
  (forall l r a b, In (l, r) L -> l = a ++ b -> a <> [] -> b <> [] ->
                   compatible b M = false) ->
  forall x t, one_pass L (x ++ M ++ t) = one_pass L x ++ one_pass L (M ++ t).
Proof.
  intros NE NM H1.
  assert (G : forall n x t, length x <= n ->
            one_pass L (x ++ M ++ t) = one_pass L x ++ one_pass L (M ++ t)).
  { induction n as [|n IH]; intros x t Hn.
    - destruct x; [reflexivity|simpl in Hn; lia].
    - destruct x as [|c x]; [reflexivity|].
      destruct (find_entry L ((c :: x) ++ M ++ t)) as [[l r]|] eqn:F.
      + destruct (find_entry_some _ _ _ _ F) as (I & t' & E).
        pose proof (no_empty_in _ _ _ NE I) as N.
        assert (S : starts_with l ((c :: x) ++ M ++ t) = true).
        { rewrite E. apply starts_with_self_app. }
        destruct (starts_with_split _ _ _ S) as [S1|(l2 & El & N2 & S2)].
        * pose proof (find_entry_shorten _ _ _ _ _ F S1) as F1.
          apply starts_with_app in S1. destruct S1 as (x2 & Ex).
          rewrite Ex in F, F1 |- *. rewrite <- app_assoc in F |- *.
          rewrite (one_pass_hit _ _ _ _ N F), (one_pass_hit _ _ _ _ N F1).
          rewrite <- app_assoc. f_equal. apply IH.
          apply (f_equal (@length ascii)) in Ex. rewrite length_app in Ex.
          simpl in Ex, Hn. destruct l; [contradiction|simpl in Ex; lia].
        * exfalso. apply compatible_of_start in S2.
          rewrite compatible_sym in S2.
          rewrite (H1 l r (c :: x) l2 I El) in S2; [discriminate|discriminate|exact N2].
      + pose proof (find_entry_none_shorten _ _ _ F) as F1.
        simpl app in F |- *.
        rewrite (one_pass_miss _ _ _ F), (one_pass_miss _ _ _ F1).
        simpl. f_equal. apply IH. simpl in Hn. lia. }
  intros x t. apply (G (length x)). apply le_n.
Qed.

Lemma runs_into_bool (L : table) (M : text) :
  forallb (fun e => for_suffixes (fun sfx => negb (compatible sfx M)) (tl (fst e))) L = true ->
  forall (l r a b : text), In (l, r) L -> l = a ++ b -> a <> [] -> b <> [] ->
                  compatible b M = false.
Proof.
  intros H l r a b I E Na Nb. rewrite forallb_forall in H.
  specialize (H _ I). simpl in H. subst l.
  destruct a as [|c a]; [contradiction|]. simpl in H.
  apply (for_suffixes_app _ a b) in H; [|exact Nb].
  apply negb_true_iff. exact H.
Qed.

Lemma filter_single {A} (f : A -> bool) (L : list A) a b :
  length (filter f L) = 1 -> In a L -> f a = true -> In b L -> f b = true -> a = b.
Proof.
  intros H Ia Fa Ib Fb.
  assert (Ia' : In a (filter f L)) by (apply filter_In; auto).
  assert (Ib' : In b (filter f L)) by (apply filter_In; auto).
  destruct (filter f L) as [|z [|z' l]]; try discriminate.
  destruct Ia' as [<-|[]], Ib' as [<-|[]]. reflexivity.
Qed.

(** Every occurrence of a literal that stands alone is replaced where it
    is; what precedes it and what follows it are treated on their own. *)
Theorem one_pass_occurrence L l r :
  no_empty L = true -> stands_alone L l = true -> In (l, r) L ->
  forall x y, one_pass L (x ++ l ++ y) = one_pass L x ++ r ++ one_pass L y.
Proof.
  intros NE SA I x y. unfold stands_alone in SA.
  destruct l as [|c0 l1]; [discriminate|].
  remember (c0 :: l1) as l0 eqn:El.
  assert (Nl : l0 <> []) by (rewrite El; discriminate).
  apply andb_prop in SA. destruct SA as [S1 S2].
  apply Nat.eqb_eq in S1.
  rewrite (one_pass_before L l0 NE Nl (runs_into_bool L l0 S2)).
  f_equal. apply one_pass_hit; [exact Nl|].
  destruct (find_entry L (l0 ++ y)) as [[l' r']|] eqn:F.
  - destruct (find_entry_some _ _ _ _ F) as (I' & t & E).
    assert (C : compatible l0 l' = true).
    { apply (compatible_of_start l' l0 y). rewrite E. apply starts_with_self_app. }
    assert (C0 : compatible l0 l0 = true).
    { unfold compatible. rewrite (proj2 (starts_with_app l0 l0)); [reflexivity|].
      exists []. symmetry. apply app_nil_r. }
    rewrite (filter_single (fun e => compatible l0 (fst e)) L (l', r') (l0, r) S1 I' C I C0).
    reflexivity.
  - rewrite find_entry_none in F.
    pose proof (F l0 r I) as Z. rewrite starts_with_self_app in Z. discriminate.
Qed.

End Tables.

(* ================================================================= *)
(** ** Substitution, step by step *)

Section SubSteps.

Lemma re_sub_from r repl s : re_sub r repl s = sub_from r repl None s.
Proof. reflexivity. Qed.

Lemma last_of_cons prev c x : last_of prev (c :: x) = last_of (Some c) x.
Proof.
  unfold last_of. simpl. destruct (rev x) eqn:R; simpl; reflexivity.
Qed.

Lemma pieces_skip r x : forall prev t,
  pieces r (length x) prev (x ++ t) = pieces r 0 (last_of prev x) t.
Proof.
  induction x as [|c x IH]; intros prev t; [reflexivity|].
  simpl. rewrite IH, last_of_cons. reflexivity.
Qed.

Lemma match_at_nonempty_only r prev m :
  match_at r prev [] = Some m -> whole m = [].
Proof.
  intros H. apply match_at_prefix in H. rewrite firstn_nil in H. exact H.
Qed.

Lemma sub_from_nil r repl prev :
  match_at r prev [] = None -> sub_from r repl prev [] = Ok [].
Proof. intros H. unfold sub_from. simpl. rewrite H. reflexivity. Qed.

Lemma sub_from_miss r repl prev c s :
  match_at r prev (c :: s) = None ->
  sub_from r repl prev (c :: s) =
  (rest <- sub_from r repl (Some c) s ;; Ok (c :: rest)).
Proof.
  intros H. unfold sub_from. simpl. rewrite H. simpl.
  destruct (mapM (piece_out repl) (pieces r 0 (Some c) s)); reflexivity.
Qed.

Lemma sub_from_hit r repl prev M t m :
  match_at r prev (M ++ t) = Some m -> whole m = M -> M <> [] ->
  sub_from r repl prev (M ++ t) =
  (x <- repl m ;; rest <- sub_from r repl (last_of prev M) t ;; Ok (x ++ rest)).
Proof.
  intros H W N. destruct M as [|c M]; [contradiction|].
  unfold sub_from. simpl. simpl in H. rewrite H, W. simpl.
  rewrite pieces_skip, last_of_cons.
  destruct (repl m); simpl; [|reflexivity].
  destruct (mapM (piece_out repl) (pieces r 0 (last_of (Some c) M) t)); reflexivity.
Qed.

Lemma match_at_split r prev s m :
  match_at r prev s = Some m -> exists t, s = whole m ++ t.
Proof.
  intros H. apply match_at_den in H. destruct H as (st' & _ & E & _). eauto.
Qed.

(** A substitution is a pass with a table when each match either is a
    literal of the table, replaced as the table says, or is replaced by
    itself and holds no literal; and when no literal starts where the
    pattern does not match. *)
Lemma sub_is_one_pass r repl L :
  (forall prev s, match_at r prev s = None -> find_entry L s = None) ->
  (forall prev s m, match_at r prev s = Some m ->
     whole m <> [] /\
     ((exists rr, find_entry L s = Some (whole m, rr) /\ repl m = Ok rr) \/
      (repl m = Ok (whole m) /\
       forall t, one_pass L (whole m ++ t) = whole m ++ one_pass L t))) ->
  forall s prev, sub_from r repl prev s = Ok (one_pass L s).
Proof.
  intros A B.
  assert (G : forall n s prev, length s <= n ->
            sub_from r repl prev s = Ok (one_pass L s)).
  { induction n as [|n IH]; intros s prev Hn.
    - destruct s; [|simpl in Hn; lia].
      apply sub_from_nil.
      destruct (match_at r prev []) as [m|] eqn:E; [|reflexivity].
      destruct (B _ _ _ E) as [N _].
      apply match_at_nonempty_only in E. contradiction.
    - destruct s as [|c s].
      { apply sub_from_nil.
        destruct (match_at r prev []) as [m|] eqn:E; [|reflexivity].
        destruct (B _ _ _ E) as [N _].
        apply match_at_nonempty_only in E. contradiction. }
      destruct (match_at r prev (c :: s)) as [m|] eqn:E.
      + destruct (B _ _ _ E) as [N C].
        destruct (match_at_split _ _ _ _ E) as (t & Es).
        assert (Lt : length t <= n).
        { apply (f_equal (@length ascii)) in Es. rewrite length_app in Es.
          simpl in Es, Hn. destruct (whole m); [contradiction|simpl in Es; lia]. }
        rewrite Es in E |- *.
        rewrite (sub_from_hit r repl prev (whole m) t m E eq_refl N).
        rewrite (IH t _ Lt).
        destruct C as [(rr & F & R)|(R & P)].
        * rewrite R. simpl. rewrite Es in F.
          rewrite (one_pass_hit _ _ _ _ N F). reflexivity.
        * rewrite R. simpl. rewrite P. reflexivity.
      + rewrite (sub_from_miss _ _ _ _ _ E).
        rewrite (IH s) by (simpl in Hn; lia). simpl.
        rewrite one_pass_miss; [reflexivity|]. eapply A. exact E. }
  intros s prev. apply (G (length s)). apply le_n.
Qed.

End SubSteps.

(* ================================================================= *)
(** ** Declarations: a name, a colon, a number, a comma *)

Section Declarations.

Lemma starts_with_cancel a : forall u v,
  starts_with (a ++ u) (a ++ v) = starts_with u v.
Proof.
  induction a as [|c a IH]; intros u v; simpl; [reflexivity|].
  rewrite ascii_eqb_refl. simpl. apply IH.
Qed.

Lemma compatible_cancel a u v : compatible (a ++ u) (a ++ v) = compatible u v.
Proof. unfold compatible. rewrite !starts_with_cancel. reflexivity. Qed.

(** Cutting one of two compatible texts short keeps them compatible. *)
Lemma compatible_trunc a z l :
  compatible (a ++ z) l = true -> compatible a l = true.
Proof.
  unfold compatible. intros H. apply orb_prop in H. destruct H as [H|H].
  - apply starts_with_app in H. destruct H as (t & ->).
    rewrite <- app_assoc, starts_with_self_app. reflexivity.
  - destruct (starts_with_split _ _ _ H) as [H1|(l2 & -> & _ & _)].
    + rewrite H1. apply orb_true_r.
    + rewrite starts_with_self_app. reflexivity.
Qed.

Lemma compatible_heads c x d y : compatible (c :: x) (d :: y) = true -> c = d.
Proof.
  unfold compatible. simpl. intros H. apply orb_prop in H.
  destruct H as [H|H]; apply andb_prop in H; destruct H as [H _];
    apply ascii_eqb_eq in H; congruence.
Qed.

Lemma clear_by_head L c x :
  heads_avoid L = true -> punct c = true -> clear_of L (c :: x) = true.
Proof.
  intros H P. unfold clear_of. apply forallb_forall. intros [l r] I.
  unfold heads_avoid in H. rewrite forallb_forall in H.
  specialize (H _ I). simpl in *. destruct l as [|h l]; [discriminate|].
  apply negb_true_iff.
  destruct (compatible (c :: x) (h :: l)) eqn:C; [|reflexivity].
  apply compatible_heads in C. subst h. rewrite P in H. discriminate.
Qed.

Lemma for_suffixes_join P u v :
  for_suffixes (fun sfx => P (sfx ++ v)) u = true ->
  for_suffixes P v = true ->
  for_suffixes P (u ++ v) = true.
Proof.
  induction u as [|c u IH]; intros Hu Hv; simpl in *; [exact Hv|].
  apply andb_prop in Hu. destruct Hu as [H1 H2].
  rewrite H1. simpl. apply IH; assumption.
Qed.

Lemma digits_inert L ds tail :
  heads_avoid L = true -> forallb is_digit ds = true ->
  inert L tail = true -> inert L (ds ++ tail) = true.
Proof.
  intros H D T. unfold inert in *. induction ds as [|d ds IH]; [exact T|].
  simpl in D. apply andb_prop in D. destruct D as [D1 D2].
  cbn [app for_suffixes]. rewrite IH by exact D2.
  rewrite clear_by_head; [reflexivity|exact H|].
  unfold punct. rewrite D1. reflexivity.
Qed.

(** What follows the name of a declaration holds no literal. *)
Lemma value_inert L ds :
  heads_avoid L = true -> forallb is_digit ds = true ->
  inert L (txt ": " ++ ds ++ txt ",") = true.
Proof.
  intros H D.
  change (txt ": " ++ ds ++ txt ",") with (":"%char :: " "%char :: ds ++ txt ",").
  cbn [inert for_suffixes].
  rewrite !clear_by_head by (exact H || reflexivity). cbn [andb].
  apply digits_inert; [exact H|exact D|].
  cbn. rewrite clear_by_head by (exact H || reflexivity). reflexivity.
Qed.

Lemma clear_of_trunc L a z : clear_of L a = true -> clear_of L (a ++ z) = true.
Proof.
  unfold clear_of. rewrite !forallb_forall. intros H e I.
  specialize (H e I). apply negb_true_iff in H. apply negb_true_iff.
  destruct (compatible (a ++ z) (fst e)) eqn:C; [|reflexivity].
  apply compatible_trunc in C. congruence.
Qed.

(** Past its first character, a declaration holds no literal. *)
Lemma declaration_inert L name ds :
  name <> [] -> heads_avoid L = true -> name_clear L name = true ->
  forallb is_digit ds = true ->
  inert L (tl (declaration name ds)) = true.
Proof.
  intros N H C D. destruct name as [|c name]; [contradiction|].
  unfold declaration. cbn [app tl]. unfold inert.
  apply for_suffixes_join.
  - unfold name_clear in C. cbn [tl] in C.
    clear - C. induction name as [|d name IH]; [reflexivity|].
    cbn [for_suffixes] in C |- *. apply andb_prop in C. destruct C as [C1 C2].
    rewrite IH by exact C2. rewrite andb_true_r.
    replace ((d :: name) ++ txt ": " ++ ds ++ txt ",")
      with (((d :: name) ++ txt ":") ++ (" "%char :: ds ++ txt ",")).
    + apply clear_of_trunc. exact C1.
    + rewrite <- app_assoc. reflexivity.
  - apply value_inert; assumption.
Qed.

Lemma lookup_in k d v : lookup k d = Some v -> In (k, v) d.
Proof.
  induction d as [|[k' v'] d IH]; simpl; [discriminate|].
  destruct (text_eqb k k') eqn:E.
  - intros H. inversion H; subst. apply text_eqb_eq in E. subst. left. reflexivity.
  - intros H. right. apply IH. exact H.
Qed.

Lemma in_lookup k d v : In (k, v) d -> lookup k d <> None.
Proof.
  induction d as [|[k' v'] d IH]; simpl; [intros []|].
  intros [H|H].
  - inversion H; subst. rewrite text_eqb_refl. discriminate.
  - destruct (text_eqb k k'); [discriminate|apply IH; exact H].
Qed.

Lemma keys_ok_in d k v :
  keys_ok d = true -> In (k, v) d -> k <> [] /\ forallb is_digit k = true.
Proof.
  induction d as [|[k' v'] d IH]; simpl; [intros _ []|].
  intros H [I|I].
  - inversion I; subst.
    repeat (apply andb_prop in H; destruct H as [H ?]).
    split; [destruct k; [discriminate|discriminate]|assumption].
  - repeat (apply andb_prop in H; destruct H as [H ?]). apply IH; assumption.
Qed.

Lemma in_declarations names d l r :
  In (l, r) (declarations names d) <->
  exists name k v, In name names /\ In (k, v) d /\
                   l = declaration name k /\ r = declaration name v.
Proof.
  unfold declarations. rewrite in_flat_map. split.
  - intros (name & I & H). apply in_map_iff in H.
    destruct H as ([k v] & E & Ik). inversion E; subst.
    exists name, k, v. auto.
  - intros (name & k & v & I & Ik & -> & ->).
    exists name. split; [exact I|]. apply in_map_iff.
    exists (k, v). auto.
Qed.

(** Two numbers followed by a comma, one starting the other, are the same
    number. *)
Lemma number_comma_start k : forall ds t,
  forallb is_digit k = true -> forallb is_digit ds = true ->
  starts_with (k ++ txt ",") (ds ++ txt "," ++ t) = true -> k = ds.
Proof.
  induction k as [|a k IH]; intros ds t Dk Dd H.
  - destruct ds as [|d ds]; [reflexivity|].
    simpl in H, Dd. apply andb_prop in H. destruct H as [H _].
    apply ascii_eqb_eq in H. subst d.
    apply andb_prop in Dd. destruct Dd as [Dd _]. discriminate.
  - destruct ds as [|d ds].
    + simpl in H, Dk. apply andb_prop in H. destruct H as [H _].
      apply ascii_eqb_eq in H. subst a.
      apply andb_prop in Dk. destruct Dk as [Dk _]. discriminate.
    + simpl in H, Dk, Dd.
      apply andb_prop in H. destruct H as [H1 H2].
      apply andb_prop in Dk. destruct Dk as [_ Dk].
      apply andb_prop in Dd. destruct Dd as [_ Dd].
      apply ascii_eqb_eq in H1. subst d. f_equal.
      apply (IH ds t); [exact Dk|exact Dd|exact H2].
Qed.

Lemma names_apart_in names n n' :
  names_apart names = true -> In n names -> In n' names ->
  compatible (n ++ txt ":") (n' ++ txt ":") = true -> n = n'.
Proof.
  unfold names_apart. intros H I I' C. rewrite forallb_forall in H.
  specialize (H _ I). apply andb_prop in H. destruct H as [_ H].
  rewrite forallb_forall in H. specialize (H _ I'). rewrite C in H.
  simpl in H. apply text_eqb_eq. exact H.
Qed.

Lemma names_apart_nonempty names n :
  names_apart names = true -> In n names -> n <> [].
Proof.
  unfold names_apart. intros H I. rewrite forallb_forall in H.
  specialize (H _ I). apply andb_prop in H. destruct H as [H _].
  destruct n; [discriminate|discriminate].
Qed.

(** A literal of a table of declarations that starts a declaration is
    that declaration. *)
Lemma declaration_start names d name ds t l r :
  names_apart names = true -> keys_ok d = true ->
  In name names -> forallb is_digit ds = true ->
  In (l, r) (declarations names d) ->
  starts_with l (declaration name ds ++ t) = true ->
  exists v, In (ds, v) d /\ l = declaration name ds /\ r = declaration name v.
Proof.
  intros NA KO I D Il S.
  apply in_declarations in Il. destruct Il as (n' & k & v & In' & Ik & -> & ->).
  destruct (keys_ok_in _ _ _ KO Ik) as [Nk Dk].
  assert (E : name = n').
  { apply (names_apart_in names); try assumption.
    pose proof S as S0. unfold declaration in S0.
    replace ((name ++ txt ": " ++ ds ++ txt ",") ++ t)
      with ((name ++ txt ":") ++ (" "%char :: ds ++ txt "," ++ t)) in S0
      by (rewrite <- !app_assoc; reflexivity).
    replace (n' ++ txt ": " ++ k ++ txt ",")
      with ((n' ++ txt ":") ++ (" "%char :: k ++ txt ",")) in S0
      by (rewrite <- !app_assoc; reflexivity).
    apply compatible_of_start in S0.
    rewrite compatible_sym in S0. apply compatible_trunc in S0.
    rewrite compatible_sym. exact S0. }
  subst n'. exists v.
  assert (S' : starts_with (k ++ txt ",") (ds ++ txt "," ++ t) = true).
  { unfold declaration in S.
    replace ((name ++ txt ": " ++ ds ++ txt ",") ++ t)
      with ((name ++ txt ": ") ++ (ds ++ txt "," ++ t)) in S
      by (rewrite <- !app_assoc; reflexivity).
    replace (name ++ txt ": " ++ k ++ txt ",")
      with ((name ++ txt ": ") ++ (k ++ txt ",")) in S
      by (rewrite <- !app_assoc; reflexivity).
    rewrite starts_with_cancel in S. exact S. }
  apply number_comma_start in S'; try assumption. subst k. auto.
Qed.

End Declarations.

(* ================================================================= *)
(** ** The substitutions of [update-styles.py] as passes *)

Section V1Passes.

Import UpdateStyles.

Lemma AltL_den names : forall name st s',
  In name names -> rest st = name ++ s' ->
  den (AltL (map Lit names)) st (MState (last_of (before st) name) s' (caps st)).
Proof.
  induction names as [|n names IH]; intros name st s' I E; [destruct I|].
  destruct names as [|n' names].
  - destruct I as [->|[]]. simpl. apply Lit_den. exact E.
  - change (AltL (map Lit (n :: n' :: names)))
      with (Alt (Lit n) (AltL (map Lit (n' :: names)))).
    destruct I as [->|I].
    + apply DAltL. apply Lit_den. exact E.
    + apply DAltR. apply IH; assumption.
Qed.

Lemma Star_Class_den p w : forall b s' c,
  forallb p w = true ->
  den (Star (Class p)) (MState b (w ++ s') c) (MState (last_of b w) s' c).
Proof.
  induction w as [|x w IH]; intros b s' c F.
  - apply DStarStop.
  - simpl in F. apply andb_prop in F. destruct F as [F1 F2].
    rewrite last_of_cons.
    apply (DStarRound _ _ (MState (Some x) (w ++ s') c)).
    + constructor. unfold step. simpl. rewrite F1. reflexivity.
    + simpl. lia.
    + apply IH. exact F2.
Qed.

Lemma Plus_Class_den p w b s' c :
  w <> [] -> forallb p w = true ->
  den (Plus (Class p)) (MState b (w ++ s') c) (MState (last_of b w) s' c).
Proof.
  intros N F. destruct w as [|x w]; [contradiction|].
  simpl in F. apply andb_prop in F. destruct F as [F1 F2].
  rewrite last_of_cons.
  apply (DSeq _ _ _ (MState (Some x) (w ++ s') c)).
  - constructor. unfold step. simpl. rewrite F1. reflexivity.
  - apply Star_Class_den. exact F2.
Qed.

Lemma Char_den ch b s' c :
  den (Char ch) (MState b (ch :: s') c) (MState (Some ch) s' c).
Proof. constructor. unfold step. simpl. rewrite ascii_eqb_refl. reflexivity. Qed.

Lemma Group_den i r st st1 w :
  den r st st1 -> rest st = w ++ rest st1 ->
  den (Group i r) st (MState (before st1) (rest st1) ((i, w) :: caps st1)).
Proof.
  intros D E. rewrite <- (consumed_eq _ _ _ E). apply (DGroup i r st st1 D).
Qed.

Lemma match_at_exists r prev s st' :
  den r (MState prev s []) st' -> match_at r prev s <> None.
Proof.
  intros D H. exact (match_at_none _ _ _ H _ D).
Qed.

(** The number test of the two converters. *)
Lemma number_match ds :
  ds <> [] -> forallb is_digit ds = true ->
  exists m, re_match NUMBER ds = Some m /\ group m 1 = Ok (Some ds).
Proof.
  intros N D. unfold re_match.
  destruct (match_at NUMBER None ds) as [m|] eqn:E.
  - exists m. split; [reflexivity|].
    apply match_at_den in E. destruct E as (st' & Dn & E & G & A).
    unfold NUMBER in Dn.
    apply den_Seq in Dn. destruct Dn as (st1 & D1 & Dn).
    apply den_Seq in Dn. destruct Dn as (st2 & D2 & D3).
    inversion D1; subst.
    apply den_Group in D2. destruct D2 as (w & st3 & D2 & E2 & R2 & _ & C2).
    apply den_Plus_Class in D2. destruct D2 as (w' & _ & F & E2' & C2' & _).
    rewrite E2' in E2. apply app_inv_tail in E2. subst w'.
    inversion D3; subst.
    cbn [rest] in E2'.
    assert (Z : rest st' = []).
    { match goal with H : at_end st' = true |- _ => unfold at_end in H end.
      rewrite R2 in *.
      destruct (rest st3) as [|x [|y z]] eqn:R; [reflexivity| |discriminate].
      exfalso. match goal with H : ascii_eqb x _ = true |- _ =>
        apply ascii_eqb_eq in H; subst x end.
      rewrite E2' in D. rewrite forallb_app in D.
      apply andb_prop in D. destruct D as [_ D]. discriminate. }
    rewrite R2 in Z. rewrite Z, app_nil_r in E2'. subst w.
    unfold group. cbn [Nat.eqb]. rewrite A. cbn.
    rewrite G, C2, C2'. cbn. reflexivity.
  - exfalso. revert E. apply (match_at_exists NUMBER None ds (MState (last_of None ds) [] [(1, ds)])).
    unfold NUMBER. eapply DSeq; [apply DBol; reflexivity|].
    eapply DSeq.
    + apply (Group_den 1 _ (MState None ds []) (MState (last_of None ds) [] []) ds).
      * pose proof (Plus_Class_den is_digit ds None [] [] N D) as P.
        rewrite app_nil_r in P. exact P.
      * cbn. symmetry. apply app_nil_r.
    + apply DEol. reflexivity.
Qed.

Lemma convert_number d ds :
  ds <> [] -> forallb is_digit ds = true ->
  convert d ds = match lookup ds d with Some token => token | None => ds end.
Proof.
  intros N D. unfold convert.
  destruct (number_match ds N D) as (m & -> & ->). reflexivity.
Qed.

(** A substitution of declarations is a pass with their table. *)
Lemma declarations_pass r repl names d :
  names_apart names = true -> keys_ok d = true ->
  prefix_free (declarations names d) = true ->
  heads_avoid (declarations names d) = true ->
  forallb (name_clear (declarations names d)) names = true ->
  (forall prev s m, match_at r prev s = Some m ->
     exists name ds, In name names /\ ds <> [] /\ forallb is_digit ds = true /\
                     whole m = declaration name ds /\
                     repl m = Ok (declaration name (convert d ds))) ->
  (forall prev name ds t, In name names -> ds <> [] -> forallb is_digit ds = true ->
     match_at r prev (declaration name ds ++ t) <> None) ->
  forall s prev, sub_from r repl prev s = Ok (one_pass (declarations names d) s).
Proof.
  intros NA KO PF HA NC Shape Exists.
  apply sub_is_one_pass.
  - intros prev s H.
    destruct (find_entry (declarations names d) s) as [[l rr]|] eqn:F; [|reflexivity].
    exfalso. destruct (find_entry_some _ _ _ _ F) as (I & t & E).
    apply in_declarations in I. destruct I as (name & k & v & In' & Ik & -> & ->).
    destruct (keys_ok_in _ _ _ KO Ik) as [Nk Dk].
    subst s. exact (Exists prev name k t In' Nk Dk H).
  - intros prev s m H.
    destruct (Shape _ _ _ H) as (name & ds & I & N & D & W & R).
    pose proof (names_apart_nonempty _ _ NA I) as Nn.
    split.
    { rewrite W. unfold declaration. destruct name; [contradiction|discriminate]. }
    rewrite (convert_number d ds N D) in R.
    destruct (match_at_split _ _ _ _ H) as (t & Es).
    destruct (lookup ds d) as [token|] eqn:Lk.
    + left. exists (declaration name token). split; [|exact R].
      rewrite Es, W. apply find_entry_unique; [exact PF|].
      apply in_declarations. exists name, ds, token.
      repeat split; [exact I|apply lookup_in; exact Lk].
    + right. split; [rewrite W; exact R|].
      intros t'. rewrite W. apply one_pass_inert_tail.
      * unfold declaration. destruct name; [contradiction|discriminate].
      * apply find_entry_none. intros l rr Il.
        destruct (starts_with l (declaration name ds ++ t')) eqn:S; [|reflexivity].
        exfalso.
        destruct (declaration_start names d name ds t' l rr NA KO I D Il S)
          as (v & Iv & _).
        apply in_lookup in Iv. contradiction.
      * apply declaration_inert; try assumption.
        rewrite forallb_forall in NC. apply NC. exact I.
Qed.

Lemma v1_spacing_exists prev name ds t :
  In name SPACING_NAMES -> ds <> [] -> forallb is_digit ds = true ->
  match_at SPACING_RE prev (declaration name ds ++ t) <> None.
Proof.
  intros I N D. unfold declaration. rewrite <- !app_assoc.
  set (t3 := txt "," ++ t).
  set (t2 := ds ++ t3).
  set (t1 := txt ": " ++ t2).
  set (p1 := last_of prev name).
  set (p2 := last_of p1 (txt ": ")).
  set (p3 := last_of p2 ds).
  apply (match_at_exists _ _ _ (MState (Some ","%char) t [(2, ds); (1, name)])).
  unfold SPACING_RE.
  apply (DSeq _ _ _ (MState p1 t1 [(1, name)])).
  { apply (Group_den 1 _ (MState prev (name ++ t1) []) (MState p1 t1 []) name).
    - apply (AltL_den SPACING_NAMES name (MState prev (name ++ t1) []) t1 I).
      reflexivity.
    - reflexivity. }
  apply (DSeq _ _ _ (MState p2 t2 [(1, name)])).
  { apply (Lit_den (txt ": ") (MState p1 t1 [(1, name)]) t2). reflexivity. }
  apply (DSeq _ _ _ (MState p3 t3 [(2, ds); (1, name)])).
  { apply (Group_den 2 _ (MState p2 t2 [(1, name)]) (MState p3 t3 [(1, name)]) ds).
    - apply (Plus_Class_den is_digit ds p2 t3 [(1, name)] N D).
    - reflexivity. }
  apply Char_den.
Qed.

Lemma v1_spacing_pass s prev :
  sub_from SPACING_RE replace_spacing prev s = Ok (one_pass spacing_table s).
Proof.
  apply declarations_pass; try (vm_compute; reflexivity).
  - intros prev' s' m H.
    destruct (v1_spacing_shape _ _ _ H) as (name & ds & I & N & D & W & G1 & G2).
    exists name, ds. repeat split; try assumption.
    unfold replace_spacing. rewrite G1, G2. reflexivity.
  - apply v1_spacing_exists.
Qed.

Lemma v1_font_shape prev s m :
  match_at FONT_RE prev s = Some m ->
  exists ds,
    ds <> [] /\ forallb is_digit ds = true /\
    whole m = declaration (txt "fontSize") ds /\
    group m 1 = Ok (Some ds).
Proof.
  intros H. apply match_at_den in H. destruct H as (st' & D & E & G & A).
  unfold FONT_RE in D.
  apply den_Seq in D. destruct D as (st1 & D1 & D).
  apply den_Seq in D. destruct D as (st2 & D2 & D3).
  apply den_Lit in D1. destruct D1 as (E1 & C1 & _).
  apply den_Group in D2. destruct D2 as (ds & st3 & D2 & E2 & R2 & _ & C2).
  apply den_Plus_Class in D2. destruct D2 as (ds' & NE & F & E2' & C2' & _).
  rewrite E2' in E2. apply app_inv_tail in E2. subst ds'.
  apply den_Char in D3. destruct D3 as (E3 & C3 & _).
  exists ds. repeat split; auto.
  - cbn [rest] in E1. rewrite E1, E2', <- R2, E3 in E.
    change (","%char :: rest st') with (txt "," ++ rest st') in E.
    rewrite !app_assoc in E. apply app_inv_tail in E.
    unfold declaration. rewrite <- E, <- !app_assoc. reflexivity.
  - unfold group. cbn [Nat.eqb]. rewrite A. cbn.
    rewrite G, C3, C2. cbn. reflexivity.
Qed.

Lemma v1_font_exists prev name ds t :
  In name [txt "fontSize"] -> ds <> [] -> forallb is_digit ds = true ->
  match_at FONT_RE prev (declaration name ds ++ t) <> None.
Proof.
  intros [<-|[]] N D. unfold declaration. rewrite <- !app_assoc.
  set (t3 := txt "," ++ t).
  set (t2 := ds ++ t3).
  set (p2 := last_of prev (txt "fontSize: ")).
  set (p3 := last_of p2 ds).
  apply (match_at_exists _ _ _ (MState (Some ","%char) t [(1, ds)])).
  unfold FONT_RE.
  apply (DSeq _ _ _ (MState p2 t2 [])).
  { apply (Lit_den (txt "fontSize: ")
             (MState prev (txt "fontSize" ++ txt ": " ++ t2) []) t2).
    reflexivity. }
  apply (DSeq _ _ _ (MState p3 t3 [(1, ds)])).
  { apply (Group_den 1 _ (MState p2 t2 []) (MState p3 t3 []) ds).
    - apply (Plus_Class_den is_digit ds p2 t3 [] N D).
    - reflexivity. }
  apply Char_den.
Qed.

Lemma v1_font_pass s prev :
  sub_from FONT_RE replace_font_size prev s = Ok (one_pass font_table s).
Proof.
  apply declarations_pass; try (vm_compute; reflexivity).
  - intros prev' s' m H.
    destruct (v1_font_shape _ _ _ H) as (ds & N & D & W & G1).
    exists (txt "fontSize"), ds. repeat split; try assumption.
    + left. reflexivity.
    + unfold replace_font_size. rewrite G1. reflexivity.
  - apply v1_font_exists.
Qed.

(** A pattern that spells one literal is a pass with a table of one
    entry. *)
Lemma literal_pass r l new :
  l <> [] ->
  (forall st st', den r st st' -> rest st = l ++ rest st') ->
  (forall prev s', exists st', den r (MState prev (l ++ s') []) st') ->
  forall s prev, sub_from r (expand [TText new]) prev s = Ok (one_pass [(l, new)] s).
Proof.
  intros N Sound Complete. apply sub_is_one_pass.
  - intros prev s H. simpl. destruct (starts_with l s) eqn:S; [|reflexivity].
    exfalso. apply starts_with_app in S. destruct S as (t & ->).
    destruct (Complete prev t) as (st' & D).
    exact (match_at_none _ _ _ H _ D).
  - intros prev s m H.
    assert (W : whole m = l).
    { apply match_at_den in H. destruct H as (st' & D & E & _).
      apply Sound in D. cbn [rest] in D. rewrite D in E.
      apply app_inv_tail in E. symmetry. exact E. }
    split; [rewrite W; exact N|].
    left. exists new. split.
    + destruct (match_at_split _ _ _ _ H) as (t & ->). rewrite W. simpl.
      rewrite starts_with_self_app. reflexivity.
    + unfold expand. simpl. rewrite app_nil_r. reflexivity.
Qed.

Lemma v1_radius_pass s prev :
  sub_from RADIUS_RE (expand [TText RADIUS_NEW]) prev s = Ok (one_pass radius_table s).
Proof.
  apply literal_pass.
  - discriminate.
  - intros st st' D. apply den_Lit in D. tauto.
  - intros prev' s'. eexists. apply Lit_den. reflexivity.
Qed.

Lemma Rep_Char_Lit n c : Rep n (Char c) = Lit (repeat c n).
Proof. induction n as [|n IH]; simpl; [reflexivity|]. rewrite IH. reflexivity. Qed.

Lemma v1_size_pass n new s prev :
  sub_from (SIZE_RE n) (expand [TText new]) prev s =
  Ok (one_pass [(size_literal n, new)] s).
Proof.
  apply literal_pass.
  - discriminate.
  - intros st st' D. unfold SIZE_RE in D. rewrite Rep_Char_Lit in D.
    apply den_Seq in D. destruct D as (st1 & D1 & D2).
    apply den_Lit in D1. apply den_Lit in D2.
    destruct D1 as (E1 & _), D2 as (E2 & _).
    unfold size_literal. rewrite E1, E2, app_assoc. reflexivity.
  - intros prev' s'. unfold SIZE_RE, size_literal. rewrite Rep_Char_Lit.
    eexists. eapply DSeq.
    + apply Lit_den. cbn [rest]. rewrite <- app_assoc. reflexivity.
    + apply Lit_den. reflexivity.
Qed.

(** The substitution on [gap] raises as soon as its pattern matches. *)
Lemma mapM_raising repl e ps :
  (forall m, In (Hit m) ps -> repl m = Raise e) ->
  mapM (piece_out repl) ps =
  if existsb is_hit ps then Raise e else Ok (map piece_src ps).
Proof.
  induction ps as [|p ps IH]; intros H; [reflexivity|].
  destruct p as [c|m]; simpl.
  - rewrite IH by (intros m I; apply H; right; exact I).
    destruct (existsb is_hit ps); reflexivity.
  - rewrite (H m) by (left; reflexivity). reflexivity.
Qed.

Lemma v1_gap_raises s :
  re_sub GAP_RE replace_spacing s =
  if re_search GAP_RE s then Raise IndexError else Ok s.
Proof.
  unfold re_sub, re_search.
  rewrite (mapM_raising replace_spacing IndexError).
  - change (fun p => match p with Hit _ => true | Keep _ => false end) with is_hit.
    destruct (existsb is_hit (pieces GAP_RE 0 None s)); [reflexivity|].
    simpl. rewrite pieces_source. reflexivity.
  - intros m I. apply hit_attempt in I. destruct I as (prev & s' & H).
    apply match_at_den in H. destruct H as (st' & _ & _ & _ & A).
    unfold replace_spacing, group. cbn [Nat.eqb]. rewrite A. reflexivity.
Qed.

(** The rewriter of [update-styles.py]: it raises when a [gap]
    declaration is left after the first two passes, and is otherwise one
    pass with the table of all its literals. *)
Theorem v1_rewriter_one_pass c :
  add_tablet_specific_styles c =
  if re_search GAP_RE (one_pass (spacing_table ++ font_table) c)
  then Raise IndexError
  else Ok (one_pass v1_table c).
Proof.
  unfold add_tablet_specific_styles, radius_rule, size_rules.
  rewrite re_sub_from, v1_spacing_pass. cbn [bind].
  rewrite re_sub_from, v1_font_pass. cbn [bind].
  rewrite (one_pass_fusion spacing_table font_table) by (vm_compute; reflexivity).
  rewrite v1_gap_raises.
  destruct (re_search GAP_RE (one_pass (spacing_table ++ font_table) c));
    [reflexivity|].
  cbn [bind]. rewrite re_sub_from, v1_radius_pass. cbn [bind].
  rewrite (one_pass_fusion (spacing_table ++ font_table) radius_table)
    by (vm_compute; reflexivity).
  rewrite re_sub_from, v1_size_pass. cbn [bind].
  rewrite (one_pass_fusion ((spacing_table ++ font_table) ++ radius_table)
             [(size_literal 24, SIZE24_NEW)]) by (vm_compute; reflexivity).
  rewrite re_sub_from, v1_size_pass. cbn [bind].
  rewrite (one_pass_fusion
             (((spacing_table ++ font_table) ++ radius_table)
              ++ [(size_literal 24, SIZE24_NEW)])
             [(size_literal 20, SIZE20_NEW)]) by (vm_compute; reflexivity).
  unfold v1_table, size_table. rewrite <- !app_assoc. reflexivity.
Qed.

End V1Passes.

(* ================================================================= *)
(** ** [update-styles.py]: a second run, the order of the rules,
       occurrences *)

Section V1Results.

Import UpdateStyles.

Lemma v1_rewriter_returns c c' :
  add_tablet_specific_styles c = Ok c' -> c' = one_pass v1_table c.
Proof.
  rewrite v1_rewriter_one_pass.
  destruct (re_search GAP_RE _); [discriminate|]. congruence.
Qed.

Lemma v1_table_settled s : one_pass v1_table (one_pass v1_table s) = one_pass v1_table s.
Proof.
  apply quiet_id. apply settles_quiet. vm_compute. reflexivity.
Qed.

(** What the rewriter returns, it returns again or raises on. *)
Lemma v1_rewriter_twice c c' :
  add_tablet_specific_styles c = Ok c' ->
  add_tablet_specific_styles c' = Ok c' \/
  exists e, add_tablet_specific_styles c' = Raise e.
Proof.
  intros H. apply v1_rewriter_returns in H. subst c'.
  rewrite (v1_rewriter_one_pass (one_pass v1_table c)).
  destruct (re_search GAP_RE _).
  - right. eauto.
  - left. rewrite v1_table_settled. reflexivity.
Qed.

(** A second run of [process_file] reports no change and writes
    nothing. *)
Lemma v1_second_run fs p :
  changed (process_file (fs_after (process_file fs p)) p) = false /\
  fs_after (process_file (fs_after (process_file fs p)) p) = fs_after (process_file fs p).
Proof.
  assert (Same : forall pr, process_file fs p = (false, fs, pr) ->
            changed (process_file (fs_after (process_file fs p)) p) = false /\
            fs_after (process_file (fs_after (process_file fs p)) p)
            = fs_after (process_file fs p)).
  { intros pr E. rewrite E. cbn [fs_after fst snd]. rewrite E. auto. }
  destruct (read_text fs p) as [c|e] eqn:R.
  2:{ eapply Same. apply v1_read_fails. exact R. }
  destruct (contains STYLE_MARKER c) eqn:M.
  2:{ eapply Same. eapply v1_gate_no_marker; eassumption. }
  destruct (le_lt_dec (count TABLET_MARKER c) 5) as [T|T].
  2:{ eapply Same. eapply v1_gate_converted; eassumption. }
  pose proof (v1_gate_open add_tablet_specific_styles fs p c R M T) as E1.
  fold process_file in E1.
  destruct (add_tablet_specific_styles c) as [c'|e] eqn:E.
  2:{ eapply Same. exact E1. }
  cbn [outcome] in E1. destruct (text_eqb c' c) eqn:Q.
  { eapply Same. exact E1. }
  destruct (write_text fs p c') as [fs'|e] eqn:W.
  2:{ eapply Same. exact E1. }
  rewrite E1. cbn [fs_after fst snd].
  assert (R' : read_text fs' p = Ok c').
  { unfold write_text in W. destruct (writable (fs p)); [|discriminate].
    inversion W; subst fs'. unfold read_text. rewrite text_eqb_refl. reflexivity. }
  unfold process_file.
  destruct (contains STYLE_MARKER c') eqn:M'.
  2:{ rewrite (v1_gate_no_marker _ fs' p c' R' M'). auto. }
  destruct (le_lt_dec (count TABLET_MARKER c') 5) as [T'|T'].
  2:{ rewrite (v1_gate_converted _ fs' p c' R' M' T'). auto. }
  rewrite (v1_gate_open _ fs' p c' R' M' T').
  destruct (v1_rewriter_twice c c' E) as [E'|(e & E')]; rewrite E'; cbn [outcome].
  - rewrite text_eqb_refl. auto.
  - auto.
Qed.

Lemma v1_radius_is_pass s : radius_rule s = Ok (one_pass radius_table s).
Proof. unfold radius_rule. rewrite re_sub_from. apply v1_radius_pass. Qed.

Lemma v1_sizes_are_pass s : size_rules s = Ok (one_pass size_table s).
Proof.
  unfold size_rules. rewrite re_sub_from, v1_size_pass. cbn [bind].
  rewrite re_sub_from, v1_size_pass. cbn [bind].
  rewrite (one_pass_fusion [(size_literal 24, SIZE24_NEW)]
             [(size_literal 20, SIZE20_NEW)]) by (vm_compute; reflexivity).
  reflexivity.
Qed.

(** The corner-radius rule and the icon-size rules can be applied in
    either order. *)
Lemma v1_rules_commute s :
  (x <- radius_rule s ;; size_rules x) = (x <- size_rules s ;; radius_rule x).
Proof.
  rewrite v1_radius_is_pass, v1_sizes_are_pass. cbn [bind].
  rewrite v1_radius_is_pass. unfold size_rules.
  rewrite re_sub_from, v1_size_pass. cbn [bind].
  rewrite re_sub_from, v1_size_pass. cbn [bind].
  rewrite (one_pass_fusion radius_table [(size_literal 24, SIZE24_NEW)])
    by (vm_compute; reflexivity).
  rewrite (one_pass_fusion (radius_table ++ [(size_literal 24, SIZE24_NEW)])
             [(size_literal 20, SIZE20_NEW)]) by (vm_compute; reflexivity).
  rewrite (one_pass_fusion size_table radius_table) by (vm_compute; reflexivity).
  rewrite <- app_assoc.
  rewrite (apart_swap radius_table size_table) by (vm_compute; reflexivity).
  reflexivity.
Qed.

(** Every literal of the spacing, font-size and corner-radius tables is
    replaced wherever it occurs. *)
Lemma v1_occurrence l r x y c' :
  In (l, r) (spacing_table ++ font_table ++ radius_table) ->
  add_tablet_specific_styles (x ++ l ++ y) = Ok c' ->
  c' = one_pass v1_table x ++ r ++ one_pass v1_table y.
Proof.
  intros I H. apply v1_rewriter_returns in H. subst c'.
  apply one_pass_occurrence.
  - vm_compute. reflexivity.
  - assert (A : forallb (fun e => stands_alone v1_table (fst e))
                  (spacing_table ++ font_table ++ radius_table) = true)
      by (vm_compute; reflexivity).
    rewrite forallb_forall in A. apply (A _ I).
  - unfold v1_table. rewrite !app_assoc. apply in_or_app. left.
    rewrite <- !app_assoc. exact I.
Qed.

End V1Results.

(* ================================================================= *)
(** ** The comma of [update-styles.py], continued *)

Section CommaNeeded.

Lemma starts_with_in l : forall s c,
  starts_with l s = true -> In c l -> In c s.
Proof.
  intros s c H I. apply starts_with_app in H. destruct H as (t & ->).
  apply in_or_app. left. exact I.
Qed.

Lemma in_skipn {A} (x : A) n l : In x (skipn n l) -> In x l.
Proof.
  intros H. rewrite <- (firstn_skipn n l). apply in_or_app. right. exact H.
Qed.

(** A text without the character that all the literals of a table hold is
    left as it is. *)
Lemma quiet_without L c s :
  forallb (fun e => existsb (ascii_eqb c) (fst e)) L = true ->
  ~ In c s -> quiet L s.
Proof.
  intros H N i.
  destruct (find_entry L (skipn i s)) as [[l r]|] eqn:F; [|reflexivity].
  exfalso. apply N.
  destruct (find_entry_some _ _ _ _ F) as (I & t & E).
  rewrite forallb_forall in H. specialize (H _ I). simpl in H.
  apply existsb_exists in H. destruct H as (x & Ix & Ex).
  apply ascii_eqb_eq in Ex. subst x.
  apply (in_skipn c i). rewrite E. apply in_or_app. left. exact Ix.
Qed.

(** C10: in [update-styles.py] the spacing and font-size substitutions
    only fire on a number that a comma follows at once: every match of
    their patterns is a name, a colon, a space, digits and a comma, and a
    text without commas is left as it is.  So [padding: 16] at the end of a
    block, with no comma, stays in [update-styles.py], while
    [update-styles-v2.py], whose patterns end on a word boundary, converts
    it. *)
Theorem v1_needs_the_comma :
  (forall content m,
      In (Hit m) (pieces UpdateStyles.SPACING_RE 0 None content) ->
      exists name ds,
        In name UpdateStyles.SPACING_NAMES /\ ds <> [] /\
        forallb is_digit ds = true /\
        whole m = name ++ txt ": " ++ ds ++ txt ",")
  /\ (forall content m,
        In (Hit m) (pieces UpdateStyles.FONT_RE 0 None content) ->
        exists ds,
          ds <> [] /\ forallb is_digit ds = true /\
          whole m = txt "fontSize" ++ txt ": " ++ ds ++ txt ",")
  /\ (forall content, ~ In ","%char content ->
        re_sub UpdateStyles.SPACING_RE UpdateStyles.replace_spacing content = Ok content /\
        re_sub UpdateStyles.FONT_RE UpdateStyles.replace_font_size content = Ok content)
  /\ UpdateStyles.add_tablet_specific_styles last_property = Ok last_property_v1
  /\ UpdateStylesV2.update_styles_in_stylesheet last_property = (last_property_v2, []).
Proof.
  split; [|split; [|split; [|split]]].
  - intros content m H. apply hit_attempt in H. destruct H as (prev & s & H).
    destruct (v1_spacing_shape _ _ _ H) as (name & ds & I & N & D & W & _).
    exists name, ds. auto.
  - intros content m H. apply hit_attempt in H. destruct H as (prev & s & H).
    destruct (v1_font_shape _ _ _ H) as (ds & N & D & W & _).
    exists ds. auto.
  - intros content N. rewrite !re_sub_from, v1_spacing_pass, v1_font_pass.
    rewrite !quiet_id; [split; reflexivity| |].
    + apply (quiet_without _ ","%char); [vm_compute; reflexivity|exact N].
    + apply (quiet_without _ ","%char); [vm_compute; reflexivity|exact N].
  - vm_compute. reflexivity.
  - vm_compute. reflexivity.
Qed.

(** A declaration without a comma: [update-styles.py] leaves it. *)
Lemma v1_needs_the_comma_witness :
  re_sub UpdateStyles.SPACING_RE UpdateStyles.replace_spacing (txt "{ padding: 16 }")
  = Ok (txt "{ padding: 16 }").
Proof.
  apply (proj1 (proj2 (proj2 v1_needs_the_comma)) (txt "{ padding: 16 }")).
  intros H. vm_compute in H.
  repeat (destruct H as [H|H]; [discriminate H|]). exact H.
Defined.

End CommaNeeded.

(* ================================================================= *)
(** ** Scans *)

Section Scans.

Lemma scan_skip mu x : forall prev t,
  scan_from mu (length x) prev (x ++ t) = scan mu (last_of prev x) t.
Proof.
  induction x as [|c x IH]; intros prev t; [reflexivity|].
  simpl. rewrite IH, last_of_cons. reflexivity.
Qed.

Lemma scan_hit mu prev M new t :
  M <> [] -> mu prev (M ++ t) = Some (M, new) ->
  scan mu prev (M ++ t) = new ++ scan mu (last_of prev M) t.
Proof.
  intros N H. destruct M as [|c M]; [contradiction|].
  unfold scan at 1. cbn [app scan_from]. cbn [app] in H. rewrite H. f_equal.
  replace (length (c :: M) - 1) with (length M) by (simpl; lia).
  rewrite scan_skip, last_of_cons. reflexivity.
Qed.

Lemma scan_miss mu prev c s :
  mu prev (c :: s) = None -> scan mu prev (c :: s) = c :: scan mu (Some c) s.
Proof. intros H. unfold scan. cbn [scan_from]. rewrite H. reflexivity. Qed.

Lemma scan_nil mu prev : scan mu prev [] = [].
Proof. reflexivity. Qed.

(** A substitution whose replacement never raises is a scan. *)
Lemma sub_is_scan r repl :
  (forall prev s m, match_at r prev s = Some m ->
     whole m <> [] /\ exists new, repl m = Ok new) ->
  forall s prev, sub_from r repl prev s = Ok (scan (rule_of r repl) prev s).
Proof.
  intros H.
  assert (G : forall n s prev, length s <= n ->
            sub_from r repl prev s = Ok (scan (rule_of r repl) prev s)).
  { induction n as [|n IH]; intros s prev Hn.
    - destruct s; [|simpl in Hn; lia]. apply sub_from_nil.
      destruct (match_at r prev []) as [m|] eqn:E; [|reflexivity].
      destruct (H _ _ _ E) as [N _].
      apply match_at_nonempty_only in E. contradiction.
    - destruct s as [|c s].
      { apply sub_from_nil.
        destruct (match_at r prev []) as [m|] eqn:E; [|reflexivity].
        destruct (H _ _ _ E) as [N _].
        apply match_at_nonempty_only in E. contradiction. }
      destruct (match_at r prev (c :: s)) as [m|] eqn:E.
      + destruct (H _ _ _ E) as [N (new & R)].
        destruct (match_at_split _ _ _ _ E) as (t & Es).
        assert (Lt : length t <= n).
        { apply (f_equal (@length ascii)) in Es. rewrite length_app in Es.
          simpl in Es, Hn. destruct (whole m); [contradiction|simpl in Es; lia]. }
        rewrite Es in E |- *.
        rewrite (sub_from_hit r repl prev (whole m) t m E eq_refl N), R.
        cbn [bind]. rewrite (IH t _ Lt). cbn [bind].
        rewrite (scan_hit (rule_of r repl) prev (whole m) new t N); [reflexivity|].
        unfold rule_of. rewrite E, R. reflexivity.
      + rewrite (sub_from_miss _ _ _ _ _ E).
        rewrite (IH s) by (simpl in Hn; lia). cbn [bind].
        rewrite scan_miss; [reflexivity|]. unfold rule_of. rewrite E. reflexivity. }
  intros s prev. apply (G (length s)). apply le_n.
Qed.

Lemma last_of_app prev x y : last_of prev (x ++ y) = last_of (last_of prev x) y.
Proof.
  unfold last_of. rewrite rev_app_distr. destruct (rev y); reflexivity.
Qed.

(** A scan can be cut where no match straddles the cut and no match
    before the cut depends on what follows it. *)
Lemma scan_cut mu y :
  proper mu ->
  forall x prev,
    (forall x1 x2, x = x1 ++ x2 -> x2 <> [] ->
       mu (last_of prev x1) (x2 ++ y) = mu (last_of prev x1) x2) ->
    scan mu prev (x ++ y) = scan mu prev x ++ scan mu (last_of prev x) y.
Proof.
  intros P.
  assert (G : forall n x prev, length x <= n ->
            (forall x1 x2, x = x1 ++ x2 -> x2 <> [] ->
               mu (last_of prev x1) (x2 ++ y) = mu (last_of prev x1) x2) ->
            scan mu prev (x ++ y) = scan mu prev x ++ scan mu (last_of prev x) y).
  { induction n as [|n IH]; intros x prev Hn H.
    - destruct x; [reflexivity|simpl in Hn; lia].
    - destruct x as [|c x]; [reflexivity|].
      pose proof (H [] (c :: x) eq_refl ltac:(discriminate)) as H0.
      cbn [last_of rev] in H0.
      destruct (mu prev (c :: x)) as [[M new]|] eqn:E.
      + destruct (P _ _ _ _ E) as [N (t & Et)].
        rewrite Et in E, H0 |- *. rewrite <- app_assoc in H0 |- *.
        rewrite (scan_hit _ _ _ _ _ N H0), (scan_hit _ _ _ _ _ N E).
        rewrite <- app_assoc. f_equal.
        rewrite last_of_app. apply IH.
        * apply (f_equal (@length ascii)) in Et. rewrite length_app in Et.
          simpl in Et, Hn. destruct M; [contradiction|simpl in Et; lia].
        * intros x1 x2 E12 N2. rewrite <- last_of_app.
          apply H; [|exact N2]. rewrite Et, E12, app_assoc. reflexivity.
      + cbn [app] in H0 |- *.
        rewrite (scan_miss _ _ _ _ H0), (scan_miss _ _ _ _ E).
        cbn [app]. f_equal. rewrite last_of_cons. apply IH.
        * simpl in Hn. lia.
        * intros x1 x2 E12 N2.
          rewrite <- last_of_cons with (prev := prev).
          apply (H (c :: x1) x2); [|exact N2]. rewrite E12. reflexivity. }
  intros x prev. apply (G (length x)). apply le_n.
Qed.

(** A scan goes through a text in which the matcher finds nothing. *)
Lemma scan_through mu y :
  forall x prev,
    (forall x1 x2, x = x1 ++ x2 -> x2 <> [] ->
       mu (last_of prev x1) (x2 ++ y) = None) ->
    scan mu prev (x ++ y) = x ++ scan mu (last_of prev x) y.
Proof.
  induction x as [|c x IH]; intros prev H; [reflexivity|].
  cbn [app]. rewrite scan_miss.
  - f_equal. rewrite last_of_cons. apply IH.
    intros x1 x2 E N. rewrite <- last_of_cons with (prev := prev).
    apply (H (c :: x1) x2); [rewrite E; reflexivity|exact N].
  - apply (H [] (c :: x)); [reflexivity|discriminate].
Qed.

End Scans.

(* ================================================================= *)
(** ** Rules of the shape [\b NAME : \s* K \b] *)

Section Characters.

Lemma digit_is_word c : is_digit c = true -> is_word c = true.
Proof. unfold is_digit, is_word. intros ->. reflexivity. Qed.

Lemma digit_not_space c : is_digit c = true -> is_space c = false.
Proof.
  destruct c as [[] [] [] [] [] [] [] []]; vm_compute; congruence.
Qed.

Lemma word_not_space c : is_word c = true -> is_space c = false.
Proof.
  destruct c as [[] [] [] [] [] [] [] []]; vm_compute; congruence.
Qed.

Lemma span_unique (p : ascii -> bool) : forall a a' b b',
  forallb p a = true -> forallb p a' = true ->
  stops p b -> stops p b' ->
  a ++ b = a' ++ b' -> a = a' /\ b = b'.
Proof.
  induction a as [|c a IH]; intros [|c' a'] b b' Ha Ha' Sb Sb' E; simpl in *.
  - auto.
  - subst b. simpl in Sb. apply andb_prop in Ha'. destruct Ha'. congruence.
  - subst b'. simpl in Sb'. apply andb_prop in Ha. destruct Ha. congruence.
  - apply andb_prop in Ha, Ha'. destruct Ha, Ha'.
    injection E as -> E. destruct (IH a' b b') as [-> ->]; auto.
Qed.

Lemma app_eq_split {A} (a : list A) : forall b c d,
  a ++ b = c ++ d ->
  exists l, (a = c ++ l /\ d = l ++ b) \/ (c = a ++ l /\ b = l ++ d).
Proof.
  induction a as [|x a IH]; intros b c d E.
  - exists c. right. auto.
  - destruct c as [|y c].
    + exists (x :: a). left. simpl in *. auto.
    + simpl in E. injection E as -> E.
      destruct (IH _ _ _ E) as (l & [[-> ->]|[-> ->]]); exists l; auto.
Qed.

Lemma last_of_snoc prev x c : last_of prev (x ++ [c]) = Some c.
Proof. unfold last_of. rewrite rev_app_distr. reflexivity. Qed.

Lemma last_of_in prev w :
  w <> [] -> exists c, last_of prev w = Some c /\ In c w.
Proof.
  intros N. destruct (exists_last N) as (w' & c & ->).
  exists c. rewrite last_of_snoc. split; [reflexivity|].
  apply in_or_app. right. left. reflexivity.
Qed.

Lemma forallb_in (p : ascii -> bool) w c :
  forallb p w = true -> In c w -> p c = true.
Proof. intros H I. rewrite forallb_forall in H. auto. Qed.

(** In a text made of word characters, a colon, and then spaces and
    digits, a character that follows a non-word character is a space or
    a digit. *)
Lemma after_the_name A B u c d v :
  forallb is_word A = true ->
  A ++ txt ":" ++ B = u ++ c :: d :: v ->
  is_word c = false -> In d B.
Proof.
  intros HA E Hc.
  destruct (app_eq_split _ _ _ _ E) as (l & [[-> E2]|[-> E2]]).
  - destruct l as [|c' l].
    + simpl in E2. injection E2 as _ <-. left. reflexivity.
    + simpl in E2. injection E2 as <- _.
      rewrite forallb_app in HA. apply andb_prop in HA. destruct HA as [_ HA].
      simpl in HA. apply andb_prop in HA. destruct HA. congruence.
  - destruct l as [|c' l].
    + simpl in E2. injection E2 as _ ->. left. reflexivity.
    + simpl in E2. injection E2 as _ ->.
      apply in_or_app. right. right. left. reflexivity.
Qed.

Lemma starts_with_more p : forall s t,
  starts_with p s = true -> starts_with p (s ++ t) = true.
Proof.
  intros s t H. apply starts_with_app in H. destruct H as (u & ->).
  rewrite <- app_assoc. apply starts_with_app. eauto.
Qed.

End Characters.

Section Families.

Variable ALL : list text.
Hypothesis Apart : names_apart ALL = true.
Hypothesis Names : forallb name_ok ALL = true.

Lemma name_word n : In n ALL -> forallb is_word n = true.
Proof.
  intros I. rewrite forallb_forall in Names. specialize (Names n I).
  unfold name_ok in Names. destruct n; [discriminate|].
  apply andb_prop in Names. tauto.
Qed.

Lemma name_head n :
  In n ALL ->
  exists c n', n = c :: n' /\ is_word c = true /\ is_digit c = false
               /\ is_space c = false.
Proof.
  intros I. pose proof (name_word n I) as W.
  rewrite forallb_forall in Names. specialize (Names n I).
  unfold name_ok in Names. destruct n as [|c n']; [discriminate|].
  apply andb_prop in Names. destruct Names as [D _].
  simpl in W. apply andb_prop in W. destruct W as [W _].
  exists c, n'. repeat split; auto.
  - destruct (is_digit c); [discriminate|reflexivity].
  - apply word_not_space. exact W.
Qed.

Lemma key_shape K :
  key_ok K = true ->
  forallb is_digit K = true /\ exists d K', K = d :: K' /\ is_digit d = true.
Proof.
  unfold key_ok. destruct K as [|d K']; [discriminate|]. intros H.
  split; [exact H|]. exists d, K'. simpl in H. apply andb_prop in H.
  tauto.
Qed.

Lemma key_last K A q :
  key_ok K = true ->
  exists d, last_of q (A ++ K) = Some d /\ is_digit d = true.
Proof.
  intros H. destruct (key_shape K H) as [D (d & K' & E)].
  assert (N : K <> []) by (destruct E as [-> _]; discriminate).
  destruct (last_of_in (last_of q A) K N) as (c & L & I).
  exists c. rewrite last_of_app. split; [exact L|].
  apply (forallb_in _ _ _ D I).
Qed.

Lemma not_word_not_digit c : is_word c = false -> is_digit c = false.
Proof.
  intros W. destruct (is_digit c) eqn:D; [|reflexivity].
  apply digit_is_word in D. congruence.
Qed.

Lemma stops_after (p : ascii -> bool) (t : text) :
  (forall c, p c = true -> is_word c = true) ->
  word_opt (hd_error t) = false -> stops p t.
Proof.
  intros H W. destruct t as [|c t]; simpl; [exact I|].
  simpl in W. destruct (p c) eqn:E; [|reflexivity].
  apply H in E. congruence.
Qed.

(** At one cursor there is at most one site, whatever the rule. *)
Lemma site_unique ns ns' K K' p s n ws t n' ws' t' :
  incl ns ALL -> incl ns' ALL -> key_ok K = true -> key_ok K' = true ->
  site ns K p s n ws t -> site ns' K' p s n' ws' t' ->
  n = n' /\ ws = ws' /\ K = K' /\ t = t'.
Proof.
  intros I I' HK HK' (In1 & _ & E & Ws & T) (In1' & _ & E' & Ws' & T').
  assert (n = n') as <-.
  { apply (names_apart_in ALL); auto.
    apply (compatible_of_starts _ _ s); apply starts_with_app.
    - exists (ws ++ K ++ t). rewrite E, <- app_assoc. reflexivity.
    - exists (ws' ++ K' ++ t'). rewrite E', <- app_assoc. reflexivity. }
  rewrite E in E'. apply app_inv_head in E'. apply app_inv_head in E'.
  destruct (key_shape K HK) as [D (d & K0 & -> & Hd)].
  destruct (key_shape K' HK') as [D' (d' & K0' & -> & Hd')].
  assert (S1 : stops is_space ((d :: K0) ++ t))
    by (simpl; apply digit_not_space; exact Hd).
  assert (S1' : stops is_space ((d' :: K0') ++ t'))
    by (simpl; apply digit_not_space; exact Hd').
  destruct (span_unique is_space ws ws' _ _ Ws Ws' S1 S1' E') as [-> E2].
  assert (S2 : stops is_digit t)
    by (apply stops_after; [apply digit_is_word|exact T]).
  assert (S2' : stops is_digit t')
    by (apply stops_after; [apply digit_is_word|exact T']).
  destruct (span_unique is_digit _ _ _ _ D D' S2 S2' E2) as [-> ->].
  auto.
Qed.

Section OneRule.

Variables (mu : matcher) (ns : list text) (K tok : text).
Hypothesis F : family mu ns K tok.
Hypothesis Sub : incl ns ALL.
Hypothesis Key : key_ok K = true.

Lemma fam_proper : proper mu.
Proof.
  intros p s M new H. apply F in H. destruct H as (n & ws & t & S & -> & _).
  destruct S as (I & _ & -> & _).
  destruct (name_head n (Sub _ I)) as (c & n' & -> & _).
  split; [discriminate|]. exists t. rewrite <- !app_assoc. reflexivity.
Qed.

Lemma fam_starts p s M new :
  mu p s = Some (M, new) ->
  word_opt p = false /\
  exists n, In n ns /\ starts_with (n ++ txt ":") s = true.
Proof.
  intros H. apply F in H. destruct H as (n & ws & t & S & _).
  destruct S as (I & W & -> & _). split; [exact W|].
  exists n. split; [exact I|]. apply starts_with_app.
  exists (ws ++ K ++ t). rewrite <- app_assoc. reflexivity.
Qed.

(** The matcher gives the same answer at two cursors that have the same
    sites. *)
Lemma fam_same p s p' s' :
  (forall n ws t, site ns K p s n ws t -> exists t', site ns K p' s' n ws t') ->
  (forall n ws t, site ns K p' s' n ws t -> exists t', site ns K p s n ws t') ->
  mu p s = mu p' s'.
Proof.
  intros H1 H2.
  destruct (mu p s) as [[M new]|] eqn:E.
  - apply F in E. destruct E as (n & ws & t & S & -> & ->).
    destruct (H1 _ _ _ S) as (t' & S'). symmetry. apply F.
    exists n, ws, t'. auto.
  - destruct (mu p' s') as [[M new]|] eqn:E'; [|reflexivity].
    apply F in E'. destruct E' as (n & ws & t & S & -> & ->).
    destruct (H2 _ _ _ S) as (t' & S').
    assert (X : mu p s = Some (n ++ txt ":" ++ ws ++ K, n ++ txt ": " ++ tok))
      by (apply F; exists n, ws, t'; auto).
    congruence.
Qed.

Lemma fam_none_word p s : word_opt p = true -> mu p s = None.
Proof.
  intros W. destruct (mu p s) as [[M new]|] eqn:E; [|reflexivity].
  apply fam_starts in E. destruct E. congruence.
Qed.

Lemma fam_none_head p d y :
  is_word d = false \/ is_digit d = true -> mu p (d :: y) = None.
Proof.
  intros W. destruct (mu p (d :: y)) as [[M new]|] eqn:E; [|reflexivity].
  apply fam_starts in E. destruct E as [_ (n & I & S)].
  destruct (name_head n (Sub _ I)) as (c & n' & -> & Wc & Dc & _).
  simpl in S. apply andb_prop in S. destruct S as [S _].
  apply ascii_eqb_eq in S. subst d. destruct W; congruence.
Qed.

Lemma fam_none_nil p : mu p [] = None.
Proof.
  destruct (mu p []) as [[M new]|] eqn:E; [|reflexivity].
  apply fam_proper in E. destruct E as [N (t & E)].
  destruct M; [contradiction|discriminate].
Qed.

Lemma site_end x c n ws :
  x ++ [c] = n ++ txt ":" ++ ws ++ K -> is_word c = true.
Proof.
  intros E. destruct (key_last K ((n ++ txt ":") ++ ws) None Key) as (d & L & D).
  rewrite <- !app_assoc in L. rewrite <- E, last_of_snoc in L.
  injection L as ->. apply digit_is_word. exact D.
Qed.

(** A non-word character at the end of the text takes no part in a
    match. *)
Lemma fam_snoc p x c : is_word c = false -> mu p (x ++ [c]) = mu p x.
Proof.
  intros W. apply fam_same.
  - intros n ws t (I & Wp & E & Ws & T).
    destruct t as [|d t] using rev_ind.
    + rewrite !app_nil_r in E. apply site_end in E. congruence.
    + clear IHt.
      replace (n ++ txt ":" ++ ws ++ K ++ t ++ [d])
        with ((n ++ txt ":" ++ ws ++ K ++ t) ++ [d]) in E
        by (rewrite <- !app_assoc; reflexivity).
      apply app_inj_tail in E. destruct E as [-> ->].
      exists t. repeat split; auto.
      destruct t; [reflexivity|exact T].
  - intros n ws t (I & Wp & E & Ws & T).
    exists (t ++ [c]). repeat split; auto.
    + rewrite E, <- !app_assoc. reflexivity.
    + destruct t; [simpl; exact W|exact T].
Qed.

(** After a non-word character, a text that starts with a letter takes
    no part in the matches that start before it. *)
Lemma fam_left p x c z :
  is_word c = false ->
  (forall d z', z = d :: z' -> is_space d = false /\ is_digit d = false) ->
  mu p ((x ++ [c]) ++ z) = mu p (x ++ [c]).
Proof.
  intros W Hz. apply fam_same.
  - intros n ws t (I & Wp & E & Ws & T).
    replace (n ++ txt ":" ++ ws ++ K ++ t)
      with ((n ++ txt ":" ++ ws ++ K) ++ t) in E
      by (rewrite <- !app_assoc; reflexivity).
    destruct (app_eq_split _ _ _ _ E) as (l & [[E1 E2]|[E1 E2]]).
    + destruct l as [|d l].
      * rewrite app_nil_r in E1. apply site_end in E1. congruence.
      * exists (d :: l). repeat split; auto.
        -- rewrite E1, <- !app_assoc. reflexivity.
        -- rewrite E2 in T. exact T.
    + destruct l as [|d l].
      * rewrite app_nil_r in E1. symmetry in E1. apply site_end in E1.
        congruence.
      * exfalso. rewrite <- app_assoc in E1. cbn [app] in E1.
        assert (Id : In d (ws ++ K)).
        { apply (after_the_name n (ws ++ K) x c d l).
          - apply name_word, Sub, I.
          - rewrite E1. reflexivity.
          - exact W. }
        destruct (Hz d (l ++ t) E2) as [Sd Dd].
        destruct (key_shape K Key) as [DK _].
        apply in_app_or in Id. destruct Id as [Id|Id].
        -- apply (forallb_in _ _ _ Ws) in Id. congruence.
        -- apply (forallb_in _ _ _ DK) in Id. congruence.
  - intros n ws t (I & Wp & E & Ws & T).
    exists (t ++ z). repeat split; auto.
    + rewrite E, <- !app_assoc. reflexivity.
    + destruct t as [|d t]; [|exact T].
      rewrite app_nil_r in E. apply site_end in E. congruence.
Qed.

(** The scan of a text that ends with a non-word character ends with that
    character, and the scan of a text that starts with one starts with
    it. *)
Lemma scan_snoc p x c :
  is_word c = false -> scan mu p (x ++ [c]) = scan mu p x ++ [c].
Proof.
  intros W. rewrite (scan_cut mu [c] fam_proper).
  - f_equal. rewrite scan_miss; [reflexivity|].
    apply fam_none_head. left. exact W.
  - intros x1 x2 _ _. apply fam_snoc. exact W.
Qed.

Lemma scan_head p d y :
  is_word d = false -> scan mu p (d :: y) = d :: scan mu (Some d) y.
Proof.
  intros W. apply scan_miss. apply fam_none_head. left. exact W.
Qed.

Lemma scan_closed_right p y :
  closed_right y -> scan mu p y = scan mu None y.
Proof.
  destruct y as [|d y]; [reflexivity|]. unfold closed_right. simpl. intros W.
  rewrite !scan_head by exact W. reflexivity.
Qed.

Lemma closed_right_scan y : closed_right y -> closed_right (scan mu None y).
Proof.
  destruct y as [|d y]; [intros _; reflexivity|].
  unfold closed_right. simpl. intros W. rewrite scan_head by exact W. exact W.
Qed.

Lemma closed_left_cases x :
  closed_left x -> x = [] \/ exists x' c, x = x' ++ [c] /\ is_word c = false.
Proof.
  intros C. destruct x as [|d x] using rev_ind; [left; reflexivity|].
  right. exists x, d. split; [reflexivity|].
  unfold closed_left in C. rewrite last_of_snoc in C. exact C.
Qed.

Lemma closed_left_scan x : closed_left x -> closed_left (scan mu None x).
Proof.
  intros C. destruct (closed_left_cases x C) as [->|(x' & c & -> & W)].
  - reflexivity.
  - rewrite scan_snoc by exact W. unfold closed_left.
    rewrite last_of_snoc. exact W.
Qed.

Lemma scan_left_cut x z :
  closed_left x ->
  (forall d z', z = d :: z' -> is_space d = false /\ is_digit d = false) ->
  scan mu None (x ++ z) = scan mu None x ++ scan mu (last_of None x) z.
Proof.
  intros C Hz. destruct (closed_left_cases x C) as [->|(x' & c & -> & W)].
  - reflexivity.
  - apply (scan_cut mu z fam_proper). intros x1 x2 E N.
    destruct x2 as [|d x2] using rev_ind; [contradiction|]. clear IHx2.
    rewrite app_assoc in E. apply app_inj_tail in E. destruct E as [_ <-].
    apply fam_left; assumption.
Qed.

Lemma regroup (n ws k y : text) :
  (n ++ txt ":" ++ ws ++ k) ++ y = n ++ txt ":" ++ ws ++ k ++ y.
Proof. rewrite <- !app_assoc. reflexivity. Qed.

(** At a site of the rule, the scan writes the token. *)
Lemma scan_site_hit p n ws y :
  word_opt p = false -> In n ns -> forallb is_space ws = true ->
  closed_right y ->
  scan mu p ((n ++ txt ":" ++ ws ++ K) ++ y)
  = (n ++ txt ": " ++ tok) ++ scan mu None y.
Proof.
  intros W I Ws C.
  rewrite (scan_hit mu p _ (n ++ txt ": " ++ tok)).
  - f_equal. apply scan_closed_right. exact C.
  - destruct (name_head n (Sub _ I)) as (c & n' & -> & _). discriminate.
  - apply F. exists n, ws, y. repeat split; auto. apply regroup.
Qed.

(** At a site of another rule, the scan copies the text. *)
Lemma scan_site_pass p n ws K0 y :
  word_opt p = false -> In n ALL -> key_ok K0 = true ->
  forallb is_space ws = true -> closed_right y ->
  ~ (In n ns /\ K0 = K) ->
  scan mu p ((n ++ txt ":" ++ ws ++ K0) ++ y)
  = (n ++ txt ":" ++ ws ++ K0) ++ scan mu None y.
Proof.
  intros W I HK0 Ws C Other.
  rewrite (scan_through mu y).
  - f_equal. apply scan_closed_right. exact C.
  - intros x1 x2 E N.
    destruct (mu (last_of p x1) (x2 ++ y)) as [[M new]|] eqn:H; [|reflexivity].
    exfalso. destruct x1 as [|c x1] using rev_ind.
    + simpl in E, H. subst x2. apply F in H.
      destruct H as (n' & ws' & t' & S & _).
      assert (S0 : site [n] K0 p ((n ++ txt ":" ++ ws ++ K0) ++ y) n ws y).
      { repeat split; auto; [left; reflexivity|apply regroup]. }
      assert (I0 : incl [n] ALL) by (intros a [<-|[]]; exact I).
      destruct (site_unique _ _ _ _ _ _ _ _ _ _ _ _ Sub I0 Key HK0 S S0)
        as (-> & _ & <- & _).
      apply Other. destruct S as (In1 & _). auto.
    + clear IHx1. rewrite last_of_snoc in H.
      destruct (fam_starts _ _ _ _ H) as [Wc (n' & In' & St)].
      destruct (name_head n' (Sub _ In')) as (h & n0 & -> & Wh & Dh & Sh).
      destruct x2 as [|d x2]; [contradiction|].
      simpl in St. apply andb_prop in St. destruct St as [St _].
      apply ascii_eqb_eq in St. subst d.
      assert (Ih : In h (ws ++ K0)).
      { apply (after_the_name n (ws ++ K0) x1 c h x2).
        - apply name_word, I.
        - rewrite E, <- app_assoc. reflexivity.
        - exact Wc. }
      destruct (key_shape K0 HK0) as [DK _].
      apply in_app_or in Ih. destruct Ih as [Ih|Ih].
      * apply (forallb_in _ _ _ Ws) in Ih. congruence.
      * apply (forallb_in _ _ _ DK) in Ih. congruence.
Qed.

(** A name that starts inside a text and ends at a closed end of it ends
    there with its colon. *)
Lemma head_into n' x2 y :
  In n' ALL -> closed_right y ->
  starts_with (n' ++ txt ":") (x2 ++ y) = true ->
  starts_with (n' ++ txt ":") (x2 ++ txt ":") = true.
Proof.
  intros I C St.
  destruct (starts_with_split _ _ _ St) as [H|(l2 & E & N & H)].
  - apply starts_with_more. exact H.
  - destruct l2 as [|e l2] using rev_ind; [contradiction|]. clear IHl2.
    rewrite app_assoc in E. apply app_inj_tail in E. destruct E as [E <-].
    destruct l2 as [|a l2].
    + rewrite app_nil_r in E. subst n'. apply starts_with_app.
      exists []. rewrite app_nil_r. reflexivity.
    + exfalso. destruct y as [|d y]; [discriminate|].
      simpl in H. apply andb_prop in H. destruct H as [H _].
      apply ascii_eqb_eq in H. subst d.
      unfold closed_right in C. simpl in C.
      assert (Wa : is_word a = true).
      { apply (forallb_in _ _ _ (name_word n' I)). rewrite E.
        apply in_or_app. right. left. reflexivity. }
      congruence.
Qed.

(** The scan copies a token that an earlier rule wrote. *)
Lemma scan_token_pass p n tok0 y :
  In n ALL -> token_ok tok0 = true ->
  head_free ALL (n ++ txt ": " ++ tok0) = true -> closed_right y ->
  scan mu p ((n ++ txt ": " ++ tok0) ++ y)
  = (n ++ txt ": " ++ tok0) ++ scan mu None y.
Proof.
  intros I HT HF C.
  rewrite (scan_through mu y).
  - f_equal. apply scan_closed_right. exact C.
  - intros x1 x2 E N.
    destruct (mu (last_of p x1) (x2 ++ y)) as [[M new]|] eqn:H; [|reflexivity].
    exfalso. destruct x1 as [|c x1].
    + cbn [app last_of rev] in E, H. subst x2. apply F in H.
      destruct H as (n' & ws' & t' & (In' & _ & E & Ws & _) & _).
      assert (n = n') as <-.
      { apply (names_apart_in ALL); auto.
        apply (compatible_of_starts _ _ ((n ++ txt ": " ++ tok0) ++ y));
          apply starts_with_app.
        - exists (txt " " ++ tok0 ++ y). rewrite <- !app_assoc. reflexivity.
        - exists (ws' ++ K ++ t'). rewrite E, <- app_assoc. reflexivity. }
      rewrite <- !app_assoc in E. apply app_inv_head in E.
      change (txt ": " ++ tok0 ++ y) with (txt ":" ++ txt " " ++ tok0 ++ y) in E.
      apply app_inv_head in E.
      destruct (key_shape K Key) as [_ (d & K' & -> & Hd)].
      unfold token_ok in HT. destruct tok0 as [|h tok0]; [discriminate|].
      apply andb_prop in HT. destruct HT as [Hh1 Hh2].
      destruct ws' as [|c ws'].
      * simpl in E. injection E as <- _. vm_compute in Hd. discriminate.
      * simpl in E. injection E as _ E. destruct ws' as [|c2 ws'].
        -- simpl in E. injection E as -> _. rewrite Hd in Hh1. discriminate.
        -- simpl in E. injection E as -> _. simpl in Ws.
           apply andb_prop in Ws. destruct Ws as [_ Ws].
           apply andb_prop in Ws. destruct Ws as [Ws _].
           rewrite Ws in Hh2. discriminate.
    + destruct (fam_starts _ _ _ _ H) as [_ (n' & In' & St)].
      apply (head_into n' x2 y (Sub _ In') C) in St.
      unfold head_free in HF. rewrite E in HF. cbn [app tl] in HF.
      apply for_suffixes_app in HF; [|exact N].
      rewrite forallb_forall in HF. specialize (HF n' (Sub _ In')).
      rewrite St in HF. discriminate.
Qed.

End OneRule.

Lemma mem_in n l : mem n l = true <-> In n l.
Proof.
  unfold mem. rewrite existsb_exists. split.
  - intros (m & I & E). apply text_eqb_eq in E. subst m. exact I.
  - intros I. exists n. split; [exact I|apply text_eqb_refl].
Qed.

Lemma rule_ok_parts d :
  rule_ok ALL d = true ->
  incl (r_names d) ALL /\ key_ok (r_key d) = true /\
  token_ok (r_token d) = true /\
  forall n, In n (r_names d) ->
    head_free ALL (n ++ txt ": " ++ r_token d) = true.
Proof.
  unfold rule_ok. intros H.
  apply andb_prop in H. destruct H as [H H4].
  apply andb_prop in H. destruct H as [H H3].
  apply andb_prop in H. destruct H as [H1 H2].
  rewrite forallb_forall in H1, H4. repeat split; auto.
  intros n I. apply mem_in, H1, I.
Qed.

Lemma letter_head n z :
  In n ALL ->
  forall d z', n ++ z = d :: z' -> is_space d = false /\ is_digit d = false.
Proof.
  intros I d z' E. destruct (name_head n I) as (c & n' & -> & _ & D & S).
  simpl in E. injection E as <- _. auto.
Qed.

(** A token that an earlier rule wrote goes through the later rules. *)
Lemma scans_token mus ds :
  families mus ds -> forallb (rule_ok ALL) ds = true ->
  forall n tok0 x y,
    In n ALL -> token_ok tok0 = true ->
    head_free ALL (n ++ txt ": " ++ tok0) = true ->
    closed_left x -> closed_right y ->
    scans mus (x ++ (n ++ txt ": " ++ tok0) ++ y)
    = scans mus x ++ (n ++ txt ": " ++ tok0) ++ scans mus y.
Proof.
  induction 1 as [|mu d mus ds F _ IH]; intros Ok n tok0 x y I HT HF Cx Cy.
  - reflexivity.
  - simpl in Ok. apply andb_prop in Ok. destruct Ok as [Od Ok].
    destruct (rule_ok_parts d Od) as (Sub & Key & _).
    cbn [scans].
    rewrite (scan_left_cut mu _ _ _ F Sub Key x _ Cx)
      by (rewrite <- app_assoc; apply letter_head; exact I).
    rewrite (scan_token_pass mu _ _ _ F Sub Key _ n tok0 y I HT HF Cy).
    apply IH; auto.
    + apply (closed_left_scan mu _ _ _ F Sub Key). exact Cx.
    + apply (closed_right_scan mu _ _ _ F Sub). exact Cy.
Qed.

Lemma applies_iff d n K0 :
  applies d n K0 = true <-> In n (r_names d) /\ K0 = r_key d.
Proof.
  unfold applies. rewrite andb_true_iff, mem_in, text_eqb_eq.
  split; intros [A B]; auto.
Qed.

(** What a sequence of rules does to a property and its number: the first
    rule that applies writes its token, and the text around is scanned on
    its own. *)
Lemma scans_site mus ds :
  families mus ds -> forallb (rule_ok ALL) ds = true ->
  forall n ws K0 x y,
    In n ALL -> key_ok K0 = true -> forallb is_space ws = true ->
    closed_left x -> closed_right y ->
    scans mus (x ++ (n ++ txt ":" ++ ws ++ K0) ++ y)
    = scans mus x
      ++ match fires ds n K0 with
         | Some tok0 => n ++ txt ": " ++ tok0
         | None => n ++ txt ":" ++ ws ++ K0
         end
      ++ scans mus y.
Proof.
  induction 1 as [|mu d mus ds F Fs IH]; intros Ok n ws K0 x y I HK Ws Cx Cy.
  - reflexivity.
  - simpl in Ok. apply andb_prop in Ok. destruct Ok as [Od Ok].
    destruct (rule_ok_parts d Od) as (Sub & Key & HT & HF).
    cbn [scans fires].
    rewrite (scan_left_cut mu _ _ _ F Sub Key x _ Cx)
      by (rewrite <- app_assoc; apply letter_head; exact I).
    assert (Cx' := closed_left_scan mu _ _ _ F Sub Key x Cx).
    assert (Cy' := closed_right_scan mu _ _ _ F Sub y Cy).
    destruct (applies d n K0) eqn:A.
    + apply applies_iff in A. destruct A as [In1 ->].
      rewrite (scan_site_hit mu _ _ _ F Sub _ n ws y Cx In1 Ws Cy).
      apply (scans_token mus ds Fs Ok); auto.
    + rewrite (scan_site_pass mu _ _ _ F Sub Key _ n ws K0 y Cx I HK Ws Cy).
      * apply IH; auto.
      * intros [In1 E]. assert (applies d n K0 = true)
          by (apply applies_iff; auto). congruence.
Qed.

End Families.

(* ================================================================= *)
(** ** The patterns of [update-styles-v2.py] are rules of the family *)

Section FamilyRules.

Variable ALL : list text.
Hypothesis Apart : names_apart ALL = true.
Hypothesis Names : forallb name_ok ALL = true.

Lemma family_intro mu names K tok :
  incl names ALL -> key_ok K = true ->
  (forall p s M new, mu p s = Some (M, new) ->
     exists n ws t, site names K p s n ws t /\
                    M = n ++ txt ":" ++ ws ++ K /\
                    new = n ++ txt ": " ++ tok) ->
  (forall p s n ws t, site names K p s n ws t -> mu p s <> None) ->
  family mu names K tok.
Proof.
  intros Sub Key Fw Ex p s M new. split; [apply Fw|].
  intros (n & ws & t & S & -> & ->).
  destruct (mu p s) as [[M' new']|] eqn:E.
  - destruct (Fw _ _ _ _ E) as (n' & ws' & t' & S' & -> & ->).
    destruct (site_unique ALL Apart names names K K p s n ws t n' ws' t'
                Sub Sub Key Key S S') as (-> & -> & _).
    reflexivity.
  - exfalso. apply (Ex _ _ _ _ _ S). exact E.
Qed.

Lemma den_WordB st st' : den WordB st st' -> st' = st /\ at_boundary st = true.
Proof. intros D. inversion D; subst. auto. Qed.

Lemma ngroups_Lit w : ngroups (Lit w) = 0.
Proof. induction w as [|c w IH]; simpl; auto. Qed.

Lemma ngroups_AltL_Lit names : ngroups (AltL (map Lit names)) = 0.
Proof.
  induction names as [|n names IH]; [reflexivity|].
  destruct names as [|n' names].
  - apply ngroups_Lit.
  - change (ngroups (Alt (Lit n) (AltL (map Lit (n' :: names)))) = 0).
    cbn [ngroups]. rewrite IH, ngroups_Lit. reflexivity.
Qed.

(** The ends of a site, from the two word boundaries of the pattern. *)
Lemma boundary_before p n s :
  In n ALL -> at_boundary (MState p (n ++ s) []) = true -> word_opt p = false.
Proof.
  intros I B. destruct (name_head ALL Names n I) as (c & n' & -> & W & _).
  unfold at_boundary in B. cbn [before rest app hd_error word_opt] in B.
  rewrite W in B. destruct (word_opt p); [discriminate|reflexivity].
Qed.

Lemma boundary_after K q t c :
  key_ok K = true ->
  at_boundary (MState (last_of q K) t c) = true ->
  word_opt (hd_error t) = false.
Proof.
  intros Key B. destruct (key_last K [] q Key) as (d & L & D).
  cbn [app] in L. unfold at_boundary in B. cbn [before rest] in B.
  rewrite L in B. cbn [word_opt] in B. rewrite (digit_is_word d D) in B.
  destruct (word_opt (hd_error t)); [discriminate|reflexivity].
Qed.

Lemma grouped_forward names K tok p s M new :
  incl names ALL -> key_ok K = true ->
  rule_of (grouped_rule names K) (expand [TGroup 1; TText (txt ": " ++ tok)])
          p s = Some (M, new) ->
  exists n ws t, site names K p s n ws t /\
                 M = n ++ txt ":" ++ ws ++ K /\
                 new = n ++ txt ": " ++ tok.
Proof.
  intros Sub Key H. unfold rule_of in H.
  destruct (match_at (grouped_rule names K) p s) as [m|] eqn:E; [|discriminate].
  destruct (match_at_den _ _ _ _ E) as (st' & D & Es & G & A).
  unfold grouped_rule in D.
  apply den_Seq in D. destruct D as (st1 & D1 & D).
  apply den_WordB in D1. destruct D1 as [-> B1].
  apply den_Seq in D. destruct D as (st2 & D2 & D).
  apply den_Group in D2. destruct D2 as (w & sta & Da & Ew & R2 & B2 & C2).
  apply den_AltL_Lit in Da. destruct Da as (n & In1 & En & Ca & Ba).
  apply den_Seq in D. destruct D as (st3 & D3 & D).
  apply den_Char in D3. destruct D3 as (R3 & C3 & B3).
  apply den_Seq in D. destruct D as (st4 & D4 & D).
  apply den_Star_Class in D4. destruct D4 as (ws & Ws & R4 & C4 & B4).
  apply den_Seq in D. destruct D as (st5 & D5 & D6).
  apply den_Lit in D5. destruct D5 as (R5 & C5 & B5).
  apply den_WordB in D6. destruct D6 as [-> B6].
  cbn [rest caps before] in *.
  assert (w = n) as -> by (rewrite En in Ew; apply app_inv_tail in Ew; auto).
  assert (Et : s = n ++ txt ":" ++ ws ++ K ++ rest st5).
  { rewrite En, <- R2, R3, R4, R5. reflexivity. }
  assert (Ew' : whole m = n ++ txt ":" ++ ws ++ K).
  { rewrite Et in Es at 1. rewrite <- regroup in Es.
    apply app_inv_tail in Es. auto. }
  assert (Eg : groups m = [(1, n)]).
  { rewrite G, C5, C4, C3, C2, Ca. reflexivity. }
  assert (Ea : arity m = 1).
  { rewrite A. unfold grouped_rule. cbn [ngroups].
    rewrite ngroups_AltL_Lit, ngroups_Lit. reflexivity. }
  unfold expand in H. cbn [mapM expand_item] in H. unfold group in H.
  rewrite Ea, Eg in H. cbn [Nat.eqb Nat.leb assoc bind concat] in H.
  injection H as <- <-. exists n, ws, (rest st5).
  split; [|split; [exact Ew'|rewrite app_nil_r; reflexivity]].
  repeat split; auto.
  - apply (boundary_before p n (rest sta)); [apply Sub, In1|].
    rewrite <- En. exact B1.
  - destruct st5 as [b5 r5 c5]. cbn [rest before] in *. subst b5.
    apply (boundary_after K _ _ _ Key B6).
Qed.

Lemma boundary_at p n s :
  In n ALL -> word_opt p = false -> at_boundary (MState p (n ++ s) []) = true.
Proof.
  intros I W. destruct (name_head ALL Names n I) as (c & n' & -> & Wc & _).
  unfold at_boundary. cbn [before rest app hd_error word_opt].
  rewrite W, Wc. reflexivity.
Qed.

Lemma boundary_end K q t c :
  key_ok K = true -> word_opt (hd_error t) = false ->
  at_boundary (MState (last_of q K) t c) = true.
Proof.
  intros Key W. destruct (key_last K [] q Key) as (d & L & D).
  cbn [app] in L. unfold at_boundary. cbn [before rest].
  rewrite L, W. cbn [word_opt]. rewrite (digit_is_word d D). reflexivity.
Qed.

Lemma grouped_exists names K tok p s n ws t :
  incl names ALL -> key_ok K = true ->
  site names K p s n ws t ->
  rule_of (grouped_rule names K) (expand [TGroup 1; TText (txt ": " ++ tok)])
          p s <> None.
Proof.
  intros Sub Key (In1 & W & -> & Ws & T).
  set (s1 := txt ":" ++ ws ++ K ++ t).
  assert (D : den (grouped_rule names K) (MState p (n ++ s1) [])
                (MState (last_of (last_of (Some ":"%char) ws) K) t [(1, n)])).
  { unfold grouped_rule.
    apply (DSeq _ _ _ (MState p (n ++ s1) [])).
    { apply DWordB. apply boundary_at; [apply Sub, In1|exact W]. }
    apply (DSeq _ _ _ (MState (last_of p n) s1 [(1, n)])).
    { apply (Group_den 1 _ (MState p (n ++ s1) [])
                       (MState (last_of p n) s1 []) n).
      - apply (AltL_den names n (MState p (n ++ s1) []) s1 In1). reflexivity.
      - reflexivity. }
    apply (DSeq _ _ _ (MState (Some ":"%char) (ws ++ K ++ t) [(1, n)])).
    { apply Char_den. }
    apply (DSeq _ _ _ (MState (last_of (Some ":"%char) ws) (K ++ t) [(1, n)])).
    { apply Star_Class_den. exact Ws. }
    apply (DSeq _ _ _ (MState (last_of (last_of (Some ":"%char) ws) K) t
                              [(1, n)])).
    { apply (Lit_den K (MState (last_of (Some ":"%char) ws) (K ++ t) [(1, n)]) t).
      reflexivity. }
    apply DWordB. apply boundary_end; assumption. }
  apply match_at_exists in D. unfold rule_of.
  destruct (match_at (grouped_rule names K) p (n ++ s1)) as [m|] eqn:E;
    [|congruence].
  destruct (match_at_den _ _ _ _ E) as (st' & _ & _ & _ & A).
  assert (Ea : arity m = 1).
  { rewrite A. unfold grouped_rule. cbn [ngroups].
    rewrite ngroups_AltL_Lit, ngroups_Lit. reflexivity. }
  unfold expand. cbn [mapM expand_item]. unfold group. rewrite Ea.
  cbn [Nat.eqb Nat.leb bind]. discriminate.
Qed.

Lemma grouped_family names K tok :
  incl names ALL -> key_ok K = true ->
  family (rule_of (grouped_rule names K)
                  (expand [TGroup 1; TText (txt ": " ++ tok)]))
         names K tok.
Proof.
  intros Sub Key. apply family_intro; auto.
  - intros p s M new. apply grouped_forward; auto.
  - intros p s n ws t. apply grouped_exists; auto.
Qed.

Lemma plain_forward n K tok p s M new :
  In n ALL -> key_ok K = true ->
  rule_of (plain_rule (n ++ txt ":") K) (expand [TText (n ++ txt ": " ++ tok)])
          p s = Some (M, new) ->
  exists n' ws t, site [n] K p s n' ws t /\
                  M = n' ++ txt ":" ++ ws ++ K /\
                  new = n' ++ txt ": " ++ tok.
Proof.
  intros I Key H. unfold rule_of in H.
  destruct (match_at (plain_rule (n ++ txt ":") K) p s) as [m|] eqn:E;
    [|discriminate].
  destruct (match_at_den _ _ _ _ E) as (st' & D & Es & _).
  unfold plain_rule in D.
  apply den_Seq in D. destruct D as (st1 & D1 & D).
  apply den_WordB in D1. destruct D1 as [-> B1].
  apply den_Seq in D. destruct D as (st2 & D2 & D).
  apply den_Lit in D2. destruct D2 as (R2 & _ & _).
  apply den_Seq in D. destruct D as (st3 & D3 & D).
  apply den_Star_Class in D3. destruct D3 as (ws & Ws & R3 & _ & _).
  apply den_Seq in D. destruct D as (st4 & D4 & D5).
  apply den_Lit in D4. destruct D4 as (R4 & _ & B4).
  apply den_WordB in D5. destruct D5 as [-> B5].
  cbn [rest caps before] in *.
  assert (Et : s = n ++ txt ":" ++ ws ++ K ++ rest st4).
  { rewrite R2, R3, R4, <- app_assoc. reflexivity. }
  assert (Ew : whole m = n ++ txt ":" ++ ws ++ K).
  { rewrite Et in Es at 1. rewrite <- regroup in Es.
    apply app_inv_tail in Es. auto. }
  unfold expand in H. cbn [mapM expand_item bind concat] in H.
  injection H as <- <-. exists n, ws, (rest st4).
  split; [|split; [exact Ew|rewrite app_nil_r; reflexivity]].
  repeat split; auto.
  - left. reflexivity.
  - apply (boundary_before p n (txt ":" ++ rest st2)); [exact I|].
    rewrite app_assoc, <- R2. exact B1.
  - destruct st4 as [b4 r4 c4]. cbn [rest before] in *. subst b4.
    apply (boundary_after K _ _ _ Key B5).
Qed.

Lemma plain_exists n K tok p s n' ws t :
  In n ALL -> key_ok K = true ->
  site [n] K p s n' ws t ->
  rule_of (plain_rule (n ++ txt ":") K) (expand [TText (n ++ txt ": " ++ tok)])
          p s <> None.
Proof.
  intros I Key (In1 & W & -> & Ws & T).
  destruct In1 as [<-|[]].
  set (s2 := ws ++ K ++ t).
  assert (D : den (plain_rule (n ++ txt ":") K)
                (MState p ((n ++ txt ":") ++ s2) [])
                (MState (last_of (last_of (last_of p (n ++ txt ":")) ws) K) t [])).
  { unfold plain_rule.
    apply (DSeq _ _ _ (MState p ((n ++ txt ":") ++ s2) [])).
    { apply DWordB. rewrite <- app_assoc.
      apply boundary_at; [exact I|exact W]. }
    apply (DSeq _ _ _ (MState (last_of p (n ++ txt ":")) s2 [])).
    { apply (Lit_den (n ++ txt ":") (MState p ((n ++ txt ":") ++ s2) []) s2).
      reflexivity. }
    apply (DSeq _ _ _ (MState (last_of (last_of p (n ++ txt ":")) ws)
                              (K ++ t) [])).
    { apply Star_Class_den. exact Ws. }
    apply (DSeq _ _ _ (MState (last_of (last_of (last_of p (n ++ txt ":")) ws) K)
                              t [])).
    { apply (Lit_den K (MState (last_of (last_of p (n ++ txt ":")) ws)
                               (K ++ t) []) t).
      reflexivity. }
    apply DWordB. apply boundary_end; assumption. }
  apply match_at_exists in D. unfold rule_of.
  rewrite <- app_assoc in D. fold s2.
  destruct (match_at (plain_rule (n ++ txt ":") K) p (n ++ txt ":" ++ s2))
    as [m|] eqn:E; [|congruence].
  unfold expand. cbn [mapM expand_item bind]. discriminate.
Qed.

Lemma plain_family n K tok :
  In n ALL -> key_ok K = true ->
  family (rule_of (plain_rule (n ++ txt ":") K)
                  (expand [TText (n ++ txt ": " ++ tok)]))
         [n] K tok.
Proof.
  intros I Key. apply family_intro; auto.
  - intros a [<-|[]]. exact I.
  - intros p s M new. apply plain_forward; auto.
  - intros p s n' ws t. apply plain_exists; auto.
Qed.

End FamilyRules.

(* ================================================================= *)
(** ** [process_stylesheet] as a sequence of scans *)

Section Restyle.

Import UpdateStylesV2.

Lemma v2_names_apart : names_apart V2_NAMES = true.
Proof. vm_compute. reflexivity. Qed.

Lemma v2_names_ok : forallb name_ok V2_NAMES = true.
Proof. vm_compute. reflexivity. Qed.

Lemma spacing_names_in : incl SPACING_NAMES V2_NAMES.
Proof. intros n I. apply in_or_app. left. exact I. Qed.

Lemma font_name_in : In (txt "fontSize") V2_NAMES.
Proof. apply in_or_app. right. left. reflexivity. Qed.

Lemma radius_name_in : In (txt "borderRadius") V2_NAMES.
Proof. apply in_or_app. right. right. left. reflexivity. Qed.

Lemma spacing_family px tok :
  key_ok (str_of_nat px) = true ->
  family (rule_of (SPACING_RE px) (expand [TGroup 1; TText (txt ": " ++ tok)]))
         SPACING_NAMES (str_of_nat px) tok.
Proof.
  intros Key.
  apply (grouped_family V2_NAMES v2_names_apart v2_names_ok
           SPACING_NAMES (str_of_nat px) tok spacing_names_in Key).
Qed.

Lemma font_family px tok :
  key_ok (str_of_nat px) = true ->
  family (rule_of (FONT_RE px) (expand [TText (txt "fontSize: " ++ tok)]))
         [txt "fontSize"] (str_of_nat px) tok.
Proof.
  intros Key.
  apply (plain_family V2_NAMES v2_names_apart v2_names_ok
           (txt "fontSize") (str_of_nat px) tok font_name_in Key).
Qed.

Lemma radius_family px tok :
  key_ok (str_of_nat px) = true ->
  family (rule_of (RADIUS_RE px) (expand [TText (txt "borderRadius: " ++ tok)]))
         [txt "borderRadius"] (str_of_nat px) tok.
Proof.
  intros Key.
  apply (plain_family V2_NAMES v2_names_apart v2_names_ok
           (txt "borderRadius") (str_of_nat px) tok radius_name_in Key).
Qed.

(** A substitution of the family never fails, and is the scan of its
    matcher. *)
Lemma family_sub r repl names K tok :
  incl names V2_NAMES -> key_ok K = true ->
  family (rule_of r repl) names K tok ->
  (forall prev s m, match_at r prev s = Some m -> exists new, repl m = Ok new) ->
  forall s, re_sub r repl s = Ok (scan (rule_of r repl) None s).
Proof.
  intros Sub Key F Tot s. rewrite re_sub_from. apply sub_is_scan.
  intros prev s0 m E. destruct (Tot _ _ _ E) as (new & R).
  split; [|eauto].
  assert (H : rule_of r repl prev s0 = Some (whole m, new))
    by (unfold rule_of; rewrite E, R; reflexivity).
  apply (fam_proper V2_NAMES v2_names_ok _ _ _ _ F Sub) in H. tauto.
Qed.

Lemma spacing_template px tok prev s m :
  match_at (SPACING_RE px) prev s = Some m ->
  exists new, expand [TGroup 1; TText (txt ": " ++ tok)] m = Ok new.
Proof.
  intros E. destruct (match_at_den _ _ _ _ E) as (st' & _ & _ & _ & A).
  assert (Ea : arity m = 1).
  { rewrite A. unfold SPACING_RE. cbn [ngroups].
    rewrite ngroups_AltL_Lit, ngroups_Lit. reflexivity. }
  unfold expand. cbn [mapM expand_item]. unfold group. rewrite Ea.
  cbn [Nat.eqb Nat.leb bind]. eauto.
Qed.

Lemma spacing_loop_scans items : forall g,
  keys_are_numbers items = true ->
  spacing_loop items g = Ok (scans (spacing_matchers items) g).
Proof.
  induction items as [|[px tok] items IH]; intros g Keys; [reflexivity|].
  simpl in Keys. apply andb_prop in Keys. destruct Keys as [Key Keys].
  cbn [spacing_loop spacing_matchers map scans fst snd].
  rewrite (family_sub _ _ SPACING_NAMES (str_of_nat px) tok
             spacing_names_in Key (spacing_family px tok Key)
             (spacing_template px tok)).
  cbn [bind]. apply IH. exact Keys.
Qed.

Lemma font_loop_scans items : forall g,
  keys_are_numbers items = true ->
  font_loop items g = Ok (scans (font_matchers items) g).
Proof.
  induction items as [|[px tok] items IH]; intros g Keys; [reflexivity|].
  simpl in Keys. apply andb_prop in Keys. destruct Keys as [Key Keys].
  cbn [font_loop font_matchers map scans fst snd].
  rewrite (family_sub _ _ [txt "fontSize"] (str_of_nat px) tok).
  - cbn [bind]. apply IH. exact Keys.
  - intros a [<-|[]]. exact font_name_in.
  - exact Key.
  - apply font_family. exact Key.
  - intros prev s m _. unfold expand. cbn [mapM expand_item bind]. eauto.
Qed.

Lemma radius_rules_scans g : radius_rules g = Ok (scans radius_matchers g).
Proof.
  unfold radius_rules, radius_matchers. cbn [scans].
  assert (In1 : incl [txt "borderRadius"] V2_NAMES)
    by (intros a [<-|[]]; exact radius_name_in).
  assert (Tot : forall w prev s m,
            match_at (RADIUS_RE w) prev s = Some m ->
            forall t, exists new, expand [TText t] m = Ok new).
  { intros w prev s m _ t. unfold expand. cbn [mapM expand_item bind]. eauto. }
  rewrite (family_sub _ _ [txt "borderRadius"] (str_of_nat 12) RADIUS12_TOKEN
             In1 eq_refl (radius_family 12 RADIUS12_TOKEN eq_refl)
             (fun prev s m E => Tot 12 prev s m E _)).
  cbn [bind].
  apply (family_sub _ _ [txt "borderRadius"] (str_of_nat 10) RADIUS10_TOKEN
           In1 eq_refl (radius_family 10 RADIUS10_TOKEN eq_refl)
           (fun prev s m E => Tot 10 prev s m E _)).
Qed.

Lemma scans_app mus1 : forall mus2 s,
  scans (mus1 ++ mus2) s = scans mus2 (scans mus1 s).
Proof. induction mus1 as [|mu mus1 IH]; intros; simpl; auto. Qed.

(** [process_stylesheet] rewrites the text of a block by twenty scans. *)
Lemma restyle_scans g : restyle g = Ok (scans v2_matchers g).
Proof.
  unfold restyle, v2_matchers.
  rewrite spacing_loop_scans by reflexivity. cbn [bind].
  rewrite font_loop_scans by reflexivity. cbn [bind].
  rewrite radius_rules_scans, !scans_app. reflexivity.
Qed.

Lemma spacing_families items :
  keys_are_numbers items = true ->
  families (spacing_matchers items) (spacing_rules items).
Proof.
  induction items as [|[px tok] items IH]; intros Keys; [constructor|].
  simpl in Keys. apply andb_prop in Keys. destruct Keys as [Key Keys].
  constructor; [|apply IH; exact Keys]. apply spacing_family. exact Key.
Qed.

Lemma font_families items :
  keys_are_numbers items = true ->
  families (font_matchers items) (font_rules items).
Proof.
  induction items as [|[px tok] items IH]; intros Keys; [constructor|].
  simpl in Keys. apply andb_prop in Keys. destruct Keys as [Key Keys].
  constructor; [|apply IH; exact Keys]. apply font_family. exact Key.
Qed.

Lemma radius_families : families radius_matchers radius_rule_list.
Proof.
  constructor; [|constructor; [|constructor]].
  - apply (radius_family 12 RADIUS12_TOKEN). reflexivity.
  - apply (radius_family 10 RADIUS10_TOKEN). reflexivity.
Qed.

Lemma v2_families : families v2_matchers v2_rules.
Proof.
  unfold families, v2_matchers, v2_rules.
  apply Forall2_app; [apply spacing_families; reflexivity|].
  apply Forall2_app; [apply font_families; reflexivity|].
  apply radius_families.
Qed.

Lemma v2_rules_ok : forallb (rule_ok V2_NAMES) v2_rules = true.
Proof. vm_compute. reflexivity. Qed.

(** What [process_stylesheet] does to one property and its number, in the
    text of a block: the first rule that applies writes its token, no rule
    touches it otherwise, and the text before and the text after are
    rewritten as if they stood alone. *)
Lemma restyle_site n ws K0 x y :
  In n V2_NAMES -> key_ok K0 = true -> forallb is_space ws = true ->
  closed_left x -> closed_right y ->
  exists x' y',
    restyle x = Ok x' /\ restyle y = Ok y' /\
    restyle (x ++ (n ++ txt ":" ++ ws ++ K0) ++ y)
    = Ok (x' ++ match fires v2_rules n K0 with
                | Some tok0 => n ++ txt ": " ++ tok0
                | None => n ++ txt ":" ++ ws ++ K0
                end ++ y').
Proof.
  intros I Key Ws Cx Cy.
  exists (scans v2_matchers x), (scans v2_matchers y).
  rewrite !restyle_scans. repeat split.
  f_equal.
  apply (scans_site V2_NAMES v2_names_apart v2_names_ok v2_matchers v2_rules
           v2_families v2_rules_ok); assumption.
Qed.

End Restyle.

(* ================================================================= *)
(** ** The corner radius *)

Section CornerRadius.

Lemma radius_entry :
  In (txt "borderRadius: 12,", UpdateStyles.RADIUS_NEW)
     (spacing_table ++ font_table ++ radius_table).
Proof. apply in_or_app. right. apply in_or_app. right. left. reflexivity. Qed.

(** C5, as the code has it.  In [update-styles-v2.py], in the text of a
    style block, [borderRadius], a colon, any white space and the number 12
    (or 10), standing as words of their own, become
    [borderRadius: deviceInfo.isTablet ? 14 : 12] (or [... ? 12 : 10]),
    and the text before and the text after are rewritten as they would be
    alone.  In [update-styles.py], whenever the rewriter returns, every
    [borderRadius: 12,] becomes
    [borderRadius: deviceInfo.isTablet ? 14 : 12,]; that script has no rule
    for the radius 10. *)
Theorem corner_radius_replaced (x y ws : text) :
  forallb is_space ws = true -> closed_left x -> closed_right y ->
  (exists x' y',
     UpdateStylesV2.restyle x = Ok x' /\ UpdateStylesV2.restyle y = Ok y' /\
     UpdateStylesV2.restyle
       (x ++ (txt "borderRadius" ++ txt ":" ++ ws ++ txt "12") ++ y)
     = Ok (x' ++ UpdateStylesV2.RADIUS12_NEW ++ y') /\
     UpdateStylesV2.restyle
       (x ++ (txt "borderRadius" ++ txt ":" ++ ws ++ txt "10") ++ y)
     = Ok (x' ++ UpdateStylesV2.RADIUS10_NEW ++ y')) /\
  (forall u v c',
     UpdateStyles.add_tablet_specific_styles
       (u ++ txt "borderRadius: 12," ++ v) = Ok c' ->
     c' = one_pass v1_table u ++ UpdateStyles.RADIUS_NEW ++ one_pass v1_table v).
Proof.
  intros Ws Cx Cy. split.
  - destruct (restyle_site (txt "borderRadius") ws (txt "12") x y
                radius_name_in eq_refl Ws Cx Cy) as (x' & y' & Ex & Ey & E12).
    destruct (restyle_site (txt "borderRadius") ws (txt "10") x y
                radius_name_in eq_refl Ws Cx Cy) as (x2 & y2 & Ex2 & Ey2 & E10).
    assert (x2 = x') by congruence. assert (y2 = y') by congruence. subst x2 y2.
    exists x', y'. repeat split; auto.
  - intros u v c' H. apply (v1_occurrence _ _ _ _ _ radius_entry H).
Qed.

Lemma corner_radius_witness :
  (exists x' y',
     UpdateStylesV2.restyle (txt " card: { ") = Ok x' /\
     UpdateStylesV2.restyle (txt ", }, ") = Ok y' /\
     UpdateStylesV2.restyle
       (txt " card: { " ++ (txt "borderRadius" ++ txt ":" ++ txt " " ++ txt "12")
        ++ txt ", }, ")
     = Ok (x' ++ UpdateStylesV2.RADIUS12_NEW ++ y') /\
     UpdateStylesV2.restyle
       (txt " card: { " ++ (txt "borderRadius" ++ txt ":" ++ txt " " ++ txt "10")
        ++ txt ", }, ")
     = Ok (x' ++ UpdateStylesV2.RADIUS10_NEW ++ y')) /\
  (forall u v c',
     UpdateStyles.add_tablet_specific_styles
       (u ++ txt "borderRadius: 12," ++ v) = Ok c' ->
     c' = one_pass v1_table u ++ UpdateStyles.RADIUS_NEW ++ one_pass v1_table v).
Proof.
  apply (corner_radius_replaced (txt " card: { ") (txt ", }, ") (txt " "));
    reflexivity.
Defined.

(** C5, as the specification has it, fails for [update-styles.py]: a
    radius of 10 is left as it is, where [update-styles-v2.py] rewrites
    it. *)
Lemma v1_keeps_radius_ten :
  UpdateStyles.add_tablet_specific_styles
    (txt "const styles = StyleSheet.create({ card: { borderRadius: 10, }, });")
  = Ok (txt "const styles = StyleSheet.create({ card: { borderRadius: 10, }, });")
  /\ fst (UpdateStylesV2.update_styles_in_stylesheet
       (txt "const styles = StyleSheet.create({ card: { borderRadius: 10, }, });"))
  = txt "const styles = StyleSheet.create({ card: { borderRadius: deviceInfo.isTablet ? 12 : 10, }, });".
Proof. split; vm_compute; reflexivity. Qed.

End CornerRadius.

(* ================================================================= *)
(** ** Numbers that are not keys *)

Section Unmapped.

Lemma only_declarations_in L names d name l r :
  only_declarations L names d name = true -> In (l, r) L ->
  In (l, r) (declarations names d) \/ compatible (name ++ txt ":") l = false.
Proof.
  unfold only_declarations. rewrite forallb_forall. intros H I.
  specialize (H _ I). cbn [fst snd] in H.
  apply orb_prop in H. destruct H as [H|H].
  - left. apply existsb_exists in H. destruct H as ([l' r'] & I' & E).
    cbn [fst snd] in E. apply andb_prop in E. destruct E as [E1 E2].
    apply text_eqb_eq in E1, E2. subst. exact I'.
  - right. destruct (compatible (name ++ txt ":") l); [discriminate|reflexivity].
Qed.

(** A declaration whose number is not a key goes through a pass of the
    table as it is, and the text around it is rewritten on its own. *)
Lemma declaration_kept L names d n K0 :
  no_empty L = true -> heads_avoid L = true ->
  names_apart names = true -> keys_ok d = true ->
  In n names -> name_clear L n = true -> tails_avoid L n = true ->
  only_declarations L names d n = true ->
  key_ok K0 = true -> lookup K0 d = None ->
  forall u v,
    one_pass L (u ++ declaration n K0 ++ v)
    = one_pass L u ++ declaration n K0 ++ one_pass L v.
Proof.
  intros NE HA NA KO I NC TA OD Key Un u v.
  assert (Nn : n <> []) by (apply (names_apart_nonempty names); assumption).
  assert (DK : forallb is_digit K0 = true).
  { unfold key_ok in Key. destruct K0; [discriminate|exact Key]. }
  assert (NU : declaration n K0 <> []).
  { unfold declaration. destruct n; [contradiction|discriminate]. }
  assert (EU : forall t, declaration n K0 ++ t
                         = (n ++ txt ":") ++ txt " " ++ K0 ++ txt "," ++ t).
  { intros t. unfold declaration. rewrite <- !app_assoc. reflexivity. }
  rewrite (one_pass_before L (declaration n K0) NE NU).
  - f_equal. apply one_pass_inert_tail; [exact NU| |].
    + apply find_entry_none. intros l r Il.
      destruct (starts_with l (declaration n K0 ++ v)) eqn:S; [|reflexivity].
      exfalso.
      destruct (only_declarations_in _ _ _ _ _ _ OD Il) as [Id|C].
      * destruct (declaration_start names d n K0 v l r NA KO I DK Id S)
          as (w & Iw & _).
        apply in_lookup in Iw. contradiction.
      * rewrite EU in S. apply compatible_of_start in S. congruence.
    + apply declaration_inert; assumption.
  - intros l r a b Il El Na Nb.
    destruct (compatible b (declaration n K0)) eqn:C; [|reflexivity].
    exfalso. unfold tails_avoid in TA. rewrite forallb_forall in TA.
    specialize (TA _ Il). cbn [fst] in TA. rewrite El in TA.
    destruct a as [|c a]; [contradiction|]. cbn [app tl] in TA.
    apply for_suffixes_app in TA; [|exact Nb].
    rewrite compatible_sym in C.
    pose proof (EU []) as E0. rewrite !app_nil_r in E0. rewrite E0 in C.
    apply compatible_trunc in C. rewrite C in TA. discriminate.
Qed.

End Unmapped.

Section V1Unmapped.

Import UpdateStyles.

Lemma v1_spacing_kept n K0 u v c' :
  In n SPACING_NAMES -> key_ok K0 = true -> lookup K0 SPACING_MAP = None ->
  add_tablet_specific_styles (u ++ declaration n K0 ++ v) = Ok c' ->
  c' = one_pass v1_table u ++ declaration n K0 ++ one_pass v1_table v.
Proof.
  intros I Key Un H. apply v1_rewriter_returns in H. subst c'.
  assert (A : forallb (fun n => name_clear v1_table n && tails_avoid v1_table n
                                && only_declarations v1_table SPACING_NAMES
                                                     SPACING_MAP n)
                      SPACING_NAMES = true) by (vm_compute; reflexivity).
  rewrite forallb_forall in A. specialize (A n I).
  apply andb_prop in A. destruct A as [A OD].
  apply andb_prop in A. destruct A as [NC TA].
  apply (declaration_kept v1_table SPACING_NAMES SPACING_MAP); auto;
    vm_compute; reflexivity.
Qed.

Lemma v1_font_kept K0 u v c' :
  key_ok K0 = true -> lookup K0 FONT_SIZE_MAP = None ->
  add_tablet_specific_styles (u ++ declaration (txt "fontSize") K0 ++ v) = Ok c' ->
  c' = one_pass v1_table u ++ declaration (txt "fontSize") K0
       ++ one_pass v1_table v.
Proof.
  intros Key Un H. apply v1_rewriter_returns in H. subst c'.
  apply (declaration_kept v1_table [txt "fontSize"] FONT_SIZE_MAP); auto;
    try (vm_compute; reflexivity).
  left. reflexivity.
Qed.

End V1Unmapped.

(* ================================================================= *)
(** ** Known and unknown numbers *)

Section KnownNumbers.

Lemma fires_app ds1 ds2 n K0 :
  fires (ds1 ++ ds2) n K0 =
  match fires ds1 n K0 with
  | Some t => Some t
  | None => fires ds2 n K0
  end.
Proof.
  induction ds1 as [|d ds1 IH]; [reflexivity|].
  cbn [app fires]. destruct (applies d n K0); [reflexivity|exact IH].
Qed.

Lemma fires_none ds n K0 :
  forallb (fun d => negb (mem n (r_names d))) ds = true ->
  fires ds n K0 = None.
Proof.
  induction ds as [|d ds IH]; [reflexivity|]. cbn [forallb fires].
  intros H. apply andb_prop in H. destruct H as [H1 H2].
  unfold applies. destruct (mem n (r_names d)); [discriminate|].
  cbn [andb]. apply IH. exact H2.
Qed.

Lemma fires_spacing items n K0 :
  In n UpdateStylesV2.SPACING_NAMES ->
  fires (spacing_rules items) n K0 = token_of items K0.
Proof.
  intros I. apply mem_in in I.
  induction items as [|[px tok] items IH]; [reflexivity|].
  cbn [spacing_rules map fires token_of fst snd]. unfold applies.
  cbn [r_names r_key r_token]. rewrite I. cbn [andb].
  destruct (text_eqb (str_of_nat px) K0); [reflexivity|exact IH].
Qed.

Lemma fires_font items K0 :
  fires (font_rules items) (txt "fontSize") K0 = token_of items K0.
Proof.
  induction items as [|[px tok] items IH]; [reflexivity|].
  cbn [font_rules map fires token_of fst snd]. unfold applies.
  cbn [r_names r_key r_token].
  replace (mem (txt "fontSize") [txt "fontSize"]) with true by reflexivity.
  cbn [andb].
  destruct (text_eqb (str_of_nat px) K0); [reflexivity|exact IH].
Qed.

Lemma v2_fires_spacing n K0 :
  In n UpdateStylesV2.SPACING_NAMES ->
  fires v2_rules n K0 = token_of UpdateStylesV2.SPACING_MAP K0.
Proof.
  intros I. unfold v2_rules. rewrite fires_app, (fires_spacing _ _ _ I).
  destruct (token_of UpdateStylesV2.SPACING_MAP K0); [reflexivity|].
  apply fires_none.
  assert (A : forallb (fun n =>
                forallb (fun d => negb (mem n (r_names d)))
                        (font_rules UpdateStylesV2.FONT_SIZE_MAP
                         ++ radius_rule_list))
                UpdateStylesV2.SPACING_NAMES = true) by (vm_compute; reflexivity).
  rewrite forallb_forall in A. apply (A n I).
Qed.

Lemma v2_fires_font K0 :
  fires v2_rules (txt "fontSize") K0
  = token_of UpdateStylesV2.FONT_SIZE_MAP K0.
Proof.
  unfold v2_rules. rewrite fires_app, fires_none by (vm_compute; reflexivity).
  rewrite fires_app, fires_font.
  destruct (token_of UpdateStylesV2.FONT_SIZE_MAP K0); [reflexivity|].
  apply fires_none. vm_compute. reflexivity.
Qed.

Lemma v1_spacing_written n K0 u v c' :
  In n UpdateStyles.SPACING_NAMES -> key_ok K0 = true ->
  UpdateStyles.add_tablet_specific_styles (u ++ declaration n K0 ++ v) = Ok c' ->
  c' = one_pass v1_table u
       ++ declaration n (value_of UpdateStyles.SPACING_MAP K0)
       ++ one_pass v1_table v.
Proof.
  intros I Key H. unfold value_of.
  destruct (lookup K0 UpdateStyles.SPACING_MAP) as [tok|] eqn:L.
  - apply lookup_in in L. apply (v1_occurrence _ _ _ _ _) with (2 := H).
    apply in_or_app. left. apply in_declarations.
    exists n, K0, tok. auto.
  - apply v1_spacing_kept; assumption.
Qed.

Lemma v1_font_written K0 u v c' :
  key_ok K0 = true ->
  UpdateStyles.add_tablet_specific_styles
    (u ++ declaration (txt "fontSize") K0 ++ v) = Ok c' ->
  c' = one_pass v1_table u
       ++ declaration (txt "fontSize") (value_of UpdateStyles.FONT_SIZE_MAP K0)
       ++ one_pass v1_table v.
Proof.
  intros Key H. unfold value_of.
  destruct (lookup K0 UpdateStyles.FONT_SIZE_MAP) as [tok|] eqn:L.
  - apply lookup_in in L. apply (v1_occurrence _ _ _ _ _) with (2 := H).
    apply in_or_app. right. apply in_or_app. left. apply in_declarations.
    exists (txt "fontSize"), K0, tok. repeat split; auto. left. reflexivity.
  - apply v1_font_kept; assumption.
Qed.

End KnownNumbers.

Section Totality.

(** C4, as the code has it.  A number [K0] after a spacing property [n] or
    after [fontSize] is replaced by the token of the table when it is a key
    of the table, and is kept when it is not; the text around is rewritten
    on its own.  [update-styles-v2.py] does so in the text of a style block,
    for a property and a number that stand as whole words, with any white
    space after the colon, [gap] included; [update-styles.py] does so,
    whenever its rewriter returns, for the declarations written [n: K0,]
    with one space and the comma, for the fourteen names of its pattern. *)
Theorem known_numbers_converted (n K0 ws x y : text) :
  key_ok K0 = true -> forallb is_space ws = true ->
  closed_left x -> closed_right y ->
  (In n UpdateStylesV2.SPACING_NAMES ->
   exists x' y',
     UpdateStylesV2.restyle x = Ok x' /\ UpdateStylesV2.restyle y = Ok y' /\
     UpdateStylesV2.restyle (x ++ (n ++ txt ":" ++ ws ++ K0) ++ y)
     = Ok (x' ++ match token_of UpdateStylesV2.SPACING_MAP K0 with
                 | Some tok => n ++ txt ": " ++ tok
                 | None => n ++ txt ":" ++ ws ++ K0
                 end ++ y')) /\
  (exists x' y',
     UpdateStylesV2.restyle x = Ok x' /\ UpdateStylesV2.restyle y = Ok y' /\
     UpdateStylesV2.restyle (x ++ (txt "fontSize" ++ txt ":" ++ ws ++ K0) ++ y)
     = Ok (x' ++ match token_of UpdateStylesV2.FONT_SIZE_MAP K0 with
                 | Some tok => txt "fontSize" ++ txt ": " ++ tok
                 | None => txt "fontSize" ++ txt ":" ++ ws ++ K0
                 end ++ y')) /\
  (In n UpdateStyles.SPACING_NAMES ->
   forall u v c',
     UpdateStyles.add_tablet_specific_styles (u ++ declaration n K0 ++ v) = Ok c' ->
     c' = one_pass v1_table u
          ++ declaration n (value_of UpdateStyles.SPACING_MAP K0)
          ++ one_pass v1_table v) /\
  (forall u v c',
     UpdateStyles.add_tablet_specific_styles
       (u ++ declaration (txt "fontSize") K0 ++ v) = Ok c' ->
     c' = one_pass v1_table u
          ++ declaration (txt "fontSize") (value_of UpdateStyles.FONT_SIZE_MAP K0)
          ++ one_pass v1_table v).
Proof.
  intros Key Ws Cx Cy. repeat split.
  - intros I. rewrite <- (v2_fires_spacing n K0 I).
    apply restyle_site; auto. apply spacing_names_in, I.
  - rewrite <- (v2_fires_font K0).
    apply restyle_site; auto. apply font_name_in.
  - intros I u v c'. apply v1_spacing_written; assumption.
  - intros u v c'. apply v1_font_written; assumption.
Qed.

Lemma known_numbers_witness :
  exists x' y',
    UpdateStylesV2.restyle (txt " card: { ") = Ok x' /\
    UpdateStylesV2.restyle (txt ", }, ") = Ok y' /\
    UpdateStylesV2.restyle
      (txt " card: { " ++ (txt "padding" ++ txt ":" ++ txt " " ++ txt "16")
       ++ txt ", }, ")
    = Ok (x' ++ (txt "padding" ++ txt ": " ++ txt "spacing.lg") ++ y').
Proof.
  destruct (known_numbers_converted (txt "padding") (txt "16") (txt " ")
              (txt " card: { ") (txt ", }, ")
              eq_refl eq_refl eq_refl eq_refl) as (H & _).
  apply H. left. reflexivity.
Defined.

(** C4, as the specification has it, fails for [update-styles.py]: a
    number that is a key of the table is kept when no comma follows it, or
    when no space stands between the colon and it. *)
Lemma v1_keeps_known_numbers :
  UpdateStyles.add_tablet_specific_styles
    (txt "const styles = StyleSheet.create({ title: { fontSize:24, margin: 8 } });")
  = Ok (txt "const styles = StyleSheet.create({ title: { fontSize:24, margin: 8 } });")
  /\ fst (UpdateStylesV2.update_styles_in_stylesheet
       (txt "const styles = StyleSheet.create({ title: { fontSize:24, margin: 8 } });"))
  = txt "const styles = StyleSheet.create({ title: { fontSize: typography.h4, margin: spacing.sm } });".
Proof. split; vm_compute; reflexivity. Qed.

End Totality.

(* ================================================================= *)
(** ** A second run of [update-styles.py] *)

Section SecondRun.

Import UpdateStyles.

(** What [process_file] does to the file system: nothing, or one write. *)
Lemma v1_process_cases fs p :
  (exists pr, process_file fs p = (false, fs, pr)) \/
  (exists c', process_file fs p
              = (true, (fun q => if text_eqb q p then Node (Ok c') true else fs q), [])).
Proof.
  unfold process_file, process_file_with, process_body.
  destruct (read_text fs p) as [c|e]; cbn [bind]; [|eauto].
  destruct (negb (contains STYLE_MARKER c)); [eauto|].
  destruct (THRESHOLD <? count TABLET_MARKER c); [eauto|].
  destruct (add_tablet_specific_styles c) as [c'|e]; cbn [bind]; [|eauto].
  destruct (negb (text_eqb c' c)); [|eauto].
  unfold write_text. destruct (writable (fs p)); cbn [bind]; eauto.
Qed.

Lemma v1_unchanged fs p :
  changed (process_file fs p) = false -> fs_after (process_file fs p) = fs.
Proof.
  destruct (v1_process_cases fs p) as [(pr & E)|(c' & E)]; rewrite E;
    cbn [changed fs_after fst snd]; [reflexivity|discriminate].
Qed.

Lemma v1_frame fs p q : q <> p -> fs_after (process_file fs p) q = fs q.
Proof.
  intros N.
  destruct (v1_process_cases fs p) as [(pr & E)|(c' & E)]; rewrite E;
    cbn [fs_after fst snd]; [reflexivity|].
  apply text_eqb_neq in N. rewrite N. reflexivity.
Qed.

(** Whether [process_file] changes a file depends on that file only. *)
Lemma v1_changed_local fs fs' p :
  fs p = fs' p -> changed (process_file fs p) = changed (process_file fs' p).
Proof.
  intros E.
  unfold process_file, process_file_with, process_body, read_text.
  rewrite <- E.
  destruct (data (fs p)) as [c|e]; cbn [bind]; [|reflexivity].
  destruct (negb (contains STYLE_MARKER c)); [reflexivity|].
  destruct (THRESHOLD <? count TABLET_MARKER c); [reflexivity|].
  destruct (add_tablet_specific_styles c) as [c'|e]; cbn [bind]; [|reflexivity].
  destruct (negb (text_eqb c' c)); [|reflexivity].
  unfold write_text. rewrite <- E.
  destruct (writable (fs p)); reflexivity.
Qed.

(** After a loop of [main], the files it has taken are at rest, and so are
    the files that were at rest before. *)
Lemma v1_loop_rests skip files : forall fs log n done,
  v1_at_rest fs done ->
  exists fs' log' n',
    loop skip files (fs, log, n) = (fs', log', n') /\
    v1_at_rest fs' (done ++ taken skip files).
Proof.
  induction files as [|p files IH]; intros fs log n done R.
  - exists fs, log, n. split; [reflexivity|].
    unfold taken. cbn [filter]. rewrite app_nil_r. exact R.
  - cbn [loop]. unfold taken. cbn [filter].
    destruct (skip p) eqn:Sk; cbn [negb].
    + apply IH. exact R.
    + assert (R1 : v1_at_rest (fs_after (process_file fs p)) (done ++ [p])).
      { intros q Iq. destruct (text_eqb q p) eqn:Q.
        - apply text_eqb_eq in Q. subst q. apply v1_second_run.
        - apply text_eqb_neq in Q.
          rewrite (v1_changed_local _ fs q) by (apply v1_frame; exact Q).
          apply in_app_or in Iq. destruct Iq as [Iq|[Iq|[]]].
          + apply R. exact Iq.
          + congruence. }
      destruct (process_file fs p) as [[ch fs1] pr]. cbn [fs_after fst snd] in R1.
      replace (done ++ p :: filter (fun p0 => negb (skip p0)) files)
        with ((done ++ [p]) ++ taken skip files)
        by (rewrite <- app_assoc; reflexivity).
      destruct ch; apply IH; exact R1.
Qed.

(** A loop over files at rest changes nothing and counts nothing. *)
Lemma v1_loop_idle skip files : forall fs log n,
  v1_at_rest fs (taken skip files) ->
  exists more, loop skip files (fs, log, n) = (fs, log ++ more, n).
Proof.
  induction files as [|p files IH]; intros fs log n R.
  - exists []. rewrite app_nil_r. reflexivity.
  - cbn [loop]. unfold taken in R. cbn [filter] in R.
    destruct (skip p) eqn:Sk; cbn [negb] in R.
    + apply IH. exact R.
    + assert (C : changed (process_file fs p) = false)
        by (apply R; left; reflexivity).
      pose proof (v1_unchanged fs p C) as U.
      destruct (process_file fs p) as [[ch fs1] pr].
      cbn [changed fs_after fst snd] in C, U. subst ch fs1.
      destruct (IH fs (log ++ pr) n) as (more & E).
      { intros q Iq. apply R. right. exact Iq. }
      exists (pr ++ more). rewrite E, <- app_assoc. reflexivity.
Qed.

Lemma v1_second_batch screens components fs :
  let r1 := main screens components fs in
  let r2 := main screens components (fst (fst r1)) in
  snd r2 = 0 /\ fst (fst r2) = fst (fst r1).
Proof.
  unfold main.
  destruct (v1_loop_rests (fun _ => false) screens fs [ProcessingScreens] 0 [])
    as (fsA & logA & nA & EA & RA); [intros q []|].
  rewrite EA.
  destruct (v1_loop_rests (ends_with (txt "ResponsiveLayout.tsx")) components
              fsA (logA ++ [ProcessingComponents]) nA _ RA)
    as (fsB & logB & nB & EB & RB).
  rewrite EB. cbn [fst snd].
  destruct (v1_loop_idle (fun _ => false) screens fsB [ProcessingScreens] 0)
    as (m1 & E1).
  { intros q Iq. apply RB. apply in_or_app. left. exact Iq. }
  rewrite E1.
  destruct (v1_loop_idle (ends_with (txt "ResponsiveLayout.tsx")) components fsB
              (([ProcessingScreens] ++ m1) ++ [ProcessingComponents]) 0)
    as (m2 & E2).
  { intros q Iq. apply RB. apply in_or_app. right. exact Iq. }
  rewrite E2. cbn [fst snd]. auto.
Qed.

End SecondRun.

Section Idempotence.

(** C3, as the code has it.  [process_file] of [update-styles.py] run a
    second time on a file changes nothing and returns [False], whatever the
    content and the state of the file; and a second run of its batch over
    the same lists of files reports zero changed files and leaves the file
    system as the first run left it. *)
Theorem v1_second_run_changes_nothing
  (screens components : list path) (fs : filesystem) (p : path) :
  (changed (UpdateStyles.process_file
              (fs_after (UpdateStyles.process_file fs p)) p) = false /\
   fs_after (UpdateStyles.process_file
               (fs_after (UpdateStyles.process_file fs p)) p)
   = fs_after (UpdateStyles.process_file fs p)) /\
  (let r1 := UpdateStyles.main screens components fs in
   let r2 := UpdateStyles.main screens components (fst (fst r1)) in
   snd r2 = 0 /\ fst (fst r2) = fst (fst r1)).
Proof.
  split; [apply v1_second_run|apply v1_second_batch].
Qed.

(** C3, as the specification has it, fails for [update-styles-v2.py]: its
    icon substitution rewrites one size pattern of a tag in each run, so a
    second run changes the file again and the batch reports it. *)
Lemma v2_second_run_changes :
  changed (UpdateStylesV2.process_file
             (fs_after (UpdateStylesV2.process_file
                          (fs_all two_sizes true) (txt "A.tsx")))
             (txt "A.tsx")) = true
  /\ snd (UpdateStylesV2.main [txt "A.tsx"] []
            (fst (fst (UpdateStylesV2.main [txt "A.tsx"] []
                         (fs_all two_sizes true))))) = 1.
Proof. split; vm_compute; reflexivity. Qed.

End Idempotence.

(* ================================================================= *)
(** * Further properties of the two scripts *)

(* ================================================================= *)
(** ** The value callbacks of [update-styles.py] *)

Section Values.

Import UpdateStyles.

Lemma chomp_cases value : value = chomp value \/ value = chomp value ++ nl.
Proof.
  unfold chomp. destruct (rev value) as [|c r] eqn:E; [left; reflexivity|].
  destruct (ascii_eqb c "010") eqn:Q; [|left; reflexivity].
  right. apply ascii_eqb_eq in Q. subst c.
  rewrite <- (rev_involutive value), E. reflexivity.
Qed.

Lemma chomp_digits ds : forallb is_digit ds = true -> chomp ds = ds.
Proof.
  intros D. unfold chomp. destruct (rev ds) as [|c r] eqn:E; [reflexivity|].
  destruct (ascii_eqb c "010") eqn:Q; [|reflexivity].
  apply ascii_eqb_eq in Q. subst c.
  assert (I : In "010"%char ds) by (apply in_rev; rewrite E; left; reflexivity).
  apply (forallb_in _ _ _ D) in I. discriminate.
Qed.

Lemma chomp_nl ds : chomp (ds ++ nl) = ds.
Proof.
  unfold chomp, nl. rewrite rev_app_distr. cbn [rev app].
  replace (ascii_eqb "010" "010") with true by reflexivity.
  apply rev_involutive.
Qed.

(** What [r'^(\d+)$'] matches: a number, and possibly one line feed after
    it, which is not part of group 1. *)
Lemma number_shape value m :
  re_match NUMBER value = Some m ->
  exists ds tail,
    value = ds ++ tail /\ ds <> [] /\ forallb is_digit ds = true /\
    (tail = [] \/ tail = nl) /\ group m 1 = Ok (Some ds).
Proof.
  unfold re_match. intros E.
  apply match_at_den in E. destruct E as (st' & Dn & E & G & A).
  unfold NUMBER in Dn.
  apply den_Seq in Dn. destruct Dn as (st1 & D1 & Dn).
  apply den_Seq in Dn. destruct Dn as (st2 & D2 & D3).
  inversion D1; subst.
  apply den_Group in D2. destruct D2 as (w & st3 & D2 & E2 & R2 & _ & C2).
  apply den_Plus_Class in D2. destruct D2 as (w' & N & F & E2' & C2' & _).
  rewrite E2' in E2. apply app_inv_tail in E2. subst w'.
  inversion D3; subst. cbn [rest caps] in *.
  exists w, (rest st3). repeat split; auto.
  - match goal with H : at_end st' = true |- _ => unfold at_end in H; rename H into T end.
    rewrite R2 in T.
    destruct (rest st3) as [|x [|y z]]; [left; reflexivity| |discriminate].
    right. apply ascii_eqb_eq in T. subst x. reflexivity.
  - unfold group. cbn [Nat.eqb]. rewrite A. cbn.
    rewrite G, C2, C2'. cbn. reflexivity.
Qed.

Lemma number_exists ds tail :
  ds <> [] -> forallb is_digit ds = true -> tail = [] \/ tail = nl ->
  re_match NUMBER (ds ++ tail) <> None.
Proof.
  intros N D T. unfold re_match.
  apply (match_at_exists NUMBER None (ds ++ tail)
           (MState (last_of None ds) tail [(1, ds)])).
  unfold NUMBER. eapply DSeq; [apply DBol; reflexivity|].
  eapply DSeq.
  - apply (Group_den 1 _ (MState None (ds ++ tail) [])
                     (MState (last_of None ds) tail []) ds).
    + apply Plus_Class_den; assumption.
    + reflexivity.
  - apply DEol. destruct T as [->| ->]; reflexivity.
Qed.

(** [update_spacing_property] and [update_font_size]: the token of the
    table for a number that is one of its keys, even when a line feed
    follows the number, and the argument itself in every other case. *)
Theorem value_callbacks (value : text) :
  update_spacing_property value
  = (if key_ok (chomp value)
     then match lookup (chomp value) SPACING_MAP with
          | Some token => token
          | None => value
          end
     else value)
  /\ update_font_size value
  = (if key_ok (chomp value)
     then match lookup (chomp value) FONT_SIZE_MAP with
          | Some token => token
          | None => value
          end
     else value).
Proof.
  assert (G : forall d, convert d value
            = if key_ok (chomp value)
              then match lookup (chomp value) d with
                   | Some token => token
                   | None => value
                   end
              else value).
  { intros d. unfold convert.
    destruct (re_match NUMBER value) as [m|] eqn:E.
    - destruct (number_shape _ _ E) as (ds & tail & -> & N & D & T & ->).
      assert (C : chomp (ds ++ tail) = ds).
      { destruct T as [->| ->]; [rewrite app_nil_r; apply chomp_digits; exact D
                                |apply chomp_nl]. }
      rewrite C. unfold key_ok. destruct ds; [contradiction|].
      rewrite D. reflexivity.
    - destruct (key_ok (chomp value)) eqn:K; [|reflexivity].
      exfalso. revert E.
      assert (N : chomp value <> []) by (destruct (chomp value); discriminate).
      assert (D : forallb is_digit (chomp value) = true)
        by (unfold key_ok in K; destruct (chomp value); [discriminate|exact K]).
      destruct (chomp_cases value) as [V|V]; rewrite V at 1.
      + rewrite <- (app_nil_r (chomp value)). apply number_exists; auto.
      + apply number_exists; auto. }
  split; apply G.
Qed.

End Values.

(* ================================================================= *)
(** ** Searching *)

Section Searching.

(** A search that finds nothing has no match at any cursor. *)
Lemma pieces_quiet r : forall x prev y,
  existsb is_hit (pieces r 0 prev (x ++ y)) = false ->
  match_at r (last_of prev x) y = None.
Proof.
  induction x as [|c x IH]; intros prev y H.
  - cbn [app last_of rev] in *.
    destruct (match_at r prev y) as [m|] eqn:E; [|reflexivity].
    exfalso. destruct y as [|d y]; cbn [pieces] in H; rewrite E in H.
    + discriminate.
    + destruct (length (whole m)); discriminate.
  - cbn [app pieces] in H. rewrite last_of_cons.
    destruct (match_at r prev (c :: x ++ y)) as [m|].
    + destruct (length (whole m)); discriminate.
    + apply IH. exact H.
Qed.

Lemma search_finds r x y st' :
  den r (MState (last_of None x) y []) st' -> re_search r (x ++ y) = true.
Proof.
  intros D. destruct (re_search r (x ++ y)) eqn:E; [reflexivity|].
  exfalso. apply (match_at_exists _ _ _ _ D).
  apply pieces_quiet. exact E.
Qed.

Lemma contains_here w : forall a b, contains w (a ++ w ++ b) = true.
Proof.
  induction a as [|c a IH]; intros b.
  - cbn [app]. destruct (w ++ b) eqn:E; unfold contains; fold contains.
    + assert (S : starts_with w (w ++ b) = true) by (apply starts_with_app; eauto).
      rewrite E in S. rewrite S. reflexivity.
    + assert (S : starts_with w (w ++ b) = true) by (apply starts_with_app; eauto).
      rewrite E in S. rewrite S. reflexivity.
  - cbn [app contains]. rewrite IH. apply orb_true_r.
Qed.

Lemma contains_none w s a b : contains w s = false -> s <> a ++ w ++ b.
Proof. intros H E. rewrite E, contains_here in H. discriminate. Qed.

Lemma skipn_split {A} (s : list A) i t :
  skipn i s = t -> s = firstn i s ++ t.
Proof. intros <-. symmetry. apply firstn_skipn. Qed.

(** A text in which no literal of the table occurs is quiet. *)
Lemma quiet_of_contains L s :
  (forall l r, In (l, r) L -> contains l s = false) -> quiet L s.
Proof.
  intros H i. apply find_entry_none. intros l r I.
  destruct (starts_with l (skipn i s)) eqn:S; [|reflexivity].
  exfalso. apply starts_with_app in S. destruct S as (t & S).
  apply skipn_split in S. exact (contains_none _ _ _ _ (H _ _ I) S).
Qed.

Lemma contains_of_quiet L s l r a b :
  quiet L s -> In (l, r) L -> s <> a ++ l ++ b.
Proof.
  intros Q I E. specialize (Q (length a)).
  rewrite E, skipn_app, skipn_all, Nat.sub_diag in Q. cbn [skipn app] in Q.
  rewrite find_entry_none in Q. specialize (Q _ _ I).
  assert (S : starts_with l (l ++ b) = true) by (apply starts_with_app; eauto).
  congruence.
Qed.

End Searching.

(* ================================================================= *)
(** ** The rewriter of [update-styles.py] *)

Section V1Rewriter.

Import UpdateStyles.

(** The six substitutions of [add_tablet_specific_styles], applied one
    after the other to the whole content, amount to a single pass from left
    to right that replaces each literal of the table [v1_table] where it
    stands; the call raises [IndexError] instead when a [gap: N,] is left
    after the first two substitutions. *)
Theorem v1_rewriter_is_one_pass (content : text) :
  add_tablet_specific_styles content =
  if re_search GAP_RE (one_pass (spacing_table ++ font_table) content)
  then Raise IndexError
  else Ok (one_pass v1_table content).
Proof. apply v1_rewriter_one_pass. Qed.

Lemma gap_survives K0 u v :
  key_ok K0 = true ->
  one_pass (spacing_table ++ font_table) (u ++ declaration (txt "gap") K0 ++ v)
  = one_pass (spacing_table ++ font_table) u ++ declaration (txt "gap") K0
    ++ one_pass (spacing_table ++ font_table) v.
Proof.
  intros Key.
  apply (declaration_kept (spacing_table ++ font_table) [txt "gap"] []);
    try (vm_compute; reflexivity); auto.
  left. reflexivity.
Qed.

Lemma gap_found K0 x y :
  key_ok K0 = true ->
  re_search GAP_RE (x ++ declaration (txt "gap") K0 ++ y) = true.
Proof.
  intros Key.
  assert (N : K0 <> []) by (destruct K0; discriminate).
  assert (D : forallb is_digit K0 = true)
    by (unfold key_ok in Key; destruct K0; [discriminate|exact Key]).
  set (q := last_of None x).
  apply (search_finds GAP_RE x _
           (MState (Some ","%char) y [(1, K0)])).
  fold q. unfold GAP_RE, declaration.
  apply (DSeq _ _ _ (MState (last_of q (txt "gap: ")) (K0 ++ txt "," ++ y) [])).
  { apply (Lit_den (txt "gap: ") (MState q _ []) (K0 ++ txt "," ++ y)).
    cbn [rest]. rewrite <- !app_assoc. reflexivity. }
  apply (DSeq _ _ _ (MState (last_of (last_of q (txt "gap: ")) K0)
                            (txt "," ++ y) [(1, K0)])).
  { apply (Group_den 1 _ (MState (last_of q (txt "gap: ")) (K0 ++ txt "," ++ y) [])
                     (MState (last_of (last_of q (txt "gap: ")) K0)
                             (txt "," ++ y) []) K0).
    - apply Plus_Class_den; assumption.
    - reflexivity. }
  apply Char_den.
Qed.

(** The [gap] substitution calls [replace_spacing], which asks for group 2
    of a pattern that has one group: a content with a declaration [gap: N,]
    makes [add_tablet_specific_styles] raise [IndexError], whatever else it
    holds, and [process_file] then prints the error, returns [False] and
    leaves the file as it is. *)
Theorem gap_declaration_raises (K0 u v : text) (fs : filesystem) (p : path) :
  key_ok K0 = true ->
  read_text fs p = Ok (u ++ declaration (txt "gap") K0 ++ v) ->
  contains STYLE_MARKER (u ++ declaration (txt "gap") K0 ++ v) = true ->
  count TABLET_MARKER (u ++ declaration (txt "gap") K0 ++ v) <= 5 ->
  add_tablet_specific_styles (u ++ declaration (txt "gap") K0 ++ v)
  = Raise IndexError /\
  process_file fs p = (false, fs, [ErrorProcessing p IndexError]).
Proof.
  intros Key R M T.
  assert (E : add_tablet_specific_styles (u ++ declaration (txt "gap") K0 ++ v)
              = Raise IndexError).
  { rewrite v1_rewriter_one_pass, (gap_survives K0 u v Key),
      (gap_found K0 _ _ Key). reflexivity. }
  split; [exact E|].
  unfold process_file.
  rewrite (v1_gate_open add_tablet_specific_styles fs p _ R M T), E.
  reflexivity.
Qed.

Lemma gap_declaration_witness :
  add_tablet_specific_styles
    (txt "StyleSheet.create({ row: { " ++ declaration (txt "gap") (txt "8")
     ++ txt " padding: 16, } });")
  = Raise IndexError /\
  process_file
    (fs_all (txt "StyleSheet.create({ row: { " ++ declaration (txt "gap") (txt "8")
             ++ txt " padding: 16, } });") true)
    (txt "Row.tsx")
  = (false,
     fs_all (txt "StyleSheet.create({ row: { " ++ declaration (txt "gap") (txt "8")
             ++ txt " padding: 16, } });") true,
     [ErrorProcessing (txt "Row.tsx") IndexError]).
Proof.
  apply (gap_declaration_raises (txt "8") (txt "StyleSheet.create({ row: { ")
           (txt " padding: 16, } });")
           (fs_all (txt "StyleSheet.create({ row: { "
                    ++ declaration (txt "gap") (txt "8")
                    ++ txt " padding: 16, } });") true)
           (txt "Row.tsx")).
  - reflexivity.
  - reflexivity.
  - vm_compute. reflexivity.
  - vm_compute. lia.
Defined.

(** What [add_tablet_specific_styles] returns holds no text that it
    replaces: no declaration [name: N,] of a spacing property or of
    [fontSize] with a key [N] of its table, no [borderRadius: 12,], and no
    [size] followed by 24 or 20 equals signs. *)
Theorem v1_output_is_settled (content content' : text) :
  add_tablet_specific_styles content = Ok content' ->
  forall l r a b, In (l, r) v1_table -> content' <> a ++ l ++ b.
Proof.
  intros H l r a b I. apply v1_rewriter_returns in H. subst content'.
  apply (contains_of_quiet v1_table _ l r a b); [|exact I].
  apply settles_quiet. vm_compute. reflexivity.
Qed.

Lemma v1_output_witness :
  txt "card: { padding: spacing.lg, borderRadius: deviceInfo.isTablet ? 14 : 12, }"
  <> txt "card: { padding: spacing.lg, " ++ txt "borderRadius: 12," ++ txt " }".
Proof.
  apply (v1_output_is_settled (txt "card: { padding: 16, borderRadius: 12, }")
           (txt "card: { padding: spacing.lg, borderRadius: deviceInfo.isTablet ? 14 : 12, }")
           eq_refl
           (txt "borderRadius: 12,") RADIUS_NEW
           (txt "card: { padding: spacing.lg, ") (txt " }")).
  unfold v1_table. apply in_or_app. right. apply in_or_app. right.
  left. reflexivity.
Defined.

(** In [update-styles.py] the corner-radius substitution and the two
    icon-size substitutions give the same text in either order, on every
    content. *)
Theorem v1_radius_and_sizes_commute (content : text) :
  (x <- radius_rule content ;; size_rules x)
  = (x <- size_rules content ;; radius_rule x).
Proof. apply v1_rules_commute. Qed.

Lemma contains_prefix w w' : forall s,
  contains (w ++ w') s = true -> contains w s = true.
Proof.
  assert (P : forall s, starts_with (w ++ w') s = true -> starts_with w s = true).
  { intros s H. apply starts_with_app in H. destruct H as (t & ->).
    rewrite <- app_assoc. apply starts_with_app. eauto. }
  induction s as [|c s IH]; intros H.
  - cbn [contains] in *. rewrite orb_false_r in *. apply P. exact H.
  - cbn [contains] in *. apply orb_prop in H. destruct H as [H|H].
    + rewrite (P _ H). reflexivity.
    + rewrite (IH H). apply orb_true_r.
Qed.

(** The patterns [size={24}] and [size={20}] of [update-styles.py] ask for
    [size] followed by 24 or 20 equals signs: a content in which [size] is
    nowhere followed by twenty equals signs, such as one that spells
    [size={24}], goes through the two icon-size substitutions unchanged. *)
Theorem v1_sizes_need_equals_signs (content : text) :
  contains (size_literal 20) content = false ->
  size_rules content = Ok content.
Proof.
  intros H. rewrite v1_sizes_are_pass. f_equal. apply quiet_id.
  apply quiet_of_contains. intros l r [E|[E|[]]]; inversion E; subst; [|exact H].
  destruct (contains (size_literal 24) content) eqn:C; [|reflexivity].
  change (size_literal 24) with (size_literal 20 ++ txt "====") in C.
  apply contains_prefix in C. congruence.
Qed.

Lemma v1_sizes_witness :
  size_rules (txt "<Ionicons name=`add` size={24} />")
  = Ok (txt "<Ionicons name=`add` size={24} />").
Proof.
  apply v1_sizes_need_equals_signs. vm_compute. reflexivity.
Defined.

End V1Rewriter.

(* ================================================================= *)
(** ** The icon substitutions of [update-styles-v2.py] *)

Section Icons.

Import UpdateStylesV2.

Lemma icon_arity n : ngroups (ICON_RE n) = 2.
Proof.
  unfold ICON_RE. cbn [ngroups Plus]. rewrite Rep_Char_Lit, !ngroups_Lit.
  reflexivity.
Qed.

(** What a match of an icon pattern looks like, and what the template
    makes of it. *)
Lemma icon_shape n sz prev s m :
  match_at (ICON_RE n) prev s = Some m ->
  exists W g1 g2,
    whole m = txt "<Ionicons" ++ W ++ g1 ++ size_literal n ++ g2 ++ txt "/>" /\
    W <> [] /\ forallb is_space W = true /\
    no_gt g1 = true /\ no_gt g2 = true /\
    expand (icon_template sz) m
    = Ok (txt "<Ionicons " ++ g1 ++ sz ++ g2 ++ txt "/>").
Proof.
  intros E. destruct (match_at_den _ _ _ _ E) as (st' & D & Es & G & A).
  unfold ICON_RE in D.
  apply den_Seq in D. destruct D as (st1 & D1 & D).
  apply den_Lit in D1. destruct D1 as (R1 & C1 & _).
  apply den_Seq in D. destruct D as (st2 & D2 & D).
  apply den_Plus_Class in D2. destruct D2 as (W & NW & SW & R2 & C2 & _).
  apply den_Seq in D. destruct D as (st3 & D3 & D).
  apply den_Group in D3. destruct D3 as (g1 & sta & Da & Eg1 & R3 & _ & C3).
  apply den_Star_Class in Da. destruct Da as (w1 & F1 & Ra & Ca & _).
  apply den_Seq in D. destruct D as (st4 & D4 & D).
  apply den_Lit in D4. destruct D4 as (R4 & C4 & _).
  apply den_Seq in D. destruct D as (st5 & D5 & D).
  rewrite Rep_Char_Lit in D5.
  apply den_Lit in D5. destruct D5 as (R5 & C5 & _).
  apply den_Seq in D. destruct D as (st6 & D6 & D7).
  apply den_Group in D6. destruct D6 as (g2 & stb & Db & Eg2 & R6 & _ & C6).
  apply den_Star_Class in Db. destruct Db as (w2 & F2 & Rb & Cb & _).
  apply den_Lit in D7. destruct D7 as (R7 & C7 & _).
  cbn [rest caps] in *.
  assert (w1 = g1) as -> by (rewrite Ra in Eg1; apply app_inv_tail in Eg1; auto).
  assert (w2 = g2) as -> by (rewrite Rb in Eg2; apply app_inv_tail in Eg2; auto).
  assert (Et : s = (txt "<Ionicons" ++ W ++ g1 ++ size_literal n ++ g2 ++ txt "/>")
                   ++ rest st').
  { rewrite R1, R2, Ra, <- R3, R4, R5, Rb, <- R6, R7.
    unfold size_literal. rewrite <- !app_assoc. reflexivity. }
  assert (Ew : whole m = txt "<Ionicons" ++ W ++ g1 ++ size_literal n ++ g2
                         ++ txt "/>").
  { rewrite Et in Es at 1. apply app_inv_tail in Es. auto. }
  assert (Eg : groups m = [(2, g2); (1, g1)]).
  { rewrite G, C7, C6, Cb, C5, C4, C3, Ca, C2, C1. reflexivity. }
  assert (Ea : arity m = 2) by (rewrite A; apply icon_arity).
  exists W, g1, g2. repeat split; auto.
  unfold expand, icon_template. cbn [mapM expand_item]. unfold group.
  rewrite Ea, Eg. cbn [Nat.eqb Nat.leb assoc bind concat].
  rewrite app_nil_r. reflexivity.
Qed.

Lemma icon_sub_total n sz s :
  exists s', re_sub (ICON_RE n) (expand (icon_template sz)) s = Ok s'.
Proof.
  unfold re_sub.
  destruct (mapM (piece_out (expand (icon_template sz)))
                 (pieces (ICON_RE n) 0 None s)) as [outs|e] eqn:M.
  - cbn [bind]. eauto.
  - exfalso.
    assert (T : forall ps, (forall m, In (Hit m) ps ->
                  exists o, expand (icon_template sz) m = Ok o) ->
                exists outs, mapM (piece_out (expand (icon_template sz))) ps
                             = Ok outs).
    { induction ps as [|pc ps IH]; intros H; [exists []; reflexivity|].
      destruct IH as (outs & Eo).
      { intros m I. apply H. right. exact I. }
      cbn [mapM]. destruct pc as [c|m]; cbn [piece_out bind].
      - rewrite Eo. cbn [bind]. eauto.
      - destruct (H m) as (o & Em); [left; reflexivity|].
        rewrite Em, Eo. cbn [bind]. eauto. }
    destruct (T (pieces (ICON_RE n) 0 None s)) as (outs & Eo).
    + intros m I. apply hit_attempt in I. destruct I as (prev & s0 & H).
      destruct (icon_shape n sz _ _ _ H) as (W & g1 & g2 & _ & _ & _ & _ & _ & X).
      eauto.
    + congruence.
Qed.

Lemma re_sub_total r repl s :
  (forall m, In (Hit m) (pieces r 0 None s) -> exists o, repl m = Ok o) ->
  exists s', re_sub r repl s = Ok s'.
Proof.
  unfold re_sub. generalize (pieces r 0 None s) as ps.
  induction ps as [|pc ps IH]; intros H; [cbn; eauto|].
  destruct IH as (s' & Es).
  { intros m I. apply H. right. exact I. }
  destruct (mapM (piece_out repl) ps) as [outs|e] eqn:M; [|discriminate].
  cbn [mapM]. destruct pc as [c|m]; cbn [piece_out bind].
  - rewrite M. cbn [bind]. eauto.
  - destruct (H m) as (o & Em); [left; reflexivity|].
    rewrite Em. cbn [bind]. rewrite M. cbn [bind]. eauto.
Qed.

Lemma blocks_total content :
  exists content', re_sub BLOCK_RE process_stylesheet content = Ok content'.
Proof.
  apply re_sub_total. intros m I.
  destruct (block_hit _ _ I) as (g & _ & G).
  unfold process_stylesheet. rewrite G. cbn [bind].
  rewrite restyle_scans. cbn [bind]. eauto.
Qed.

Lemma icons_total content :
  exists content', update_icon_sizes content = Ok content'.
Proof.
  unfold update_icon_sizes.
  destruct (icon_sub_total 24
              (txt "size={deviceInfo.isTablet ? scale(26) : scale(24)}") content)
    as (c1 & E1).
  change (expand (icon_template
            (txt "size={deviceInfo.isTablet ? scale(26) : scale(24)}")))
    with (expand ICON24_NEW) in E1.
  rewrite E1. cbn [bind].
  apply (icon_sub_total 20
           (txt "size={deviceInfo.isTablet ? scale(22) : scale(20)}") c1).
Qed.

(** The regular-expression work of [update-styles-v2.py] never raises:
    the [except] branch of [update_styles_in_stylesheet] is never taken, so
    it prints nothing, and [update_icon_sizes] always returns.  The only
    error line [process_file] can print reports a failure to read or to
    write the file. *)
Theorem v2_errors_are_io_errors (fs : filesystem) (p : path) (o : out) :
  In o (printed (process_file fs p)) ->
  exists e, o = ErrorProcessing p e /\
    (read_text fs p = Raise e \/ (e = OSError /\ writable (fs p) = false)).
Proof.
  unfold process_file, process_file_with, process_body, printed.
  destruct (read_text fs p) as [c|e] eqn:R; cbn [bind].
  2:{ cbn [snd]. intros [<-|[]]. eauto. }
  destruct (negb (contains STYLE_MARKER c)); [intros []|].
  destruct (THRESHOLD <? count TABLET_MARKER c); [intros []|].
  unfold update_styles_in_stylesheet.
  destruct (blocks_total c) as (c1 & E1). rewrite E1.
  destruct (icons_total c1) as (c2 & E2). rewrite E2. cbn [bind].
  destruct (negb (text_eqb c2 c)); [|intros []].
  unfold write_text. destruct (writable (fs p)) eqn:Wr; cbn [bind snd app].
  - intros [].
  - intros [<-|[]]. exists OSError. split; [reflexivity|]. right. auto.
Qed.

Lemma v2_errors_witness :
  exists e, ErrorProcessing (txt "A.tsx") OSError = ErrorProcessing (txt "A.tsx") e /\
    (read_text (fs_all two_sizes false) (txt "A.tsx") = Raise e \/
     (e = OSError /\ writable (fs_all two_sizes false (txt "A.tsx")) = false)).
Proof.
  apply (v2_errors_are_io_errors (fs_all two_sizes false) (txt "A.tsx")).
  vm_compute. left. reflexivity.
Defined.

Lemma icon_needs_literal n content :
  contains (size_literal n) content = false ->
  re_search (ICON_RE n) content = false.
Proof.
  intros H. destruct (re_search (ICON_RE n) content) eqn:E; [|reflexivity].
  exfalso. unfold re_search in E. apply existsb_exists in E.
  destruct E as ([c|m] & I & T); [discriminate|].
  destruct (hit_position _ _ _ _ _ I) as (a & b & Ec).
  apply hit_attempt in I. destruct I as (prev & s0 & M).
  destruct (icon_shape n [] _ _ _ M) as (W & g1 & g2 & Ew & _).
  rewrite Ew in Ec.
  apply (contains_none _ _ (a ++ txt "<Ionicons" ++ W ++ g1) (g2 ++ txt "/>" ++ b) H).
  rewrite Ec, <- !app_assoc. reflexivity.
Qed.

(** The patterns of [update_icon_sizes] hold [size={24}] and [size={20}]
    unescaped, which asks for [size] followed by 24 or 20 equals signs: a
    content in which [size] is nowhere followed by twenty equals signs, such
    as a tag that spells [size={24}], is returned unchanged. *)
Theorem v2_icons_need_equals_signs (content : text) :
  contains (size_literal 20) content = false ->
  update_icon_sizes content = Ok content.
Proof.
  intros H. unfold update_icon_sizes.
  rewrite re_sub_no_hit.
  - cbn [bind]. apply re_sub_no_hit. apply icon_needs_literal. exact H.
  - apply icon_needs_literal.
    destruct (contains (size_literal 24) content) eqn:C; [|reflexivity].
    change (size_literal 24) with (size_literal 20 ++ txt "====") in C.
    apply contains_prefix in C. congruence.
Qed.

Lemma v2_icons_witness :
  update_icon_sizes (txt "<Ionicons name=`add` size={24} color=`red` />")
  = Ok (txt "<Ionicons name=`add` size={24} color=`red` />").
Proof.
  apply v2_icons_need_equals_signs. vm_compute. reflexivity.
Defined.

End Icons.

(* ================================================================= *)
(** ** Punctuation separates the work of [process_stylesheet] *)

Section Punctuation.

Variable ALL : list text.
Hypothesis Apart : names_apart ALL = true.
Hypothesis Names : forallb name_ok ALL = true.

Variables (mu : matcher) (ns : list text) (K tok : text).
Hypothesis F : family mu ns K tok.
Hypothesis Sub : incl ns ALL.
Hypothesis Key : key_ok K = true.

Lemma site_chars n ws c :
  In n ns -> forallb is_space ws = true ->
  In c (n ++ txt ":" ++ ws ++ K) -> barrier c = false.
Proof.
  intros I Ws Ic. unfold barrier.
  apply in_app_or in Ic. destruct Ic as [Ic|Ic].
  { rewrite (forallb_in _ _ _ (name_word ALL Names n (Sub _ I)) Ic). reflexivity. }
  apply in_app_or in Ic. destruct Ic as [[<-|[]]|Ic].
  { rewrite andb_false_r. reflexivity. }
  apply in_app_or in Ic. destruct Ic as [Ic|Ic].
  - rewrite (forallb_in _ _ _ Ws Ic). rewrite andb_false_r. reflexivity.
  - destruct (key_shape K Key) as [D _].
    rewrite (digit_is_word _ (forallb_in _ _ _ D Ic)). reflexivity.
Qed.

Lemma barrier_not_word c : barrier c = true -> is_word c = false.
Proof.
  unfold barrier. intros H. apply andb_prop in H. destruct H as [H _].
  apply andb_prop in H. destruct H as [H _].
  destruct (is_word c); [discriminate|reflexivity].
Qed.

(** What follows a barrier takes no part in the matches before it. *)
Lemma fam_barrier p x c u :
  barrier c = true -> mu p (x ++ c :: u) = mu p x.
Proof.
  intros B. apply (fam_same mu ns K tok F).
  - intros n ws t (I & Wp & E & Ws & T).
    replace (n ++ txt ":" ++ ws ++ K ++ t)
      with ((n ++ txt ":" ++ ws ++ K) ++ t) in E
      by (rewrite <- !app_assoc; reflexivity).
    destruct (app_eq_split _ _ _ _ E) as (l & [[E1 E2]|[E1 E2]]).
    + exists l. repeat split; auto.
      * rewrite E1, <- !app_assoc. reflexivity.
      * destruct l as [|d l]; [reflexivity|]. rewrite E2 in T. exact T.
    + destruct l as [|d l].
      * exists []. rewrite app_nil_r in E1. repeat split; auto.
        rewrite <- E1, app_nil_r. reflexivity.
      * exfalso. cbn [app] in E2. injection E2 as <- _.
        assert (Ic : In c (n ++ txt ":" ++ ws ++ K))
          by (rewrite E1; apply in_or_app; right; left; reflexivity).
        rewrite (site_chars n ws c I Ws Ic) in B. discriminate.
  - intros n ws t (I & Wp & E & Ws & T).
    exists (t ++ c :: u). repeat split; auto.
    + rewrite E, <- !app_assoc. reflexivity.
    + destruct t as [|d t]; [|exact T].
      cbn [app hd_error word_opt]. apply barrier_not_word. exact B.
Qed.

Lemma scan_prev p p' u :
  word_opt p = word_opt p' -> scan mu p u = scan mu p' u.
Proof.
  intros W. destruct u as [|c u]; [reflexivity|].
  assert (E : mu p (c :: u) = mu p' (c :: u)).
  { apply (fam_same mu ns K tok F); intros n ws t (I & Wp & E & Ws & T);
      exists t; repeat split; auto; congruence. }
  unfold scan. cbn [scan_from]. rewrite E. reflexivity.
Qed.

Lemma scan_barrier x c u :
  barrier c = true ->
  scan mu None (x ++ c :: u) = scan mu None x ++ c :: scan mu None u.
Proof.
  intros B.
  rewrite (scan_cut mu (c :: u) (fam_proper ALL Names mu ns K tok F Sub)).
  - f_equal.
    rewrite (scan_head ALL Names mu ns K tok F Sub)
      by (apply barrier_not_word; exact B).
    f_equal. apply scan_prev. cbn [word_opt]. apply barrier_not_word. exact B.
  - intros x1 x2 _ _. apply fam_barrier. exact B.
Qed.

End Punctuation.

Section Separators.

Import UpdateStylesV2.

Lemma scans_barrier ALL mus ds :
  forallb name_ok ALL = true ->
  families mus ds -> forallb (rule_ok ALL) ds = true ->
  forall x c u, barrier c = true ->
    scans mus (x ++ c :: u) = scans mus x ++ c :: scans mus u.
Proof.
  intros Names Fs. induction Fs as [|mu d mus ds F _ IH]; intros Ok x c u B.
  - reflexivity.
  - simpl in Ok. apply andb_prop in Ok. destruct Ok as [Od Ok].
    destruct (rule_ok_parts ALL d Od) as (Sub & Key & _).
    cbn [scans].
    rewrite (scan_barrier ALL Names mu _ _ _ F Sub Key x c u B).
    apply IH; assumption.
Qed.

(** In the text of a style block, a character that is neither a word
    character, nor white space, nor a colon (a comma, a brace, a
    semicolon, a quote) separates the work of [process_stylesheet]: what
    stands before it and what stands after it are rewritten independently
    of each other, and the character is kept. *)
Theorem restyle_splits_at_punctuation (x y : text) (c : ascii) :
  barrier c = true ->
  exists x' y',
    restyle x = Ok x' /\ restyle y = Ok y' /\
    restyle (x ++ c :: y) = Ok (x' ++ c :: y').
Proof.
  intros B. exists (scans v2_matchers x), (scans v2_matchers y).
  rewrite !restyle_scans. repeat split. f_equal.
  apply (scans_barrier V2_NAMES v2_matchers v2_rules v2_names_ok
           v2_families v2_rules_ok x c y B).
Qed.

Lemma restyle_splits_witness :
  exists x' y',
    restyle (txt " padding: 16") = Ok x' /\
    restyle (txt " fontSize: 24 ") = Ok y' /\
    restyle (txt " padding: 16" ++ ","%char :: txt " fontSize: 24 ")
    = Ok (x' ++ ","%char :: y').
Proof.
  apply (restyle_splits_at_punctuation (txt " padding: 16")
           (txt " fontSize: 24 ") ","%char).
  reflexivity.
Defined.

End Separators.

(* ================================================================= *)
(** ** The batch of [update-styles.py] *)

Section V1Batch.

Import UpdateStyles.

Lemma v1_prints_no_update fs p : updates (printed (process_file fs p)) = 0.
Proof.
  unfold process_file, process_file_with, process_body, printed.
  destruct (read_text fs p) as [c|e]; cbn [bind]; [|reflexivity].
  destruct (negb (contains STYLE_MARKER c)); [reflexivity|].
  destruct (THRESHOLD <? count TABLET_MARKER c); [reflexivity|].
  destruct (add_tablet_specific_styles c) as [c'|e]; cbn [bind]; [|reflexivity].
  destruct (negb (text_eqb c' c)); [|reflexivity].
  destruct (write_text fs p c'); reflexivity.
Qed.

Lemma updates_app l1 l2 : updates (l1 ++ l2) = updates l1 + updates l2.
Proof. unfold updates. rewrite filter_app, length_app. reflexivity. Qed.

(** One loop of [main]: it counts the lines [Updated ...] it prints, at
    most one for each file it takes, and touches no other file. *)
Lemma v1_loop_counts skip files : forall fs log n,
  exists fs' more k,
    loop skip files (fs, log, n) = (fs', log ++ more, n + k) /\
    updates more = k /\ k <= length (taken skip files) /\
    forall q, ~ In q (taken skip files) -> fs' q = fs q.
Proof.
  induction files as [|p files IH]; intros fs log n.
  - exists fs, [], 0. rewrite app_nil_r, Nat.add_0_r. repeat split; auto.
  - cbn [loop]. unfold taken. cbn [filter].
    destruct (skip p) eqn:Sk; cbn [negb].
    + apply IH.
    + pose proof (v1_prints_no_update fs p) as U.
      pose proof (v1_frame fs p) as Fr.
      destruct (process_file fs p) as [[ch fs1] pr].
      cbn [printed fs_after fst snd] in U, Fr.
      destruct ch.
      * destruct (IH fs1 (log ++ pr ++ [Updated (basename p)]) (S n))
          as (fs' & more & k & E & Uk & Le & Fq).
        exists fs', (pr ++ [Updated (basename p)] ++ more), (S k).
        rewrite E. repeat split.
        -- f_equal; [f_equal; rewrite <- !app_assoc; reflexivity|lia].
        -- rewrite !updates_app, U, Uk. reflexivity.
        -- cbn [length]. fold (taken skip files). lia.
        -- intros q N. rewrite Fq by (intros I; apply N; right; exact I).
           apply Fr. intros ->. apply N. left. reflexivity.
      * destruct (IH fs1 (log ++ pr) n) as (fs' & more & k & E & Uk & Le & Fq).
        exists fs', (pr ++ more), k.
        rewrite E. repeat split.
        -- f_equal. f_equal. rewrite <- !app_assoc. reflexivity.
        -- rewrite updates_app, U, Uk. reflexivity.
        -- cbn [length]. fold (taken skip files). lia.
        -- intros q N. rewrite Fq by (intros I; apply N; right; exact I).
           apply Fr. intros ->. apply N. left. reflexivity.
Qed.

Lemma taken_all files : taken (fun _ => false) files = files.
Proof.
  unfold taken. induction files as [|p files IH]; [reflexivity|].
  simpl. f_equal. exact IH.
Qed.

(** The count that [main] prints in its summary is the number of lines
    [Updated ...] it has printed, and is at most the number of files it has
    processed: the screens, and the components other than
    [ResponsiveLayout.tsx]. *)
Theorem v1_main_counts_updates (screens components : list path) (fs : filesystem) :
  snd (main screens components fs)
  = updates (snd (fst (main screens components fs))) /\
  In (SummaryCount (snd (main screens components fs)))
     (snd (fst (main screens components fs))) /\
  snd (main screens components fs)
  <= length screens
     + length (taken (ends_with (txt "ResponsiveLayout.tsx")) components).
Proof.
  unfold main.
  destruct (v1_loop_counts (fun _ => false) screens fs [ProcessingScreens] 0)
    as (fsA & m1 & k1 & EA & U1 & L1 & _).
  rewrite EA.
  destruct (v1_loop_counts (ends_with (txt "ResponsiveLayout.tsx")) components
              fsA (([ProcessingScreens] ++ m1) ++ [ProcessingComponents]) (0 + k1))
    as (fsB & m2 & k2 & EB & U2 & L2 & _).
  rewrite EB. cbn [fst snd]. rewrite taken_all in L1. repeat split.
  - rewrite !updates_app, U1, U2. cbn. lia.
  - apply in_or_app. right. right. left. reflexivity.
  - lia.
Qed.

(** [main] leaves every file alone that is not among the screens and is
    not a component it processes; a component whose path ends with
    [ResponsiveLayout.tsx] is among those it leaves alone. *)
Theorem v1_main_touches_its_files_only
  (screens components : list path) (fs : filesystem) (q : path) :
  ~ In q screens ->
  ~ In q (taken (ends_with (txt "ResponsiveLayout.tsx")) components) ->
  fst (fst (main screens components fs)) q = fs q.
Proof.
  intros N1 N2. unfold main.
  destruct (v1_loop_counts (fun _ => false) screens fs [ProcessingScreens] 0)
    as (fsA & m1 & k1 & EA & _ & _ & FA).
  rewrite EA.
  destruct (v1_loop_counts (ends_with (txt "ResponsiveLayout.tsx")) components
              fsA (([ProcessingScreens] ++ m1) ++ [ProcessingComponents]) (0 + k1))
    as (fsB & m2 & k2 & EB & _ & _ & FB).
  rewrite EB. cbn [fst snd].
  rewrite (FB q N2). apply FA. rewrite taken_all. exact N1.
Qed.

Lemma v1_main_frame_witness :
  fst (fst (main [txt "Home.tsx"] [txt "ui/ResponsiveLayout.tsx"]
              (fs_all (txt "StyleSheet.create({ a: { padding: 16, } });") true)))
      (txt "ui/ResponsiveLayout.tsx")
  = fs_all (txt "StyleSheet.create({ a: { padding: 16, } });") true
           (txt "ui/ResponsiveLayout.tsx").
Proof.
  apply v1_main_touches_its_files_only.
  - intros [H|[]]. vm_compute in H. discriminate.
  - vm_compute. intros [].
Defined.

End V1Batch.

(* ================================================================= *)
(** ** The batch of [update-styles-v2.py] *)

Section V2Batch.

Import UpdateStylesV2.

(** What [process_file] does: nothing to the file system, or one write to
    its file; it prints no line [Updated ...] itself. *)
Lemma v2_process_cases fs p :
  updates (printed (process_file fs p)) = 0 /\
  ((changed (process_file fs p) = false /\ fs_after (process_file fs p) = fs) \/
   (exists c', changed (process_file fs p) = true /\
               fs_after (process_file fs p)
               = (fun q => if text_eqb q p then Node (Ok c') true else fs q))).
Proof.
  unfold process_file, process_file_with, process_body, printed, changed, fs_after.
  destruct (read_text fs p) as [c|e]; cbn [bind]; [|cbn; auto].
  destruct (negb (contains STYLE_MARKER c)); [cbn; auto|].
  destruct (THRESHOLD <? count TABLET_MARKER c); [cbn; auto|].
  unfold update_styles_in_stylesheet.
  destruct (blocks_total c) as (c1 & E1). rewrite E1.
  destruct (icons_total c1) as (c2 & E2). rewrite E2. cbn [bind].
  destruct (negb (text_eqb c2 c)); [|cbn; auto].
  unfold write_text. destruct (writable (fs p)); cbn; eauto.
Qed.

Lemma v2_loop_counts files : forall fs log n,
  exists fs' more k,
    loop files (fs, log, n) = (fs', log ++ more, n + k) /\
    updates more = k /\ k <= length (taken skipped files) /\
    forall q, ~ In q (taken skipped files) -> fs' q = fs q.
Proof.
  induction files as [|p files IH]; intros fs log n.
  - exists fs, [], 0. rewrite app_nil_r, Nat.add_0_r. repeat split; auto.
  - cbn [loop]. unfold taken. cbn [filter].
    destruct (skipped p) eqn:Sk; cbn [negb].
    + apply IH.
    + destruct (v2_process_cases fs p) as [U Cs].
      assert (Fr : forall q, q <> p -> fs_after (process_file fs p) q = fs q).
      { intros q N. destruct Cs as [[_ ->]|(c' & _ & ->)]; [reflexivity|].
        apply text_eqb_neq in N. rewrite N. reflexivity. }
      clear Cs.
      destruct (process_file fs p) as [[ch fs1] pr].
      cbn [printed fs_after fst snd] in U, Fr.
      destruct ch.
      * destruct (IH fs1 (log ++ pr ++ [Updated (basename p)]) (S n))
          as (fs' & more & k & E & Uk & Le & Fq).
        exists fs', (pr ++ [Updated (basename p)] ++ more), (S k).
        rewrite E. repeat split.
        -- f_equal; [f_equal; rewrite <- !app_assoc; reflexivity|lia].
        -- rewrite !updates_app, U, Uk. reflexivity.
        -- cbn [length]. fold (taken skipped files). lia.
        -- intros q N. rewrite Fq by (intros I; apply N; right; exact I).
           apply Fr. intros ->. apply N. left. reflexivity.
      * destruct (IH fs1 (log ++ pr) n) as (fs' & more & k & E & Uk & Le & Fq).
        exists fs', (pr ++ more), k.
        rewrite E. repeat split.
        -- f_equal. f_equal. rewrite <- !app_assoc. reflexivity.
        -- rewrite updates_app, U, Uk. reflexivity.
        -- cbn [length]. fold (taken skipped files). lia.
        -- intros q N. rewrite Fq by (intros I; apply N; right; exact I).
           apply Fr. intros ->. apply N. left. reflexivity.
Qed.

(** The count that [main] prints in its summary is the number of lines
    [Updated ...] it has printed, and is at most the number of files it
    does not skip; the number in its first line counts the skipped files
    too. *)
Theorem v2_main_counts_updates (screens components : list path) (fs : filesystem) :
  snd (main screens components fs)
  = updates (snd (fst (main screens components fs))) /\
  In (SummaryCount (snd (main screens components fs)))
     (snd (fst (main screens components fs))) /\
  snd (main screens components fs)
  <= length (taken skipped (screens ++ components)) /\
  hd_error (snd (fst (main screens components fs)))
  = Some (ProcessingFiles (length screens + length components)).
Proof.
  unfold main.
  destruct (v2_loop_counts (screens ++ components) fs
              [ProcessingFiles (length (screens ++ components)); BlankLine] 0)
    as (fsA & m1 & k1 & EA & U1 & L1 & _).
  rewrite EA. cbn [fst snd]. repeat split.
  - rewrite !updates_app, U1. cbn. lia.
  - apply in_or_app. right. right. left. reflexivity.
  - lia.
  - cbn. rewrite length_app. reflexivity.
Qed.

(** [main] leaves alone every file that is not in its list, and every
    file whose path contains [ResponsiveLayout.tsx] or [responsive.ts]. *)
Theorem v2_main_touches_its_files_only
  (screens components : list path) (fs : filesystem) (q : path) :
  ~ In q (screens ++ components) \/ skipped q = true ->
  fst (fst (main screens components fs)) q = fs q.
Proof.
  intros N. unfold main.
  destruct (v2_loop_counts (screens ++ components) fs
              [ProcessingFiles (length (screens ++ components)); BlankLine] 0)
    as (fsA & m1 & k1 & EA & _ & _ & FA).
  rewrite EA. cbn [fst snd]. apply FA. unfold taken. rewrite filter_In.
  intros [I S]. destruct N as [N|N]; [exact (N I)|].
  rewrite N in S. discriminate.
Qed.

Lemma v2_main_frame_witness :
  fst (fst (main [txt "Home.tsx"] [txt "utils/responsive.ts"]
              (fs_all (txt "const styles = StyleSheet.create({ a: { padding: 16, } });")
                      true)))
      (txt "utils/responsive.ts")
  = fs_all (txt "const styles = StyleSheet.create({ a: { padding: 16, } });") true
           (txt "utils/responsive.ts").
Proof.
  apply v2_main_touches_its_files_only. right. vm_compute. reflexivity.
Defined.

End V2Batch.

(* ================================================================= *)
(** ** The frame of a style block *)

Section BlockFrame.

Import UpdateStylesV2.

Lemma block_needs_frame content :
  contains BLOCK_OPEN content = false \/ contains BLOCK_CLOSE content = false ->
  re_search BLOCK_RE content = false.
Proof.
  intros H. destruct (re_search BLOCK_RE content) eqn:E; [|reflexivity].
  exfalso. unfold re_search in E. apply existsb_exists in E.
  destruct E as ([c|m] & I & T); [discriminate|].
  destruct (hit_position _ _ _ _ _ I) as (a & b & Ec).
  destruct (block_hit _ _ I) as (g & Ew & _).
  rewrite Ew in Ec. destruct H as [H|H].
  - apply (contains_none _ _ a (g ++ BLOCK_CLOSE ++ b) H).
    rewrite Ec, <- !app_assoc. reflexivity.
  - apply (contains_none _ _ (a ++ BLOCK_OPEN ++ g) b H).
    rewrite Ec, <- !app_assoc. reflexivity.
Qed.

(** [update_styles_in_stylesheet] rewrites only blocks that open with the
    exact text [const styles = StyleSheet.create({] and close with [});]:
    a content that lacks one of the two, such as a style sheet bound to
    another name or closed without the semicolon, is returned unchanged and
    nothing is printed. *)
Theorem v2_blocks_need_their_frame (content : text) :
  contains BLOCK_OPEN content = false \/ contains BLOCK_CLOSE content = false ->
  update_styles_in_stylesheet content = (content, []).
Proof.
  intros H. unfold update_styles_in_stylesheet.
  rewrite (re_sub_no_hit _ _ _ (block_needs_frame content H)). reflexivity.
Qed.

Lemma v2_blocks_frame_witness :
  update_styles_in_stylesheet
    (txt "const styles = StyleSheet.create({ card: { padding: 16 } })")
  = (txt "const styles = StyleSheet.create({ card: { padding: 16 } })", []).
Proof.
  apply v2_blocks_need_their_frame. right. vm_compute. reflexivity.
Defined.

End BlockFrame.

(* ================================================================= *)
(** ** The greedy star of a character class *)

Section Greedy.

Lemma star_class_loop p k : forall s b c f,
  length s <= f ->
  star_loop (run (Class p)) k f (MState b s c) = greedy p k b s c.
Proof.
  induction s as [|ch s IH]; intros b c f Hf.
  - destruct f; reflexivity.
  - destruct f as [|f]; [simpl in Hf; lia|].
    cbn [star_loop greedy run]. unfold step. cbn [rest caps].
    destruct (p ch); [|reflexivity]. cbn [rest].
    replace (length s <? length (ch :: s)) with true
      by (symmetry; apply Nat.ltb_lt; simpl; lia).
    rewrite IH by (simpl in Hf; lia). reflexivity.
Qed.

Lemma run_star_class p k b s c :
  run (Star (Class p)) (MState b s c) k = greedy p k b s c.
Proof. cbn [run rest]. apply star_class_loop. apply le_n. Qed.

Lemma greedy_none p k : forall s b c,
  greedy p k b s c = None ->
  forall w1 s1, s = w1 ++ s1 -> forallb p w1 = true ->
    k (MState (last_of b w1) s1 c) = None.
Proof.
  induction s as [|ch s IH]; intros b c H w1 s1 E P.
  - destruct w1; [|discriminate]. cbn in E. subst s1. exact H.
  - cbn [greedy] in H. destruct w1 as [|x w1].
    + cbn in E. subst s1. cbn [last_of rev].
      destruct (p ch); [|exact H].
      destruct (greedy p k (Some ch) s c); [discriminate|exact H].
    + cbn in E. injection E as <- E. cbn in P. apply andb_prop in P.
      destruct P as [Px P]. rewrite Px in H.
      destruct (greedy p k (Some ch) s c) eqn:G; [discriminate|].
      rewrite last_of_cons. apply (IH _ _ G); assumption.
Qed.

Lemma greedy_spec p k : forall s b c res,
  greedy p k b s c = Some res ->
  exists w1 s1,
    s = w1 ++ s1 /\ forallb p w1 = true /\
    k (MState (last_of b w1) s1 c) = Some res /\
    forall w1' s1', s = w1' ++ s1' -> forallb p w1' = true ->
      length w1 < length w1' ->
      k (MState (last_of b w1') s1' c) = None.
Proof.
  induction s as [|ch s IH]; intros b c res H.
  - exists [], []. repeat split; auto.
    intros w1' s1' E _ L. destruct w1'; [simpl in L; lia|discriminate].
  - cbn [greedy] in H. destruct (p ch) eqn:Pc.
    + destruct (greedy p k (Some ch) s c) as [r|] eqn:G.
      * injection H as ->. destruct (IH _ _ _ G) as (w1 & s1 & E & P & Kk & Lg).
        exists (ch :: w1), s1. repeat split.
        -- rewrite E. reflexivity.
        -- cbn. rewrite Pc. exact P.
        -- rewrite last_of_cons. exact Kk.
        -- intros w1' s1' E' P' L. destruct w1' as [|x w1']; [simpl in L; lia|].
           cbn in E'. injection E' as <- E'. cbn in P'. apply andb_prop in P'.
           rewrite last_of_cons. apply Lg; [exact E'|tauto|simpl in L; lia].
      * exists [], (ch :: s). repeat split; auto.
        intros w1' s1' E' P' L. destruct w1' as [|x w1']; [simpl in L; lia|].
        cbn in E'. injection E' as <- E'. cbn in P'. apply andb_prop in P'.
        rewrite last_of_cons. apply (greedy_none _ _ _ _ _ G); tauto.
    + exists [], (ch :: s). repeat split; auto.
      intros w1' s1' E' P' L. destruct w1' as [|x w1']; [simpl in L; lia|].
      cbn in E'. injection E' as <- E'. cbn in P'. rewrite Pc in P'. discriminate.
Qed.

End Greedy.

(* ================================================================= *)
(** ** The match of an icon pattern *)

Section IconTails.

Import UpdateStylesV2.

Lemma icon_re_tails n :
  ICON_RE n = Seq (Lit (txt "<Ionicons")) (Seq (Plus space) (ICON_TAIL1 n)).
Proof. reflexivity. Qed.

Lemma no_gt_app a b : no_gt (a ++ b) = no_gt a && no_gt b.
Proof. apply forallb_app. Qed.

Lemma no_gt_size n : no_gt (size_literal n) = true.
Proof.
  unfold size_literal. rewrite no_gt_app. cbn [andb].
  replace (no_gt (txt "size")) with true by reflexivity. cbn [andb].
  induction n as [|n IH]; [reflexivity|]. cbn. exact IH.
Qed.

Lemma tail2_den n g2 t b c :
  no_gt g2 = true ->
  den (ICON_TAIL2 n)
      (MState b (size_literal n ++ g2 ++ txt "/>" ++ t) c)
      (MState (Some ">"%char) t ((2, g2) :: c)).
Proof.
  intros G. unfold ICON_TAIL2, size_literal. rewrite Rep_Char_Lit.
  set (s1 := repeat "="%char n ++ g2 ++ txt "/>" ++ t).
  set (b1 := last_of b (txt "size")).
  apply (DSeq _ _ _ (MState b1 s1 c)).
  { apply (Lit_den (txt "size") (MState b _ c) s1). cbn [rest].
    unfold s1. rewrite <- !app_assoc. reflexivity. }
  set (b2 := last_of b1 (repeat "="%char n)).
  apply (DSeq _ _ _ (MState b2 (g2 ++ txt "/>" ++ t) c)).
  { apply (Lit_den (repeat "="%char n) (MState b1 s1 c) (g2 ++ txt "/>" ++ t)).
    reflexivity. }
  set (b3 := last_of b2 g2).
  apply (DSeq _ _ _ (MState b3 (txt "/>" ++ t) ((2, g2) :: c))).
  { apply (Group_den 2 _ (MState b2 (g2 ++ txt "/>" ++ t) c)
                     (MState b3 (txt "/>" ++ t) c) g2).
    - apply Star_Class_den. exact G.
    - reflexivity. }
  apply (Lit_den (txt "/>") (MState b3 (txt "/>" ++ t) ((2, g2) :: c)) t).
  reflexivity.
Qed.

Lemma tail1_den n g1 g2 t b c :
  no_gt g1 = true -> no_gt g2 = true ->
  den (ICON_TAIL1 n)
      (MState b (g1 ++ size_literal n ++ g2 ++ txt "/>" ++ t) c)
      (MState (Some ">"%char) t ((2, g2) :: (1, g1) :: c)).
Proof.
  intros G1 G2. unfold ICON_TAIL1.
  set (s1 := size_literal n ++ g2 ++ txt "/>" ++ t).
  apply (DSeq _ _ _ (MState (last_of b g1) s1 ((1, g1) :: c))).
  - apply (Group_den 1 _ (MState b (g1 ++ s1) c) (MState (last_of b g1) s1 c) g1).
    + apply Star_Class_den. exact G1.
    + reflexivity.
  - apply tail2_den. exact G2.
Qed.

Lemma den_tail2 n st st' :
  den (ICON_TAIL2 n) st st' ->
  exists g2,
    rest st = size_literal n ++ g2 ++ txt "/>" ++ rest st' /\
    no_gt g2 = true /\ caps st' = (2, g2) :: caps st.
Proof.
  intros D. unfold ICON_TAIL2 in D.
  apply den_Seq in D. destruct D as (st4 & D4 & D).
  apply den_Lit in D4. destruct D4 as (R4 & C4 & _).
  apply den_Seq in D. destruct D as (st5 & D5 & D).
  rewrite Rep_Char_Lit in D5.
  apply den_Lit in D5. destruct D5 as (R5 & C5 & _).
  apply den_Seq in D. destruct D as (st6 & D6 & D7).
  apply den_Group in D6. destruct D6 as (g2 & stb & Db & Eg2 & R6 & _ & C6).
  apply den_Star_Class in Db. destruct Db as (w2 & F2 & Rb & Cb & _).
  apply den_Lit in D7. destruct D7 as (R7 & C7 & _).
  assert (w2 = g2) as -> by (rewrite Rb in Eg2; apply app_inv_tail in Eg2; auto).
  exists g2. repeat split.
  - rewrite R4, R5, Rb, <- R6, R7. unfold size_literal.
    rewrite <- !app_assoc. reflexivity.
  - exact F2.
  - rewrite C7, C6, Cb, C5, C4. reflexivity.
Qed.

Lemma run_Seq r1 r2 st k :
  run (Seq r1 r2) st k = run r1 st (fun st1 => run r2 st1 k).
Proof. reflexivity. Qed.

Lemma run_Group i r st k :
  run (Group i r) st k = run r st (fun st1 => k (capture i st st1)).
Proof. reflexivity. Qed.

Lemma contains_split w : forall s,
  contains w s = true -> exists a b, s = a ++ w ++ b.
Proof.
  induction s as [|c s IH]; intros H.
  - cbn [contains] in H. rewrite orb_false_r in H.
    apply starts_with_app in H. destruct H as (t & H). exists [], t. exact H.
  - cbn [contains] in H. apply orb_prop in H. destruct H as [H|H].
    + apply starts_with_app in H. destruct H as (t & H). exists [], t. exact H.
    + destruct (IH H) as (a & b & ->). exists (c :: a), b. reflexivity.
Qed.

(** The match that the engine picks for an icon pattern: the white space
    after the tag name is taken whole, and the size pattern is the last one
    of the tag. *)
Lemma icon_canonical n sz q s m :
  match_at (ICON_RE n) q s = Some m ->
  exists W g1 g2 t,
    s = txt "<Ionicons" ++ W ++ g1 ++ size_literal n ++ g2 ++ txt "/>" ++ t /\
    whole m = txt "<Ionicons" ++ W ++ g1 ++ size_literal n ++ g2 ++ txt "/>" /\
    W <> [] /\ forallb is_space W = true /\
    no_gt g1 = true /\ no_gt g2 = true /\
    stops is_space (g1 ++ size_literal n) /\
    contains (size_literal n) g2 = false /\
    expand (icon_template sz) m
    = Ok (txt "<Ionicons " ++ g1 ++ sz ++ g2 ++ txt "/>").
Proof.
  unfold match_at.
  destruct (run (ICON_RE n) (MState q s []) (fun st => Some st)) as [st'|] eqn:Rn;
    [|discriminate].
  intros H. injection H as <-.
  rewrite icon_re_tails, run_Seq in Rn.
  apply run_sound in Rn. destruct Rn as (st1 & D1 & Rn).
  apply den_Lit in D1. destruct D1 as (R1 & C1 & _). cbn [rest caps] in R1, C1.
  unfold Plus in Rn. rewrite !run_Seq in Rn.
  apply run_sound in Rn. destruct Rn as (sta & Da & Rn).
  apply den_Class in Da. destruct Da as (c0 & Sc0 & Ra & Ca & _).
  destruct sta as [ba sa ca]. cbn [rest caps] in Ra, Ca.
  unfold space in Rn. rewrite run_star_class in Rn.
  apply greedy_spec in Rn. destruct Rn as (w1 & s1 & Es & Pw & Kk & Lg).
  unfold ICON_TAIL1 in Kk. rewrite run_Seq, run_Group in Kk.
  unfold not_gt, not_char in Kk. rewrite run_star_class in Kk.
  apply greedy_spec in Kk. destruct Kk as (g1 & s2 & Es1 & Pg & Kg & Lgg).
  apply run_sound in Kg. destruct Kg as (st'' & D2 & E''). injection E'' as ->.
  apply den_tail2 in D2. destruct D2 as (g2 & R2 & G2 & C2).
  unfold capture in R2, C2. cbn [rest caps before] in R2, C2.
  rewrite Es1, consumed_app in C2.
  set (t := rest st') in *.
  assert (Cd1 : stops is_space (g1 ++ size_literal n)).
  { destruct g1 as [|ch g1r]; [reflexivity|]. cbn [app stops].
    destruct (is_space ch) eqn:Sp; [exfalso|reflexivity].
    cbn [forallb] in Pg. apply andb_prop in Pg. destruct Pg as [_ Pg].
    assert (N : run (ICON_TAIL1 n)
                  (MState (last_of ba (w1 ++ [ch])) (g1r ++ s2) ca)
                  (fun st => Some st) = None).
    { apply (Lg (w1 ++ [ch]) (g1r ++ s2)).
      - rewrite Es, Es1, <- app_assoc. reflexivity.
      - rewrite forallb_app, Pw. cbn. rewrite Sp. reflexivity.
      - rewrite length_app. simpl. lia. }
    revert N. rewrite R2.
    apply (run_complete _ _ _ (tail1_den n g1r g2 t _ ca Pg G2)). discriminate. }
  assert (Cd2 : contains (size_literal n) g2 = false).
  { destruct (contains (size_literal n) g2) eqn:C; [exfalso|reflexivity].
    apply contains_split in C. destruct C as (a & b' & Eg).
    rewrite Eg, !no_gt_app in G2.
    apply andb_prop in G2. destruct G2 as [Ga G2].
    apply andb_prop in G2. destruct G2 as [_ Gb].
    pose proof (Lgg (g1 ++ size_literal n ++ a)
                    (size_literal n ++ b' ++ txt "/>" ++ t)) as N.
    cbn beta in N.
    assert (X : run (ICON_TAIL2 n)
                  (capture 1 (MState (last_of ba w1) s1 ca)
                     (MState (last_of (last_of ba w1) (g1 ++ size_literal n ++ a))
                             (size_literal n ++ b' ++ txt "/>" ++ t) ca))
                  (fun st => Some st) = None).
    { apply N.
      - rewrite Es1, R2, Eg, <- !app_assoc. reflexivity.
      - change (no_gt (g1 ++ size_literal n ++ a) = true).
        rewrite !no_gt_app, no_gt_size, Ga. cbn. rewrite andb_true_r. exact Pg.
      - rewrite !length_app. unfold size_literal. rewrite length_app. simpl. lia. }
    revert X. unfold capture. cbn [rest before caps].
    apply (run_complete _ _ _ (tail2_den n b' t _ _ Gb)). discriminate. }
  assert (Et : s = (txt "<Ionicons" ++ (c0 :: w1) ++ g1 ++ size_literal n ++ g2
                    ++ txt "/>") ++ t).
  { rewrite R1, Ra, Es, Es1, R2. rewrite <- !app_assoc. reflexivity. }
  exists (c0 :: w1), g1, g2, t. repeat split; auto.
  - rewrite Et at 1. rewrite <- !app_assoc. reflexivity.
  - cbn [whole].
    exact (consumed_eq (MState q s []) st' _ Et).
  - discriminate.
  - cbn [forallb]. rewrite Sc0. exact Pw.
  - match goal with |- expand _ ?m0 = _ => set (m := m0) end.
    assert (Ea : arity m = 2) by apply icon_arity.
    assert (Eg : groups m = [(2, g2); (1, g1)]).
    { unfold m. cbn [groups]. rewrite C2, Ca, C1. reflexivity. }
    unfold expand, icon_template. cbn [mapM expand_item]. unfold group.
    rewrite Ea, Eg.
    cbn [Nat.eqb Nat.leb assoc bind concat]. rewrite app_nil_r. reflexivity.
Qed.

Lemma icon_exists n q W g1 g2 t :
  W <> [] -> forallb is_space W = true ->
  no_gt g1 = true -> no_gt g2 = true ->
  match_at (ICON_RE n) q
    (txt "<Ionicons" ++ W ++ g1 ++ size_literal n ++ g2 ++ txt "/>" ++ t) <> None.
Proof.
  intros NW SW G1 G2.
  set (s1 := W ++ g1 ++ size_literal n ++ g2 ++ txt "/>" ++ t).
  set (s2 := g1 ++ size_literal n ++ g2 ++ txt "/>" ++ t).
  set (b1 := last_of q (txt "<Ionicons")).
  apply (match_at_exists (ICON_RE n) q _
           (MState (Some ">"%char) t [(2, g2); (1, g1)])).
  rewrite icon_re_tails.
  apply (DSeq _ _ _ (MState b1 s1 [])).
  { apply (Lit_den (txt "<Ionicons") (MState q _ []) s1). reflexivity. }
  apply (DSeq _ _ _ (MState (last_of b1 W) s2 [])).
  { apply Plus_Class_den; assumption. }
  apply tail1_den; assumption.
Qed.

Lemma stops_app (p : ascii -> bool) a b : a <> [] -> stops p a -> stops p (a ++ b).
Proof. destruct a; [contradiction|auto]. Qed.

Lemma size_literal_nonempty n : size_literal n <> [].
Proof. discriminate. Qed.

(** A size pattern does not overlap itself. *)
Lemma size_overlap n l x y :
  size_literal n ++ x = l ++ size_literal n ++ y -> l <> [] ->
  contains (size_literal n) x = true.
Proof.
  intros E N.
  destruct (app_eq_split _ _ _ _ E) as (l2 & [[E1 E2]|[E1 E2]]).
  - destruct l2 as [|d l2].
    + cbn [app] in E2. rewrite <- E2. apply (contains_here _ [] y).
    + exfalso. destruct l as [|c l]; [contradiction|].
      unfold size_literal in E1, E2. cbn [app txt list_ascii_of_string] in E1, E2.
      injection E1 as <- E1. injection E2 as <- _.
      assert (I : In "s"%char (l ++ "s"%char :: l2))
        by (apply in_or_app; right; left; reflexivity).
      rewrite <- E1 in I. cbn [In] in I.
      destruct I as [I|[I|[I|I]]]; try discriminate.
      apply repeat_spec in I. discriminate.
  - rewrite E2. apply contains_here.
Qed.

Lemma icon_unique n W g1 g2 t W' g1' g2' t' :
  W ++ g1 ++ size_literal n ++ g2 ++ txt "/>" ++ t
  = W' ++ g1' ++ size_literal n ++ g2' ++ txt "/>" ++ t' ->
  forallb is_space W = true -> forallb is_space W' = true ->
  no_gt g1 = true -> no_gt g2 = true -> no_gt g1' = true -> no_gt g2' = true ->
  stops is_space (g1 ++ size_literal n) ->
  stops is_space (g1' ++ size_literal n) ->
  contains (size_literal n) g2 = false ->
  contains (size_literal n) g2' = false ->
  W = W' /\ g1 = g1' /\ g2 = g2' /\ t = t'.
Proof.
  intros E SW SW' G1 G2 G1' G2' S1 S1' C2 C2'.
  assert (N1 : g1 ++ size_literal n <> []) by (destruct g1; discriminate).
  assert (N1' : g1' ++ size_literal n <> []) by (destruct g1'; discriminate).
  rewrite (app_assoc g1), (app_assoc g1') in E.
  destruct (span_unique is_space W W' _ _ SW SW'
              (stops_app _ _ _ N1 S1) (stops_app _ _ _ N1' S1') E) as [-> E1].
  clear E.
  assert (E2 : (g1 ++ size_literal n ++ g2 ++ txt "/") ++ ">"%char :: t
               = (g1' ++ size_literal n ++ g2' ++ txt "/") ++ ">"%char :: t').
  { assert (X : forall a b t0,
              (a ++ size_literal n ++ b ++ txt "/") ++ ">"%char :: t0
              = a ++ size_literal n ++ b ++ txt "/>" ++ t0)
      by (intros; rewrite <- !app_assoc; reflexivity).
    rewrite !X. rewrite <- !app_assoc in E1. exact E1. }
  assert (Ha : no_gt (g1 ++ size_literal n ++ g2 ++ txt "/") = true)
    by (rewrite !no_gt_app, G1, no_gt_size, G2; reflexivity).
  assert (Hb : no_gt (g1' ++ size_literal n ++ g2' ++ txt "/") = true)
    by (rewrite !no_gt_app, G1', no_gt_size, G2'; reflexivity).
  destruct (span_unique (fun x => negb (ascii_eqb x ">")) _ _
              (">"%char :: t) (">"%char :: t') Ha Hb eq_refl eq_refl E2)
    as [E3 E4].
  - injection E4 as ->.
    rewrite !app_assoc in E3. apply app_inj_tail in E3. destruct E3 as [E3 _].
    rewrite <- !app_assoc in E3.
    destruct (app_eq_split _ _ _ _ E3) as (l & [[Ea Eb]|[Ea Eb]]).
    + destruct l as [|c l].
      * rewrite app_nil_r in Ea. subst g1. cbn [app] in Eb.
        apply app_inv_head in Eb. auto.
      * exfalso. apply size_overlap in Eb; [congruence|discriminate].
    + destruct l as [|c l].
      * rewrite app_nil_r in Ea. subst g1'. cbn [app] in Eb.
        apply app_inv_head in Eb. auto.
      * exfalso. apply size_overlap in Eb; [congruence|discriminate].
Qed.

(** The matcher of an icon substitution. *)
Lemma icon_rule n sz q s M new :
  rule_of (ICON_RE n) (expand (icon_template sz)) q s = Some (M, new) <->
  exists W g1 g2 t,
    s = txt "<Ionicons" ++ W ++ g1 ++ size_literal n ++ g2 ++ txt "/>" ++ t /\
    M = txt "<Ionicons" ++ W ++ g1 ++ size_literal n ++ g2 ++ txt "/>" /\
    new = txt "<Ionicons " ++ g1 ++ sz ++ g2 ++ txt "/>" /\
    W <> [] /\ forallb is_space W = true /\
    no_gt g1 = true /\ no_gt g2 = true /\
    stops is_space (g1 ++ size_literal n) /\
    contains (size_literal n) g2 = false.
Proof.
  unfold rule_of. split.
  - destruct (match_at (ICON_RE n) q s) as [m|] eqn:E; [|discriminate].
    destruct (icon_canonical n sz q s m E)
      as (W & g1 & g2 & t & Es & Ew & NW & SW & G1 & G2 & S1 & C2 & X).
    rewrite X. intros H. injection H as <- <-.
    exists W, g1, g2, t. repeat split; auto.
  - intros (W & g1 & g2 & t & -> & -> & -> & NW & SW & G1 & G2 & S1 & C2).
    pose proof (icon_exists n q W g1 g2 t NW SW G1 G2) as Ex.
    destruct (match_at (ICON_RE n) q _) as [m|] eqn:E; [|congruence].
    destruct (icon_canonical n sz q _ m E)
      as (W' & g1' & g2' & t' & Es & Ew & NW' & SW' & G1' & G2' & S1' & C2' & X).
    apply app_inv_head in Es.
    destruct (icon_unique n _ _ _ _ _ _ _ _ Es SW SW' G1 G2 G1' G2' S1 S1' C2 C2')
      as (<- & <- & <- & <-).
    rewrite X, Ew. reflexivity.
Qed.

End IconTails.

(* ================================================================= *)
(** ** The scan of an icon substitution *)

Section IconScan.

Import UpdateStylesV2.

Variables (cnt : nat) (sz : text).

Lemma icon_proper : proper (icon_matcher cnt sz).
Proof.
  intros q s M new H. apply icon_rule in H.
  destruct H as (W & g1 & g2 & t & -> & -> & _). split; [discriminate|].
  exists t. rewrite <- !app_assoc. reflexivity.
Qed.

(** An icon match does not look at the character before it. *)
Lemma icon_prev q q' s : icon_matcher cnt sz q s = icon_matcher cnt sz q' s.
Proof.
  destruct (icon_matcher cnt sz q s) as [[M new]|] eqn:E.
  - symmetry. apply icon_rule. apply icon_rule in E. exact E.
  - destruct (icon_matcher cnt sz q' s) as [[M new]|] eqn:E'; [|reflexivity].
    apply icon_rule in E'. apply (icon_rule cnt sz q) in E'.
    unfold icon_matcher in E. congruence.
Qed.

Lemma icon_scan_prev : forall s q q',
  scan (icon_matcher cnt sz) q s = scan (icon_matcher cnt sz) q' s.
Proof.
  assert (G : forall n s q q', length s <= n ->
            scan (icon_matcher cnt sz) q s = scan (icon_matcher cnt sz) q' s).
  { induction n as [|n IH]; intros s q q' Hl.
    - destruct s; [reflexivity|simpl in Hl; lia].
    - destruct s as [|c s]; [reflexivity|].
      destruct (icon_matcher cnt sz q (c :: s)) as [[M new]|] eqn:E.
      + pose proof E as E'. rewrite (icon_prev q q') in E'.
        destruct (icon_proper _ _ _ _ E) as [N (t & Es)].
        rewrite Es in E, E' |- *.
        rewrite (scan_hit _ _ _ _ _ N E), (scan_hit _ _ _ _ _ N E').
        f_equal. apply IH.
        apply (f_equal (@length ascii)) in Es. rewrite length_app in Es.
        assert (0 < length M) by (destruct M; [contradiction|simpl; lia]).
        cbn [length] in Es, Hl. lia.
      + pose proof E as E'. rewrite (icon_prev q q') in E'.
        rewrite (scan_miss _ _ _ _ E), (scan_miss _ _ _ _ E'). reflexivity. }
  intros s q q'. apply (G (length s)). apply le_n.
Qed.

(** An icon match starts with the angle bracket, and so does what is
    written for it. *)
Lemma icon_head q s M new :
  icon_matcher cnt sz q s = Some (M, new) ->
  exists s' new', s = "<"%char :: s' /\ new = "<"%char :: new'.
Proof.
  intros H. apply icon_rule in H.
  destruct H as (W & g1 & g2 & t & -> & _ & -> & _). eexists. eexists.
  split; reflexivity.
Qed.

Lemma icon_scan_head s q :
  hd_error (scan (icon_matcher cnt sz) q s) = hd_error s.
Proof.
  destruct s as [|c s]; [reflexivity|].
  destruct (icon_matcher cnt sz q (c :: s)) as [[M new]|] eqn:E.
  - destruct (icon_head _ _ _ _ E) as (s' & new' & Es & ->).
    destruct (icon_proper _ _ _ _ E) as [N (t & Et)].
    rewrite Et in E |- *. rewrite (scan_hit _ _ _ _ _ N E).
    rewrite <- Et, Es. reflexivity.
  - rewrite (scan_miss _ _ _ _ E). reflexivity.
Qed.

(** A text without an angle bracket is copied. *)
Lemma icon_scan_pass w : forall u q,
  no_lt w = true ->
  scan (icon_matcher cnt sz) q (w ++ u) = w ++ scan (icon_matcher cnt sz) None u.
Proof.
  induction w as [|c w IH]; intros u q H.
  - apply icon_scan_prev.
  - cbn [no_lt forallb] in H. apply andb_prop in H. destruct H as [Hc H].
    cbn [app]. rewrite scan_miss.
    + f_equal. apply IH. exact H.
    + destruct (icon_matcher cnt sz q (c :: w ++ u)) as [[M new]|] eqn:E;
        [|reflexivity].
      destruct (icon_head _ _ _ _ E) as (s' & new' & Es & _).
      injection Es as -> _. discriminate.
Qed.

(** A text without an angle bracket at the head of the result was at the
    head of the text. *)
Lemma icon_prefix_back w : forall s q v,
  no_lt w = true ->
  scan (icon_matcher cnt sz) q s = w ++ v ->
  exists u, s = w ++ u /\ v = scan (icon_matcher cnt sz) None u.
Proof.
  induction w as [|c w IH]; intros s q v H E.
  - exists s. split; [reflexivity|]. cbn [app] in E. rewrite <- E.
    apply icon_scan_prev.
  - cbn [no_lt forallb] in H. apply andb_prop in H. destruct H as [Hc H].
    destruct s as [|d s]; [discriminate|].
    destruct (icon_matcher cnt sz q (d :: s)) as [[M new]|] eqn:Q.
    + exfalso. destruct (icon_head _ _ _ _ Q) as (s' & new' & Es & ->).
      destruct (icon_proper _ _ _ _ Q) as [N (t & Et)].
      rewrite Et in Q, E. rewrite (scan_hit _ _ _ _ _ N Q) in E.
      cbn [app] in E. injection E as <- _. discriminate.
    + rewrite (scan_miss _ _ _ _ Q) in E. cbn [app] in E.
      injection E as -> E. destruct (IH _ _ _ H E) as (u & -> & ->).
      exists u. auto.
Qed.

(** Where a tag with a size pattern starts, the substitution fires. *)
Lemma icon_fires q W g1 g2 t :
  W <> [] -> forallb is_space W = true ->
  no_gt g1 = true -> no_gt g2 = true ->
  icon_matcher cnt sz q
    (txt "<Ionicons" ++ W ++ g1 ++ size_literal cnt ++ g2 ++ txt "/>" ++ t)
  <> None.
Proof.
  intros NW SW G1 G2. pose proof (icon_exists cnt q W g1 g2 t NW SW G1 G2) as Ex.
  unfold icon_matcher, rule_of.
  destruct (match_at (ICON_RE cnt) q _) as [m|] eqn:E; [|congruence].
  destruct (icon_canonical cnt sz q _ m E)
    as (W' & g1' & g2' & t' & _ & _ & _ & _ & _ & _ & _ & _ & X).
  rewrite X. discriminate.
Qed.

End IconScan.

(* ================================================================= *)
(** ** A family rule and an icon substitution *)

Section ScanCases.

(** Reasoning along a scan: at each cursor the matcher hits or misses. *)
Lemma scan_cases (mu : matcher) (P : option ascii -> text -> text -> Prop) :
  proper mu ->
  (forall p, P p [] []) ->
  (forall p M new t,
     mu p (M ++ t) = Some (M, new) -> M <> [] ->
     P (last_of p M) t (scan mu (last_of p M) t) ->
     P p (M ++ t) (new ++ scan mu (last_of p M) t)) ->
  (forall p c t,
     mu p (c :: t) = None ->
     P (Some c) t (scan mu (Some c) t) ->
     P p (c :: t) (c :: scan mu (Some c) t)) ->
  forall s p, P p s (scan mu p s).
Proof.
  intros Pr H0 Hh Hm.
  assert (G : forall n s p, length s <= n -> P p s (scan mu p s)).
  { induction n as [|n IH]; intros s p L.
    - destruct s; [apply H0|simpl in L; lia].
    - destruct s as [|c s]; [apply H0|].
      destruct (mu p (c :: s)) as [[M new]|] eqn:Q.
      + destruct (Pr _ _ _ _ Q) as [N (t & E)]. rewrite E in Q |- *.
        rewrite (scan_hit _ _ _ _ _ N Q). apply Hh; auto. apply IH.
        apply (f_equal (@length ascii)) in E. rewrite length_app in E.
        simpl in E, L. destruct M; [contradiction|simpl in E; lia].
      + rewrite (scan_miss _ _ _ _ Q). apply Hm; auto. apply IH.
        simpl in L. lia. }
  intros s p. apply (G (length s)). apply le_n.
Qed.

End ScanCases.

Section RuleAndIcons.

Import UpdateStylesV2.

Variable ALL : list text.
Hypothesis Apart : names_apart ALL = true.
Hypothesis Names : forallb name_ok ALL = true.

Variables (nu : matcher) (ns : list text) (K tok : text).
Hypothesis F : family nu ns K tok.
Hypothesis Sub : incl ns ALL.
Hypothesis Key : key_ok K = true.

Lemma nu_proper : proper nu.
Proof. exact (fam_proper ALL Names nu ns K tok F Sub). Qed.

Lemma nu_inert Z u p :
  inert_for ALL Z = true -> scan nu p (Z ++ u) = Z ++ scan nu (last_of p Z) u.
Proof.
  intros H. apply scan_through. intros x1 x2 E N.
  destruct (nu (last_of p x1) (x2 ++ u)) as [[M new]|] eqn:Q; [|reflexivity].
  exfalso. destruct (fam_starts nu ns K tok F _ _ _ _ Q) as [_ (n & I & S)].
  apply compatible_of_start in S.
  unfold inert_for in H. rewrite E in H. apply for_suffixes_app in H; [|exact N].
  rewrite forallb_forall in H. specialize (H n (Sub _ I)).
  rewrite S in H. discriminate.
Qed.

Lemma nu_nonword W : forall u p,
  forallb (fun c => negb (is_word c)) W = true ->
  scan nu p (W ++ u) = W ++ scan nu (last_of p W) u.
Proof.
  induction W as [|c W IH]; intros u p H; [reflexivity|].
  cbn [forallb] in H. apply andb_prop in H. destruct H as [Hc H].
  cbn [app]. rewrite (scan_head ALL Names nu ns K tok F Sub)
    by (destruct (is_word c); [discriminate|reflexivity]).
  rewrite IH by exact H. rewrite last_of_cons. reflexivity.
Qed.

Lemma scan_barrier_at p x c u :
  barrier c = true ->
  scan nu p (x ++ c :: u) = scan nu p x ++ c :: scan nu None u.
Proof.
  intros B. rewrite (scan_cut nu (c :: u) nu_proper).
  - f_equal.
    rewrite (scan_head ALL Names nu ns K tok F Sub)
      by (apply barrier_not_word; exact B).
    f_equal. apply (scan_prev nu ns K tok F). cbn [word_opt].
    apply barrier_not_word. exact B.
  - intros x1 x2 _ _. apply (fam_barrier ALL Names nu ns K tok F Sub Key). exact B.
Qed.

(** The scan keeps the kind of the first character. *)
Lemma nu_head_space u p : stops is_space u -> stops is_space (scan nu p u).
Proof.
  destruct u as [|c u]; [intros _; exact I|]. intros S. cbn [stops] in S.
  destruct (nu p (c :: u)) as [[M new]|] eqn:Q.
  - pose proof Q as Q'. apply F in Q'.
    destruct Q' as (n & ws & t & (In1 & _ & E & _) & -> & ->).
    assert (N : n ++ txt ":" ++ ws ++ K <> []).
    { destruct (name_head ALL Names n (Sub _ In1)) as (h & n' & -> & _).
      discriminate. }
    rewrite E, <- regroup in Q |- *. rewrite (scan_hit _ _ _ _ _ N Q).
    destruct (name_head ALL Names n (Sub _ In1)) as (h & n' & -> & _ & _ & Sh).
    exact Sh.
  - rewrite (scan_miss _ _ _ _ Q). exact S.
Qed.

Hypothesis TokGt : no_gt tok = true.

Lemma word_no_gt w : forallb is_word w = true -> no_gt w = true.
Proof.
  intros H. unfold no_gt. rewrite forallb_forall in *. intros c I.
  specialize (H c I). destruct (ascii_eqb c ">") eqn:E; [|reflexivity].
  apply ascii_eqb_eq in E. subst c. discriminate.
Qed.

Lemma new_no_gt n : In n ns -> no_gt (n ++ txt ": " ++ tok) = true.
Proof.
  intros I. rewrite !no_gt_app, TokGt.
  rewrite (word_no_gt n (name_word ALL Names n (Sub _ I))). reflexivity.
Qed.

(** The scan adds no [>]. *)
Lemma nu_keeps_no_gt s p : no_gt s = true -> no_gt (scan nu p s) = true.
Proof.
  apply (scan_cases nu (fun p s r => no_gt s = true -> no_gt r = true) nu_proper).
  - auto.
  - intros q M new t Q N IH H. rewrite no_gt_app in H. apply andb_prop in H.
    apply F in Q. destruct Q as (n & ws & t' & (In1 & _) & _ & ->).
    rewrite no_gt_app, (new_no_gt n In1). apply IH. tauto.
  - intros q c t Q IH H. cbn in H |- *. apply andb_prop in H.
    destruct H as [-> H]. apply IH. exact H.
Qed.

Lemma contains_app_cases w : forall a b,
  contains w (a ++ b) = true ->
  (exists a1 a2, a = a1 ++ a2 /\ a2 <> [] /\ starts_with w (a2 ++ b) = true)
  \/ contains w b = true.
Proof.
  induction a as [|c a IH]; intros b H; [right; exact H|].
  cbn [app contains] in H. apply orb_prop in H. destruct H as [H|H].
  - left. exists [], (c :: a). repeat split; [discriminate|exact H].
  - destruct (IH b H) as [(a1 & a2 & -> & N & S)|C]; [|right; exact C].
    left. exists (c :: a1), a2. auto.
Qed.

Lemma contains_app_r w a : forall b,
  contains w b = true -> contains w (a ++ b) = true.
Proof.
  induction a as [|c a IH]; intros b H; [exact H|].
  cbn [app contains]. rewrite (IH b H). apply orb_true_r.
Qed.

Lemma nohead_name c n :
  nohead ALL c = true -> In n ALL -> forall n', n <> c :: n'.
Proof.
  unfold nohead. rewrite forallb_forall. intros H I n' E.
  specialize (H n I). rewrite E in H.
  replace (ascii_eqb c c) with true in H by (symmetry; apply ascii_eqb_eq; auto).
  discriminate.
Qed.

(** A text that holds no first character of a name is copied by the scan,
    and can be read back from its result. *)
Lemma nu_prefix_split w : forall s p v,
  forallb (nohead ALL) w = true -> scan nu p s = w ++ v ->
  exists u, s = w ++ u /\ v = scan nu (last_of p w) u.
Proof.
  induction w as [|c0 w IH]; intros s p v H E.
  - exists s. auto.
  - cbn [forallb] in H. apply andb_prop in H. destruct H as [Hc H].
    destruct s as [|d s]; [discriminate|].
    destruct (nu p (d :: s)) as [[M new]|] eqn:Q.
    + exfalso. pose proof Q as Q'. apply F in Q'.
      destruct Q' as (n & ws & t & (In1 & _ & Es & _) & -> & ->).
      assert (N : n ++ txt ":" ++ ws ++ K <> []).
      { destruct (name_head ALL Names n (Sub _ In1)) as (h & n' & -> & _).
        discriminate. }
      rewrite Es, <- regroup in Q, E. rewrite (scan_hit _ _ _ _ _ N Q) in E.
      destruct n as [|h n']; [cbn in N; destruct (name_head ALL Names [] (Sub _ In1))
                                as (? & ? & X & _); discriminate|].
      cbn [app] in E. injection E as -> _.
      exact (nohead_name _ _ Hc (Sub _ In1) n' eq_refl).
    + rewrite (scan_miss _ _ _ _ Q) in E. cbn [app] in E. injection E as -> E.
      destruct (IH _ _ _ H E) as (u & -> & ->).
      exists u. rewrite last_of_cons. auto.
Qed.

Variable L : text.
Hypothesis LNoHead : forallb (nohead ALL) L = true.
Hypothesis LCreate : creates_none L ns tok = true.

(** The scan keeps the first character. *)
Lemma nu_hd u p : hd_error (scan nu p u) = hd_error u.
Proof.
  destruct u as [|c u]; [reflexivity|].
  destruct (nu p (c :: u)) as [[M new]|] eqn:Q.
  - pose proof Q as Q'. apply F in Q'.
    destruct Q' as (n & ws & t & (In1 & _ & E & _) & -> & ->).
    assert (N : n ++ txt ":" ++ ws ++ K <> []).
    { destruct (name_head ALL Names n (Sub _ In1)) as (h & n' & -> & _).
      discriminate. }
    rewrite E, <- regroup in Q |- *. rewrite (scan_hit _ _ _ _ _ N Q).
    destruct (name_head ALL Names n (Sub _ In1)) as (h & n' & -> & _).
    reflexivity.
  - rewrite (scan_miss _ _ _ _ Q). reflexivity.
Qed.

(** The scan creates no occurrence of [L]. *)
Lemma nu_creates_none s p :
  contains L (scan nu p s) = true -> contains L s = true.
Proof.
  apply (scan_cases nu (fun p s r => contains L r = true -> contains L s = true)
           nu_proper).
  - auto.
  - intros q M new t Q N IH H. apply contains_app_r.
    apply contains_app_cases in H. destruct H as [(a1 & a2 & E & N2 & S)|C];
      [|exact (IH C)].
    exfalso. apply F in Q.
    destruct Q as (n & ws & t' & (In1 & _ & Es & _ & T) & -> & ->).
    rewrite regroup in Es. do 4 apply app_inv_head in Es. subst t'.
    unfold creates_none in LCreate. rewrite forallb_forall in LCreate.
    specialize (LCreate n In1). rewrite E in LCreate.
    apply for_suffixes_app in LCreate; [|exact N2].
    apply andb_prop in LCreate. destruct LCreate as [C1 C2].
    apply starts_with_split in S. destruct S as [S|(l2 & El & Nl & S)].
    + rewrite S in C1. discriminate.
    + assert (S2 : starts_with a2 L = true) by (apply starts_with_app; eauto).
      rewrite S2 in C2. cbn [negb orb] in C2.
      rewrite El, skipn_app, Nat.sub_diag, skipn_all in C2. cbn [app skipn] in C2.
      apply starts_with_app in S. destruct S as (v & Ev).
      destruct l2 as [|h l2]; [contradiction|]. cbn [hd_error word_opt] in C2.
      assert (Hh : hd_error t = Some h).
      { rewrite <- (nu_hd t (last_of q (n ++ txt ":" ++ ws ++ K))), Ev.
        reflexivity. }
      rewrite Hh in T. cbn [word_opt] in T. congruence.
  - intros q c t Q IH H. cbn [contains] in H |- *.
    apply orb_prop in H. destruct H as [H|H].
    + rewrite <- (scan_miss _ _ _ _ Q) in H. apply starts_with_app in H.
      destruct H as (v & H).
      destruct (nu_prefix_split L _ _ _ LNoHead H) as (u & -> & _).
      replace (starts_with L (L ++ u)) with true
        by (symmetry; apply starts_with_app; eauto).
      reflexivity.
    + rewrite (IH H). apply orb_true_r.
Qed.

Hypothesis TokEnd : word_opt (last_of None tok) = true.

Lemma last_of_word w : word_opt (last_of None w) = true -> w <> [].
Proof. intros H E. subst w. discriminate. Qed.

Lemma last_of_nonempty w p : w <> [] -> last_of p w = last_of None w.
Proof.
  intros N. destruct (exists_last N) as (w' & c & ->).
  rewrite !last_of_snoc. reflexivity.
Qed.

Lemma last_of_app_nonempty p a b : b <> [] -> last_of p (a ++ b) = last_of None b.
Proof. intros N. rewrite last_of_app. apply last_of_nonempty. exact N. Qed.

(** The scan of a text that ends with a word character ends with one. *)
Lemma nu_last_word s p :
  word_opt (last_of None s) = true ->
  word_opt (last_of None (scan nu p s)) = true.
Proof.
  apply (scan_cases nu (fun p s r => word_opt (last_of None s) = true ->
                                     word_opt (last_of None r) = true) nu_proper).
  - auto.
  - intros q M new t Q N IH H. destruct t as [|d t].
    + rewrite scan_nil, app_nil_r.
      apply F in Q. destruct Q as (n & ws & t' & _ & _ & ->).
      change (n ++ txt ": " ++ tok) with (n ++ (txt ": " ++ tok)).
      rewrite !app_assoc.
      rewrite last_of_app_nonempty by (apply last_of_word; exact TokEnd).
      exact TokEnd.
    + rewrite last_of_app_nonempty in H by discriminate.
      specialize (IH H).
      rewrite last_of_app_nonempty by (apply last_of_word; exact IH). exact IH.
  - intros q c t Q IH H. destruct t as [|d t].
    + rewrite scan_nil. exact H.
    + change (c :: d :: t) with ([c] ++ d :: t) in H.
      rewrite last_of_app_nonempty in H by discriminate.
      specialize (IH H).
      change (c :: scan nu (Some c) (d :: t))
        with ([c] ++ scan nu (Some c) (d :: t)).
      rewrite last_of_app_nonempty by (apply last_of_word; exact IH). exact IH.
Qed.

(** A barrier at the end of a scan was at the end of the text. *)
Lemma nu_last_back u p X c :
  barrier c = true -> scan nu p u = X ++ [c] ->
  exists u0, u = u0 ++ [c] /\ X = scan nu p u0.
Proof.
  intros B E. destruct u as [|d u0] using rev_ind.
  - destruct X; discriminate.
  - clear IHu0. destruct (is_word d) eqn:W.
    + exfalso. assert (H : word_opt (last_of None (scan nu p (u0 ++ [d]))) = true).
      { apply nu_last_word. rewrite last_of_snoc. exact W. }
      rewrite E, last_of_snoc in H. cbn [word_opt] in H.
      rewrite (barrier_not_word c B) in H. discriminate.
    + rewrite (scan_snoc ALL Names nu ns K tok F Sub Key) in E by exact W.
      apply app_inj_tail in E. destruct E as [E1 E2]. subst d. exists u0. auto.
Qed.

Hypothesis SizeInert : inert_for ALL (txt "size") = true.

(** Before [size], the scan does what it does, and keeps [size]. *)
Lemma nu_before_size : forall g p,
  exists G, scan nu p (g ++ txt "size") = G ++ txt "size".
Proof.
  assert (Z0 : forall p, scan nu p ([] ++ txt "size") = [] ++ txt "size").
  { intros p. pose proof (nu_inert _ [] p SizeInert) as H.
    rewrite scan_nil, !app_nil_r in H. exact H. }
  assert (G0 : forall n g p, length g <= n ->
            exists G, scan nu p (g ++ txt "size") = G ++ txt "size").
  { induction n as [|n IH]; intros g p Hl.
    - destruct g; [|simpl in Hl; lia]. exists []. exact (Z0 p).
    - destruct g as [|c g].
      { exists []. exact (Z0 p). }
      destruct (nu p ((c :: g) ++ txt "size")) as [[M new]|] eqn:Q.
      + pose proof Q as Q'. apply F in Q'.
        destruct Q' as (n0 & ws & t & (In1 & _ & E & Ws & T) & -> & ->).
        assert (N : n0 ++ txt ":" ++ ws ++ K <> []).
        { destruct (name_head ALL Names n0 (Sub _ In1)) as (h & n' & -> & _).
          discriminate. }
        rewrite <- regroup in E.
        destruct (app_eq_split _ _ _ _ E) as (l & [[E1 E2]|[E1 E2]]).
        * assert (Es : (c :: g) ++ txt "size"
                       = (n0 ++ txt ":" ++ ws ++ K) ++ l ++ txt "size")
            by (rewrite E1, <- app_assoc; reflexivity).
          rewrite Es in Q |- *. rewrite (scan_hit _ _ _ _ _ N Q).
          destruct (IH l (last_of p (n0 ++ txt ":" ++ ws ++ K))) as (G & EG).
          { apply (f_equal (@length ascii)) in E1. rewrite length_app in E1.
            assert (0 < length (n0 ++ txt ":" ++ ws ++ K)).
            { destruct (n0 ++ txt ":" ++ ws ++ K); [contradiction|simpl; lia]. }
            cbn [length] in E1, Hl. lia. }
          rewrite EG. exists ((n0 ++ txt ": " ++ tok) ++ G).
          rewrite <- !app_assoc. reflexivity.
        * exfalso. destruct l as [|e l] using rev_ind.
          -- cbn [app] in E2. rewrite <- E2 in T. discriminate.
          -- clear IHl.
             destruct (key_last K ((n0 ++ txt ":") ++ ws) None Key) as (d & Ld & D).
             rewrite <- !app_assoc in Ld. rewrite E1, !app_assoc in Ld.
             rewrite last_of_snoc in Ld. injection Ld as <-.
             assert (I : In e (txt "size")).
             { rewrite E2. apply in_or_app. left. apply in_or_app. right.
               left. reflexivity. }
             cbn in I. destruct I as [<-|[<-|[<-|[<-|[]]]]]; discriminate.
      + cbn [app] in Q |- *. rewrite (scan_miss _ _ _ _ Q).
        destruct (IH g (Some c)) as (G & EG); [simpl in Hl; lia|].
        rewrite EG. exists (c :: G). reflexivity. }
  intros g p. apply (G0 (length g)). apply le_n.
Qed.

Variables (cnt : nat) (sz : text).
Hypothesis LSize : L = size_literal cnt.
Hypothesis IonHead : forallb (nohead ALL) (txt "<Ionicons") = true.

Lemma nohead_nonword c : is_word c = false -> nohead ALL c = true.
Proof.
  intros W. unfold nohead. apply forallb_forall. intros n I.
  destruct (name_head ALL Names n I) as (h & n' & -> & Wh & _).
  destruct (ascii_eqb h c) eqn:E; [|reflexivity].
  apply ascii_eqb_eq in E. congruence.
Qed.

Lemma nohead_spaces W : forallb is_space W = true -> forallb (nohead ALL) W = true.
Proof.
  intros H. apply forallb_forall. intros c I. apply nohead_nonword.
  pose proof (forallb_in _ _ _ H I) as Sc.
  destruct (is_word c) eqn:Wc; [|reflexivity].
  apply word_not_space in Wc. congruence.
Qed.

Lemma first_gt : forall u,
  no_gt u = false -> exists a b, u = a ++ ">"%char :: b /\ no_gt a = true.
Proof.
  induction u as [|c u IH]; intros H; [discriminate|].
  cbn [no_gt forallb] in H. destruct (ascii_eqb c ">") eqn:E.
  - apply ascii_eqb_eq in E. subst c. exists [], u. auto.
  - cbn [negb andb] in H. destruct (IH H) as (a & b & -> & Ha).
    exists (c :: a), b. split; [reflexivity|].
    cbn [no_gt forallb]. rewrite E. exact Ha.
Qed.

(** An icon tag found after the rule has run was there before. *)
Lemma icon_back s p q M new :
  icon_matcher cnt sz q (scan nu p s) = Some (M, new) ->
  icon_matcher cnt sz q s <> None.
Proof.
  intros H. apply icon_rule in H.
  destruct H as (W & g1 & g2 & t & E & _ & _ & NW & SW & G1 & G2 & _ & _).
  rewrite app_assoc in E.
  apply nu_prefix_split in E.
  2:{ rewrite forallb_app, IonHead, (nohead_spaces W SW). reflexivity. }
  destruct E as (u & -> & E).
  set (p' := last_of p (txt "<Ionicons" ++ W)) in E.
  destruct (no_gt u) eqn:Gu.
  { exfalso. pose proof (nu_keeps_no_gt u p' Gu) as X. rewrite <- E in X.
    rewrite !no_gt_app in X. rewrite G1, no_gt_size, G2 in X. discriminate. }
  destruct (first_gt u Gu) as (a & b & -> & Ga).
  rewrite scan_barrier_at in E by reflexivity.
  assert (E' : (g1 ++ size_literal cnt ++ g2 ++ txt "/") ++ ">"%char :: t
               = scan nu p' a ++ ">"%char :: scan nu None b).
  { rewrite <- E, <- !app_assoc. reflexivity. }
  apply (span_unique (fun x => negb (ascii_eqb x ">"))) in E'.
  - destruct E' as [E1 _]. symmetry in E1. rewrite !app_assoc in E1.
    apply nu_last_back in E1; [|reflexivity].
    destruct E1 as (a0 & -> & E1).
    assert (C : contains L a0 = true).
    { apply (nu_creates_none a0 p'). rewrite <- E1, LSize, <- app_assoc.
      apply contains_here. }
    rewrite LSize in C. apply contains_split in C. destruct C as (x & y & ->).
    rewrite !no_gt_app in Ga. apply andb_prop in Ga. destruct Ga as [Ga _].
    apply andb_prop in Ga. destruct Ga as [Gx Ga].
    apply andb_prop in Ga. destruct Ga as [_ Gy].
    pose proof (icon_fires cnt sz q W x y b NW SW Gx Gy) as Fi.
    intros Hn. apply Fi. rewrite <- Hn. f_equal.
    rewrite <- !app_assoc. reflexivity.
  - fold (no_gt (g1 ++ size_literal cnt ++ g2 ++ txt "/")).
    rewrite !no_gt_app, G1, no_gt_size, G2. reflexivity.
  - apply (nu_keeps_no_gt a p' Ga).
  - reflexivity.
  - reflexivity.
Qed.

Hypothesis TokLt : no_lt tok = true.

Lemma no_lt_app a b : no_lt (a ++ b) = no_lt a && no_lt b.
Proof. apply forallb_app. Qed.

Lemma site_no_lt n ws :
  In n ns -> forallb is_space ws = true -> no_lt (n ++ txt ":" ++ ws ++ K) = true.
Proof.
  intros I Ws. apply forallb_forall. intros c Ic.
  pose proof (site_chars ALL Names ns K Sub Key n ws c I Ws Ic) as B.
  destruct (ascii_eqb c "<") eqn:E; [|reflexivity].
  apply ascii_eqb_eq in E. subst c. discriminate.
Qed.

Lemma new_no_lt n : In n ns -> no_lt (n ++ txt ": " ++ tok) = true.
Proof.
  intros I. rewrite !no_lt_app, TokLt.
  replace (no_lt (txt ": ")) with true by reflexivity. rewrite !andb_true_r.
  apply forallb_forall. intros c Ic.
  pose proof (forallb_in _ _ _ (name_word ALL Names n (Sub _ I)) Ic) as Wc.
  destruct (ascii_eqb c "<") eqn:E; [|reflexivity].
  apply ascii_eqb_eq in E. subst c. discriminate.
Qed.

(** A match of the rule looks at the first character after it only. *)
Lemma nu_tail p M new t t' :
  nu p (M ++ t) = Some (M, new) ->
  word_opt (hd_error t') = word_opt (hd_error t) ->
  nu p (M ++ t') = Some (M, new).
Proof.
  intros Q H. apply F in Q.
  destruct Q as (n & ws & t0 & (I & Wp & E & Ws & T) & -> & ->).
  rewrite regroup in E. do 4 apply app_inv_head in E. subst t0.
  apply F. exists n, ws, t'. repeat split; auto.
  - apply regroup.
  - congruence.
Qed.

(** A declaration found after the icons were rewritten was there before. *)
Lemma nu_back s p q M new :
  nu p (scan (icon_matcher cnt sz) q s) = Some (M, new) ->
  nu p s = Some (M, new).
Proof.
  intros Q. pose proof Q as Q'. apply F in Q'.
  destruct Q' as (n & ws & t0 & (I & Wp & E & Ws & T) & -> & ->).
  rewrite <- regroup in E.
  apply icon_prefix_back in E; [|apply site_no_lt; assumption].
  destruct E as (u & -> & Et).
  rewrite icon_scan_pass in Q by (apply site_no_lt; assumption).
  apply (nu_tail _ _ _ _ u) in Q; [exact Q|].
  rewrite icon_scan_head. reflexivity.
Qed.

(** A text that holds no first character of a name is copied. *)
Lemma nu_nohead_pass w : forall u p,
  forallb (nohead ALL) w = true ->
  scan nu p (w ++ u) = w ++ scan nu (last_of p w) u.
Proof.
  induction w as [|c w IH]; intros u p H; [reflexivity|].
  cbn [forallb] in H. apply andb_prop in H. destruct H as [Hc H].
  cbn [app]. rewrite scan_miss.
  - rewrite IH by exact H. rewrite last_of_cons. reflexivity.
  - destruct (nu p (c :: w ++ u)) as [[M new]|] eqn:Q; [|reflexivity].
    exfalso. apply F in Q.
    destruct Q as (n & ws & t & (I & _ & E & _) & _).
    destruct n as [|h n'].
    + destruct (name_head ALL Names [] (Sub _ I)) as (? & ? & X & _).
      discriminate.
    + cbn [app] in E. injection E as <- _.
      exact (nohead_name _ _ Hc (Sub _ I) n' eq_refl).
Qed.

Lemma spaces_last W q :
  W <> [] -> forallb is_space W = true -> word_opt (last_of q W) = false.
Proof.
  intros N H. destruct (last_of_in q W N) as (c & -> & I). cbn [word_opt].
  pose proof (forallb_in _ _ _ H I) as Sc.
  destruct (is_word c) eqn:Wc; [|reflexivity].
  apply word_not_space in Wc. congruence.
Qed.

(** The scan of a tag: the attributes before the size pattern and after it
    are scanned on their own, and the frame of the tag is kept. *)
Lemma tag_scan p W g1 G1 X g2 t :
  W <> [] -> forallb is_space W = true ->
  (forall u q, scan nu q (X ++ u) = X ++ scan nu (last_of q X) u) ->
  word_opt (last_of None X) = false ->
  scan nu None (g1 ++ txt "size") = G1 ++ txt "size" ->
  scan nu p (txt "<Ionicons" ++ W ++ g1 ++ (txt "size" ++ "="%char :: X)
             ++ g2 ++ txt "/>" ++ t)
  = txt "<Ionicons" ++ W ++ G1 ++ (txt "size" ++ "="%char :: X)
    ++ scan nu None g2 ++ txt "/>" ++ scan nu None t.
Proof.
  intros NW SW HX LX HG.
  rewrite nu_nohead_pass by exact IonHead. f_equal.
  rewrite nu_nohead_pass by (apply nohead_spaces; exact SW). f_equal.
  set (p1 := last_of (last_of p (txt "<Ionicons")) W).
  assert (W1 : word_opt p1 = false) by (apply spaces_last; assumption).
  replace (g1 ++ (txt "size" ++ "="%char :: X) ++ g2 ++ txt "/>" ++ t)
    with ((g1 ++ txt "size") ++ "="%char :: (X ++ g2 ++ txt "/>" ++ t))
    by (rewrite <- !app_assoc; reflexivity).
  rewrite scan_barrier_at by reflexivity.
  rewrite (scan_prev nu ns K tok F p1 None) by exact W1. rewrite HG.
  rewrite HX.
  replace (g2 ++ txt "/>" ++ t) with (g2 ++ "/"%char :: (">"%char :: t))
    by reflexivity.
  rewrite scan_barrier_at by reflexivity.
  rewrite (scan_prev nu ns K tok F (last_of None X) None) by exact LX.
  pose proof (scan_barrier_at None [] ">"%char t eq_refl) as Gt.
  rewrite scan_nil in Gt. cbn [app] in Gt. rewrite Gt.
  rewrite <- !app_assoc. reflexivity.
Qed.

Variables (c0 : nat) (Z : text).
Hypothesis CntEq : cnt = S c0.
Hypothesis SzEq : sz = txt "size" ++ "="%char :: Z.
Hypothesis ZInert : inert_for ALL Z = true.
Hypothesis ZEnd : word_opt (last_of None Z) = false.

Lemma size_literal_S :
  size_literal cnt = txt "size" ++ "="%char :: repeat "="%char c0.
Proof. rewrite CntEq. reflexivity. Qed.

Lemma equals_pass u q :
  scan nu q (repeat "="%char c0 ++ u)
  = repeat "="%char c0 ++ scan nu (last_of q (repeat "="%char c0)) u.
Proof.
  apply nu_nonword. apply forallb_forall. intros x I.
  apply repeat_spec in I. subst x. reflexivity.
Qed.

Lemma equals_last : word_opt (last_of None (repeat "="%char c0)) = false.
Proof.
  destruct c0 as [|k]; [reflexivity|].
  destruct (last_of_in None (repeat "="%char (S k))) as (x & -> & I);
    [discriminate|].
  apply repeat_spec in I. subst x. reflexivity.
Qed.

Lemma stops_same_head (g x y : text) (h : ascii) :
  stops is_space (g ++ h :: x) -> stops is_space (g ++ h :: y).
Proof. destruct g; auto. Qed.

(** One icon substitution and one rule of the family can be run in either
    order. *)
Lemma icon_rule_commute : forall s p,
  scan (icon_matcher cnt sz) None (scan nu p s)
  = scan nu p (scan (icon_matcher cnt sz) None s).
Proof.
  assert (G : forall n s p, length s <= n ->
            scan (icon_matcher cnt sz) None (scan nu p s)
            = scan nu p (scan (icon_matcher cnt sz) None s)).
  { induction n as [|n IH]; intros s p Hl.
    { destruct s; [reflexivity|simpl in Hl; lia]. }
    destruct s as [|c s']; [reflexivity|].
    destruct (nu p (c :: s')) as [[M new]|] eqn:Q.
    - (* the rule fires here *)
      destruct (nu_proper _ _ _ _ Q) as [N (t & Es)].
      pose proof Q as Q'. apply F in Q'.
      destruct Q' as (n0 & ws & t0 & (I & Wp & _ & Ws & _) & EM & Enew).
      assert (Lt : length t <= n).
      { apply (f_equal (@length ascii)) in Es. rewrite length_app in Es.
        assert (0 < length M) by (destruct M; [contradiction|simpl; lia]).
        cbn [length] in Es, Hl. lia. }
      assert (NM : no_lt M = true) by (rewrite EM; apply site_no_lt; assumption).
      assert (Nn : no_lt new = true) by (rewrite Enew; apply new_no_lt; assumption).
      rewrite Es in Q |- *.
      rewrite (scan_hit _ _ _ _ _ N Q).
      rewrite (icon_scan_pass cnt sz new _ None Nn).
      rewrite (IH t _ Lt).
      rewrite (icon_scan_pass cnt sz M _ None NM).
      assert (Q2 : nu p (M ++ scan (icon_matcher cnt sz) None t) = Some (M, new)).
      { apply (nu_tail _ _ _ t); [exact Q|]. rewrite icon_scan_head. reflexivity. }
      rewrite (scan_hit _ _ _ _ _ N Q2). reflexivity.
    - destruct (icon_matcher cnt sz None (c :: s')) as [[M new]|] eqn:R.
      + (* an icon tag starts here *)
        pose proof R as R'. apply icon_rule in R'.
        destruct R' as (W & g1 & g2 & t & Es & EM & Enew & NW & SW & G1 & G2 & S1 & C2).
        destruct (nu_before_size g1 None) as (G1' & HG).
        assert (Lt : length t <= n).
        { apply (f_equal (@length ascii)) in Es. rewrite !length_app in Es.
          assert (0 < length (txt "<Ionicons")) by (simpl; lia).
          cbn [length] in Es, Hl. lia. }
        assert (N : M <> []) by (rewrite EM; discriminate).
        assert (EsM : c :: s' = M ++ t).
        { rewrite Es, EM, <- !app_assoc. reflexivity. }
        rewrite EsM in R. rewrite EsM at 2. rewrite (scan_hit _ _ _ _ _ N R).
        rewrite (icon_scan_prev cnt sz t (last_of None M) None).
        (* the rule, then the icons *)
        pose proof (tag_scan p W g1 G1' (repeat "="%char c0) g2 t NW SW
                      equals_pass equals_last HG) as T1.
        rewrite <- size_literal_S in T1. rewrite Es, T1.
        set (M' := txt "<Ionicons" ++ W ++ G1' ++ size_literal cnt
                   ++ scan nu None g2 ++ txt "/>").
        set (new' := txt "<Ionicons " ++ G1' ++ sz ++ scan nu None g2 ++ txt "/>").
        assert (R1 : icon_matcher cnt sz None (M' ++ scan nu None t)
                     = Some (M', new')).
        { apply icon_rule. exists W, G1', (scan nu None g2), (scan nu None t).
          assert (NG : no_gt (G1' ++ txt "size") = true).
          { rewrite <- HG. apply nu_keeps_no_gt. rewrite no_gt_app, G1. reflexivity. }
          rewrite no_gt_app in NG. apply andb_prop in NG. destruct NG as [NG _].
          repeat split; auto.
          - unfold M'. rewrite <- !app_assoc. reflexivity.
          - apply nu_keeps_no_gt. exact G2.
          - rewrite size_literal_S in S1 |- *.
            apply (stops_same_head G1' (txt "ize") _ "s"%char).
            change (stops is_space (G1' ++ txt "size")).
            rewrite <- HG. apply nu_head_space.
            apply (stops_same_head g1 _ (txt "ize") "s"%char) in S1. exact S1.
          - destruct (contains (size_literal cnt) (scan nu None g2)) eqn:C;
              [|reflexivity].
            rewrite <- LSize in C. apply nu_creates_none in C.
            rewrite LSize in C. congruence. }
        replace (txt "<Ionicons" ++ W ++ G1' ++ size_literal cnt
                 ++ scan nu None g2 ++ txt "/>" ++ scan nu None t)
          with (M' ++ scan nu None t)
          by (unfold M'; rewrite <- !app_assoc; reflexivity).
        assert (N' : M' <> []) by discriminate.
        rewrite (scan_hit _ _ _ _ _ N' R1).
        rewrite (icon_scan_prev cnt sz _ (last_of None M') None).
        rewrite (IH t None Lt).
        (* the icons, then the rule *)
        pose proof (tag_scan p [" "%char] g1 G1' Z g2
                      (scan (icon_matcher cnt sz) None t)) as T2.
        rewrite <- SzEq in T2. rewrite Enew.
        replace ((txt "<Ionicons " ++ g1 ++ sz ++ g2 ++ txt "/>")
                 ++ scan (icon_matcher cnt sz) None t)
          with (txt "<Ionicons" ++ [" "%char] ++ g1 ++ sz ++ g2 ++ txt "/>"
                ++ scan (icon_matcher cnt sz) None t)
          by (rewrite <- !app_assoc; reflexivity).
        rewrite T2; auto; try discriminate.
        * unfold new'. rewrite <- !app_assoc. reflexivity.
        * intros u q. apply nu_inert. exact ZInert.
      + (* neither fires here *)
        rewrite (scan_miss _ _ _ _ Q), (scan_miss _ _ _ _ R).
        assert (R1 : icon_matcher cnt sz None (c :: scan nu (Some c) s') = None).
        { destruct (icon_matcher cnt sz None (c :: scan nu (Some c) s'))
            as [[M new]|] eqn:R1; [|reflexivity].
          rewrite <- (scan_miss _ _ _ _ Q) in R1.
          apply icon_back in R1. congruence. }
        assert (Q1 : nu p (c :: scan (icon_matcher cnt sz) (Some c) s') = None).
        { destruct (nu p (c :: scan (icon_matcher cnt sz) (Some c) s'))
            as [[M new]|] eqn:Q1; [|reflexivity].
          rewrite <- (scan_miss _ _ _ _ R) in Q1.
          apply nu_back in Q1. congruence. }
        rewrite (scan_miss _ _ _ _ R1), (scan_miss _ _ _ _ Q1). f_equal.
        rewrite (icon_scan_prev cnt sz _ (Some c) None).
        rewrite (icon_scan_prev cnt sz s' (Some c) None).
        apply IH. simpl in Hl. lia. }
  intros s p. apply (G (length s)). apply le_n.
Qed.

End RuleAndIcons.

(* ================================================================= *)
(** ** The order of [process_stylesheet] and [update_icon_sizes] *)

Section IconsAndRules.

Import UpdateStylesV2.

(** An icon substitution never fails, and is the scan of its matcher. *)
Lemma icon_sub_scan n sz s :
  re_sub (ICON_RE n) (expand (icon_template sz)) s
  = Ok (scan (icon_matcher n sz) None s).
Proof.
  rewrite re_sub_from. apply sub_is_scan. intros prev s0 m E.
  destruct (icon_canonical n sz prev s0 m E)
    as (W & g1 & g2 & t & _ & Ew & _ & _ & _ & _ & _ & _ & X).
  split; [rewrite Ew; discriminate|eauto].
Qed.

Lemma update_icon_sizes_scans content :
  update_icon_sizes content
  = Ok (scan (icon_matcher 20 (txt "size=" ++ ICON20_TAIL)) None
          (scan (icon_matcher 24 (txt "size=" ++ ICON24_TAIL)) None content)).
Proof.
  unfold update_icon_sizes.
  change (expand ICON24_NEW)
    with (expand (icon_template (txt "size=" ++ ICON24_TAIL))).
  change (expand ICON20_NEW)
    with (expand (icon_template (txt "size=" ++ ICON20_TAIL))).
  rewrite icon_sub_scan. cbn [bind]. apply icon_sub_scan.
Qed.

(** An icon substitution can be moved across the scans of rules. *)
Lemma icon_scans_commute c0 Z mus ds :
  families mus ds ->
  forallb (rule_ok V2_NAMES) ds = true ->
  forallb (icon_safe (size_literal (S c0))) ds = true ->
  forallb (nohead V2_NAMES) (size_literal (S c0)) = true ->
  inert_for V2_NAMES Z = true ->
  word_opt (last_of None Z) = false ->
  forall g,
    scan (icon_matcher (S c0) (txt "size=" ++ Z)) None (scans mus g)
    = scans mus (scan (icon_matcher (S c0) (txt "size=" ++ Z)) None g).
Proof.
  intros Fs. induction Fs as [|nu d mus ds F Fs IH]; intros Ok1 Ok2 HL HZ HE g;
    [reflexivity|].
  cbn [forallb] in Ok1, Ok2.
  apply andb_prop in Ok1. destruct Ok1 as [R1 Ok1].
  apply andb_prop in Ok2. destruct Ok2 as [S1 Ok2].
  destruct (rule_ok_parts V2_NAMES d R1) as (Sub & Key & _ & _).
  unfold icon_safe in S1.
  apply andb_prop in S1. destruct S1 as [S1 Cr].
  apply andb_prop in S1. destruct S1 as [S1 Te].
  apply andb_prop in S1. destruct S1 as [Tg Tl].
  cbn [scans]. rewrite (IH Ok1 Ok2 HL HZ HE). f_equal.
  apply (icon_rule_commute V2_NAMES v2_names_ok nu (r_names d) (r_key d)
           (r_token d) F Sub Key Tg (size_literal (S c0)) HL Cr Te eq_refl
           (S c0) (txt "size=" ++ Z) eq_refl eq_refl Tl c0 Z eq_refl eq_refl
           HZ HE).
Qed.

End IconsAndRules.

Section StylesAndIcons.

Import UpdateStylesV2.

(** In [update-styles-v2.py], the substitutions that [process_stylesheet]
    makes in the text of a block and the two substitutions of
    [update_icon_sizes] can be run in either order: on every text neither
    order raises, and both orders return the same text. *)
Theorem v2_styles_and_icons_commute g :
  exists out,
    (styles_content <- restyle g ;; update_icon_sizes styles_content) = Ok out
    /\ (content <- update_icon_sizes g ;; restyle content) = Ok out.
Proof.
  exists (scans v2_matchers
            (scan (icon_matcher 20 (txt "size=" ++ ICON20_TAIL)) None
               (scan (icon_matcher 24 (txt "size=" ++ ICON24_TAIL)) None g))).
  rewrite restyle_scans, update_icon_sizes_scans. cbn [bind].
  rewrite update_icon_sizes_scans, restyle_scans. split; [|reflexivity].
  f_equal.
  rewrite (icon_scans_commute 23 ICON24_TAIL v2_matchers v2_rules v2_families
             v2_rules_ok) by (vm_compute; reflexivity).
  rewrite (icon_scans_commute 19 ICON20_TAIL v2_matchers v2_rules v2_families
             v2_rules_ok) by (vm_compute; reflexivity).
  reflexivity.
Qed.

End StylesAndIcons.
